(** * Bonfire: the request-dispatch core of [src/lib/index.ts]

    A shallow embedding of the route table ([Router]), the Response
    Context built per request inside [Bonfire.handleRequest], the
    continuation-passing middleware chain ([executeMiddleware]) and the
    JSON body-parsing middleware ([jsonMiddleware]), followed by the
    properties of the specification that concern them (Part II), and
    by further properties of the code, [staticMiddleware], the set-up
    calls of [Bonfire] and the application of [src/index.ts] included
    (Part III).

    Conventions.
    - A JS [Map] is an insertion-ordered association list with unique
      keys ([JSMap]): [set] on a present key overwrites the value in
      place, [set] on an absent key appends, iteration follows the list.
    - A JS object used as a dictionary ([params]) is the [gmap] of its
      own properties, written through [JS.assign].
    - Strings are [string]; [split("/")], [startsWith(":")], [slice(1)]
      and [includes] are written out on them. *)

From Stdlib Require Import ZArith String Ascii List Bool Lia.
From Stdlib Require Import Decimal DecimalN.
From stdpp Require Import base option list gmap strings.

Set Warnings "-register-all".
Open Scope string_scope.
Open Scope list_scope.

(* ================================================================== *)
(** * Part I. Definitions                                              *)
(* ================================================================== *)

(** ** JavaScript strings *)

Module JS.

(** [s.split("/")]: never empty; the empty string splits into one
    empty segment, and [n] separators give [n + 1] segments. *)
Fixpoint split (s : string) : list string :=
  match s with
  | EmptyString => [""]
  | String c s' =>
      if Ascii.eqb c "/"%char then "" :: split s'
      else match split s' with
           | [] => [String c ""]
           | seg :: segs => String c seg :: segs
           end
  end.

(** [s.startsWith(":")] *)
Definition startsWith_colon (s : string) : bool :=
  match s with
  | String c _ => Ascii.eqb c ":"%char
  | EmptyString => false
  end.

(** [s.slice(1)] *)
Definition slice1 (s : string) : string :=
  match s with
  | String _ s' => s'
  | EmptyString => ""
  end.

(** [s.startsWith(t)] *)
Fixpoint startsWith (t s : string) : bool :=
  match t, s with
  | EmptyString, _ => true
  | String a t', String b s' => Ascii.eqb a b && startsWith t' s'
  | String _ _, EmptyString => false
  end.

(** [s.includes(t)] *)
Fixpoint includes (t s : string) : bool :=
  startsWith t s ||
  match s with
  | EmptyString => false
  | String _ s' => includes t s'
  end.

(** [a[i]] on an array of strings, read inside the bounds. *)
Definition at_ (a : list string) (i : nat) : string := default "" (a !! i).

(** [o[key] = value] on an object created by [{}], for a string
    [value]: the own property [key] is created or overwritten. The key
    [__proto__] is the exception: [{}] inherits it from
    [Object.prototype] as an accessor, whose setter ignores a value
    that is neither an object nor [null], so that [o] stays as it
    was. *)
Definition assign (key value : string) (o : gmap string string)
    : gmap string string :=
  if String.eqb key "__proto__" then o else <[key := value]> o.

(** [x || d] on a string that may be [undefined]: the empty string is
    falsy. *)
Definition or_else (x : option string) (d : string) : string :=
  match x with
  | Some s => if String.eqb s "" then d else s
  | None => d
  end.

End JS.

(** ** JavaScript [Map] with string keys *)

Definition JSMap (V : Type) : Type := list (string * V).

Module JSMap.

Definition empty {V : Type} : JSMap V := [].

(** [m.get(k)] *)
Fixpoint get {V : Type} (k : string) (m : JSMap V) : option V :=
  match m with
  | [] => None
  | (k', v) :: m' => if String.eqb k' k then Some v else get k m'
  end.

(** [m.set(k, v)]: a present key keeps its place in the iteration order
    and takes the new value; an absent key goes to the end. *)
Fixpoint set {V : Type} (k : string) (v : V) (m : JSMap V) : JSMap V :=
  match m with
  | [] => [(k, v)]
  | (k', v') :: m' =>
      if String.eqb k' k then (k', v) :: m' else (k', v') :: set k v m'
  end.

Definition keys {V : Type} (m : JSMap V) : list string := m.*1.

End JSMap.

(** ** The route table: [class Router] *)

Definition Params : Type := gmap string string.

Module Router.
Section WithHandler.

Context {Handler : Type}.

(** [private routes: Map<string, Map<string, Handler>>] *)
Definition t : Type := JSMap (JSMap Handler).

(** [type MatchReturnType] *)
Record MatchReturnType : Type := MkMatch {
  handler : option Handler;
  params : Params;
}.

Definition methods : list string :=
  ["GET"; "POST"; "PUT"; "DELETE"; "PATCH"; "HEAD"; "OPTIONS"].

(** [constructor()] *)
Definition new : t :=
  foldl (fun routes method => JSMap.set method JSMap.empty routes)
        JSMap.empty methods.

(** [private register(method, path, handler)]; the inner [Map] is
    mutated in place, so the outer entry keeps its position. *)
Definition register (method path : string) (h : Handler) (routes : t) : t :=
  match JSMap.get method routes with
  | Some methodRoutes =>
      JSMap.set method (JSMap.set path h methodRoutes) routes
  | None => routes
  end.

Definition get := register "GET".
Definition post := register "POST".
Definition put := register "PUT".
Definition delete := register "DELETE".
Definition patch := register "PATCH".
Definition head := register "HEAD".
Definition options := register "OPTIONS".

(** The inner loop of [match]:
    [for (let i = 0; i < routeParts.length; i++)], with [n] the number
    of iterations left, the [params] object, created by [{}], filled
    as the loop goes by [params[routeParts[i].slice(1)] = urlParts[i]],
    and [match = false; break] as the early exit. *)
Fixpoint match_loop (routeParts urlParts : list string) (n i : nat)
    (params : Params) : bool * Params :=
  match n with
  | 0 => (true, params)
  | S n' =>
      if JS.startsWith_colon (JS.at_ routeParts i) then
        match_loop routeParts urlParts n' (S i)
          (JS.assign (JS.slice1 (JS.at_ routeParts i)) (JS.at_ urlParts i)
             params)
      else if negb (String.eqb (JS.at_ routeParts i) (JS.at_ urlParts i)) then
        (false, params)
      else match_loop routeParts urlParts n' (S i) params
  end.

(** The outer loop of [match], [for (const [routePath, handler] of
    methodRoutes)]. The pattern of the selected entry is returned next
    to the handler and the parameters; [match_] forgets it. *)
Fixpoint find_route (methodRoutes : JSMap Handler) (url : string)
    : option (string * Handler * Params) :=
  match methodRoutes with
  | [] => None
  | (routePath, h) :: rest =>
      let routeParts := JS.split routePath in
      let urlParts := JS.split url in
      if negb (Nat.eqb (length routeParts) (length urlParts)) then
        find_route rest url
      else
        let '(ok, params) :=
          match_loop routeParts urlParts (length routeParts) 0 ∅ in
        if ok then Some (routePath, h, params) else find_route rest url
  end.

Definition no_match : MatchReturnType :=
  {| handler := None; params := ∅ |}.

(** [match(method, url)] *)
Definition match_ (routes : t) (method url : string) : MatchReturnType :=
  match JSMap.get method routes with
  | None => no_match
  | Some methodRoutes =>
      match find_route methodRoutes url with
      | Some (_, h, params) => {| handler := Some h; params := params |}
      | None => no_match
      end
  end.

(** The pattern selected by [match], when there is one. *)
Definition selected (routes : t) (method url : string) : option string :=
  match JSMap.get method routes with
  | None => None
  | Some methodRoutes =>
      match find_route methodRoutes url with
      | Some (routePath, _, _) => Some routePath
      | None => None
      end
  end.

End WithHandler.
Arguments t : clear implicits.
Arguments MatchReturnType : clear implicits.
End Router.

(** ** Values and the JavaScript runtime *)

(** The values handlers pass to [json] and receive in [req.body]:
    JSON data, plus [undefined]. Numbers are kept to the integers. *)
Inductive JsValue : Type :=
  | JUndefined
  | JNull
  | JBool (b : bool)
  | JNum (n : Z)
  | JStr (s : string)
  | JArr (items : list JsValue)
  | JObj (fields : list (string * JsValue)).

(** What the code calls but the repository does not define. *)
Class Runtime : Type := {
  (** [JSON.stringify(v)]; [None] when the result is [undefined]. *)
  JSON_stringify : JsValue -> option string;
  (** [JSON.parse(s)]; [None] when it throws a [SyntaxError]. *)
  JSON_parse : string -> option JsValue;
  (** [path.join(a, b)] *)
  path_join : string -> string -> string;
}.

(** [type TemplateEngine]: the rendered text, or the [message] of the
    [Error] it throws or rejects with. *)
Inductive Rendered : Type :=
  | RenderOk (rendered : string)
  | RenderThrows (message : string).

Definition TemplateEngine : Type := string -> JsValue -> Rendered.

(** ** The Response Context of [handleRequest] *)

(** The three variables the closures of [responseContext] capture:
    [let statusCode = 200], [const headers = new Map()],
    [let responseBody: string | undefined]. *)
Record ResponseState : Type := MkResponse {
  statusCode : Z;
  headers : JSMap string;
  responseBody : option string;
}.

Module ResponseContext.
Section WithRuntime.

Context `{Runtime}.

Definition initial : ResponseState :=
  {| statusCode := 200; headers := JSMap.empty; responseBody := None |}.

(** [status: (code) => { statusCode = code; return responseContext; }] *)
Definition status (code : Z) (rc : ResponseState) : ResponseState :=
  {| statusCode := code;
     headers := headers rc;
     responseBody := responseBody rc |}.

(** [json: (data) => { headers.set("Content-Type", "application/json");
    responseBody = JSON.stringify(data); }] *)
Definition json (data : JsValue) (rc : ResponseState) : ResponseState :=
  {| statusCode := statusCode rc;
     headers := JSMap.set "Content-Type" "application/json" (headers rc);
     responseBody := JSON_stringify data |}.

(** [send: (data) => { responseBody = data; }] *)
Definition send (data : string) (rc : ResponseState) : ResponseState :=
  {| statusCode := statusCode rc;
     headers := headers rc;
     responseBody := Some data |}.

(** [setHeader: (key, value) => { headers.set(key, value); return
    responseContext; }] *)
Definition setHeader (key value : string) (rc : ResponseState)
    : ResponseState :=
  {| statusCode := statusCode rc;
     headers := JSMap.set key value (headers rc);
     responseBody := responseBody rc |}.

(** [render: async (templatePath, data = {}) => { try {...} catch (e)
    {...} }], as the state change it has made once its promise has
    resolved. The promise always resolves: both branches end normally. *)
Definition render (viewsDir : string) (templateEngine : TemplateEngine)
    (templatePath : string) (data : option JsValue) (rc : ResponseState)
    : ResponseState :=
  let fullPath := path_join viewsDir templatePath in
  match templateEngine fullPath (default (JObj []) data) with
  | RenderOk rendered =>
      {| statusCode := statusCode rc;
         headers := JSMap.set "Content-Type" "text/html" (headers rc);
         responseBody := Some rendered |}
  | RenderThrows message =>
      {| statusCode := 500;
         headers := JSMap.set "Content-Type" "text/plain" (headers rc);
         responseBody := Some ("Error rendering template: " +:+ message) |}
  end.

(** A call on the Response Context. *)
Inductive Op : Type :=
  | Status (code : Z)
  | Json (data : JsValue)
  | Send (data : string)
  | SetHeader (key value : string)
  | Render (templatePath : string) (data : option JsValue).

Definition apply (viewsDir : string) (templateEngine : TemplateEngine)
    (op : Op) (rc : ResponseState) : ResponseState :=
  match op with
  | Status code => status code rc
  | Json data => json data rc
  | Send data => send data rc
  | SetHeader key value => setHeader key value rc
  | Render templatePath data =>
      render viewsDir templateEngine templatePath data rc
  end.

(** A sequence of calls, in the order in which they take effect. *)
Definition run (viewsDir : string) (templateEngine : TemplateEngine)
    (ops : list Op) (rc : ResponseState) : ResponseState :=
  foldl (fun rc op => apply viewsDir templateEngine op rc) rc ops.

End WithRuntime.
End ResponseContext.

(** ** Requests *)

(** What the transport hands to [handleRequest]: [req.method] and
    [req.url] may be [undefined]; [payload] is the text the request
    stream delivers through its [data] events before [end]. *)
Record IncomingMessage : Type := MkIncoming {
  im_method : option string;
  im_url : option string;
  im_headers : gmap string string;
  im_payload : string;
}.

(** [interface RequestContext], on top of the transport's stream. *)
Module RequestContext.
Record t : Type := Mk {
  method : string;
  url : string;
  headers : gmap string string;
  body : JsValue;
  params : Params;
  payload : string;
}.

Definition set_body (v : JsValue) (r : t) : t :=
  {| method := method r; url := url r; headers := headers r;
     body := v; params := params r; payload := payload r |}.

Definition set_params (ps : Params) (r : t) : t :=
  {| method := method r; url := url r; headers := headers r;
     body := body r; params := ps; payload := payload r |}.
End RequestContext.

(** ** Handlers and middleware as programs *)

(** The body of a handler or of a middleware step, as the sequence of
    things it does that the dispatcher can observe. [N] is the type of
    continuations in scope: [unit] for a middleware (its [next]),
    [Empty_set] for a handler, which receives none.

    - [Do op k]: a call on the Response Context; [render] is awaited.
    - [SetBody v k]: [req.body = v].
    - [Call n awaited k]: [next()], with its promise awaited or
      returned ([awaited = true]) or dropped ([awaited = false]).
    - [AwaitIO k]: [await] on a promise that an I/O event settles in a
      later turn of the event loop (a file read, the end of the
      request stream).
    - [Never]: [await] on a promise that nothing settles.

    The template engine is taken to be asynchronous, as the default
    one ([fs.readFile]) is: a [render] settles in a later turn of the
    event loop.

    Two limits of these programs. A call of [render] whose promise is
    dropped is not among them: every [render] is awaited, so the
    [pending] promises of a state are promises of [next()] only. And
    an [await] on a promise that is already resolved goes on at once:
    the microtask ticks in between are not counted. In the source a
    body that has awaited a [next()] that completed at once goes on a
    few ticks later, which is after the response has been written when
    a step before it has dropped the promise of its own [next()]; what
    is proved below about the response written relies on no write
    that such a body makes after its [await]. *)
Inductive Prog (N : Type) : Type :=
  | Return
  | Do (op : ResponseContext.Op) (k : Prog N)
  | SetBody (v : JsValue) (k : Prog N)
  | Call (n : N) (awaited : bool) (k : Prog N)
  | AwaitIO (k : Prog N)
  | Never.

Arguments Return {N}.
Arguments Do {N} op k.
Arguments SetBody {N} v k.
Arguments Call {N} n awaited k.
Arguments AwaitIO {N} k.
Arguments Never {N}.

(** [type Handler] and [type Middleware]: what the function does,
    given the Request Context it is called with. *)
Definition Handler : Type := RequestContext.t -> Prog Empty_set.
Definition Middleware : Type := RequestContext.t -> Prog unit.

(** [class Bonfire] *)
Record Bonfire : Type := MkBonfire {
  router : Router.t Handler;
  middlewares : list Middleware;
  viewsDir : string;
  templateEngine : TemplateEngine;
}.

Module App.

(** [new Bonfire(viewsDir, templateEngine)] *)
Definition new (viewsDir : string) (templateEngine : TemplateEngine)
    : Bonfire :=
  {| router := Router.new; middlewares := [];
     viewsDir := viewsDir; templateEngine := templateEngine |}.

(** [use(middleware) { this.middlewares.push(middleware); }] *)
Definition use (mw : Middleware) (app : Bonfire) : Bonfire :=
  {| router := router app; middlewares := middlewares app ++ [mw];
     viewsDir := viewsDir app; templateEngine := templateEngine app |}.

Definition with_router (f : Router.t Handler -> Router.t Handler)
    (app : Bonfire) : Bonfire :=
  {| router := f (router app); middlewares := middlewares app;
     viewsDir := viewsDir app; templateEngine := templateEngine app |}.

Definition get (path : string) (h : Handler) := with_router (Router.get path h).
Definition post (path : string) (h : Handler) := with_router (Router.post path h).
Definition put (path : string) (h : Handler) := with_router (Router.put path h).
Definition delete (path : string) (h : Handler) :=
  with_router (Router.delete path h).
Definition patch (path : string) (h : Handler) :=
  with_router (Router.patch path h).
Definition head (path : string) (h : Handler) := with_router (Router.head path h).
Definition options (path : string) (h : Handler) :=
  with_router (Router.options path h).

End App.

(** ** The dispatcher: [Bonfire.handleRequest] *)

Inductive Who : Type :=
  | Step (index : nat)
  | RouteHandler.

(** The observation log of one request (newest event first); it is not
    program state, nothing reads it. [Leave w rc] records the Response
    Context as it stands when [w] returns. *)
Inductive Event : Type :=
  | Enter (w : Who)
  | CallNext (w : Who)
  | Leave (w : Who) (rc : ResponseState)
  | NotFound.

(** A suspended activation: what it does when it is woken up ([wake]
    is the [render] whose template has arrived, if that is what it was
    waiting for), then the rest of its body. *)
Inductive Frame : Type :=
  | StepFrame (index : nat) (wake : option ResponseContext.Op) (k : Prog unit)
  | HandlerFrame (wake : option ResponseContext.Op) (k : Prog Empty_set).

(** A suspended chain of [await]s, innermost activation first. *)
Definition Stack : Type := list Frame.

Record State : Type := MkState {
  res : ResponseState;
  req : RequestContext.t;
  log : list Event;
  (** promises of [next()] that nobody awaits, still to be settled *)
  pending : list Stack;
}.

(** How a call of an async function stands when control comes back to
    the caller: its promise is resolved, pending, or never settled. *)
Inductive Status : Type :=
  | Completed
  | Suspended (stack : Stack)
  | Stuck.

Definition record (e : Event) (st : State) : State :=
  {| res := res st; req := req st; log := e :: log st; pending := pending st |}.

Definition set_res (rc : ResponseState) (st : State) : State :=
  {| res := rc; req := req st; log := log st; pending := pending st |}.

Definition set_req (r : RequestContext.t) (st : State) : State :=
  {| res := res st; req := r; log := log st; pending := pending st |}.

Definition set_pending (ps : list Stack) (st : State) : State :=
  {| res := res st; req := req st; log := log st; pending := ps |}.

(** A promise that is dropped: if it is still pending it settles on
    its own later; nobody waits for it. *)
Definition detach (r : Status) (st : State) : State :=
  match r with
  | Suspended stack => set_pending (pending st ++ [stack]) st
  | Completed | Stuck => st
  end.

Definition is_render (op : ResponseContext.Op) : bool :=
  match op with
  | ResponseContext.Render _ _ => true
  | _ => false
  end.

(** What the transport receives: [headers.forEach((value, key) =>
    res.setHeader(key, value)); res.writeHead(statusCode);
    res.end(responseBody)]. *)
Record ServerResponse : Type := MkServerResponse {
  sent_headers : list (string * string);
  sent_status : Z;
  sent_body : option string;
}.

Definition flush (rc : ResponseState) : ServerResponse :=
  {| sent_headers := headers rc;
     sent_status := statusCode rc;
     sent_body := responseBody rc |}.

(** How [handleRequest] stands after the turns of the event loop that
    were observed: the response was written, or the awaited chain can
    never resolve, or it still waits for an I/O event. *)
Inductive Outcome : Type :=
  | Flushed (response : ServerResponse) (st : State)
  | Hangs (st : State)
  | Waiting (st : State).

Section Dispatcher.

Context `{Runtime}.
Variable app : Bonfire.

Definition apply_op (op : ResponseContext.Op) (st : State) : State :=
  set_res (ResponseContext.apply (viewsDir app) (templateEngine app) op (res st)) st.

Definition wake_up (wake : option ResponseContext.Op) (st : State) : State :=
  match wake with
  | Some op => apply_op op st
  | None => st
  end.

Section Activation.

Context {N : Type}.
Variable next : N -> State -> State * Status.
Variable me : Who.
Variable frame : option ResponseContext.Op -> Prog N -> Frame.

(** One activation, run until it returns or suspends. *)
Fixpoint run_prog (p : Prog N) (st : State) : State * Status :=
  match p with
  | Return => (record (Leave me (res st)) st, Completed)
  | Do op k =>
      if is_render op then (st, Suspended [frame (Some op) k])
      else run_prog k (apply_op op st)
  | SetBody v k => run_prog k (set_req (RequestContext.set_body v (req st)) st)
  | Call n awaited k =>
      let '(st1, r) := next n (record (CallNext me) st) in
      if awaited then
        match r with
        | Completed => run_prog k st1
        | Suspended stack => (st1, Suspended (stack ++ [frame None k]))
        | Stuck => (st1, Stuck)
        end
      else run_prog k (detach r st1)
  | AwaitIO k => (st, Suspended [frame None k])
  | Never => (st, Stuck)
  end.

End Activation.

Definition no_next (n : Empty_set) (st : State) : State * Status :=
  match n with end.

(** The branch [index >= this.middlewares.length] of
    [executeMiddleware]; [url] is the constant captured at the top of
    [handleRequest]. *)
Definition dispatch (url : string) (st : State) : State * Status :=
  let m :=
    Router.match_ (router app)
      (JS.or_else (Some (RequestContext.method (req st))) "GET") url in
  let st1 := set_req (RequestContext.set_params (Router.params m) (req st)) st in
  match Router.handler m with
  | Some h =>
      run_prog no_next RouteHandler HandlerFrame (h (req st1))
        (record (Enter RouteHandler) st1)
  | None =>
      (record NotFound
         (set_res (ResponseContext.send "Not Found"
                     (ResponseContext.status 404 (res st1))) st1),
       Completed)
  end.

(** [executeMiddleware(index)], by recursion on the steps from [index]
    on: [rest = this.middlewares.slice(index)]. *)
Fixpoint executeMiddleware_from (url : string) (rest : list Middleware)
    (index : nat) (st : State) : State * Status :=
  match rest with
  | [] => dispatch url st
  | mw :: rest' =>
      run_prog (fun _ : unit => executeMiddleware_from url rest' (S index))
        (Step index) (StepFrame index)
        (mw (req st)) (record (Enter (Step index)) st)
  end.

Definition executeMiddleware (url : string) (index : nat) (st : State)
    : State * Status :=
  executeMiddleware_from url (drop index (middlewares app)) index st.

(** Waking a suspended chain of awaits: each activation runs on when
    the one it awaits has resolved. *)
Definition resume_frame (url : string) (f : Frame) (st : State)
    : State * Status :=
  match f with
  | StepFrame index wake k =>
      run_prog (fun _ : unit => executeMiddleware url (S index))
        (Step index) (StepFrame index) k (wake_up wake st)
  | HandlerFrame wake k =>
      run_prog no_next RouteHandler HandlerFrame k (wake_up wake st)
  end.

Fixpoint resume (url : string) (stack : Stack) (st : State) : State * Status :=
  match stack with
  | [] => (st, Completed)
  | f :: fs =>
      let '(st1, r) := resume_frame url f st in
      match r with
      | Completed => resume url fs st1
      | Suspended stack' => (st1, Suspended (stack' ++ fs))
      | Stuck => (st1, Stuck)
      end
  end.

(** The event loop after [await executeMiddleware(0)]: [root] is the
    awaited promise. Each element of [schedule] is one I/O event:
    [0] wakes the awaited chain, [S n] the [n]-th dropped promise (or
    nothing when there is none). The response is written as soon as
    the awaited promise has resolved. *)
Fixpoint event_loop (url : string) (schedule : list nat) (root : Status)
    (st : State) : Outcome :=
  match root with
  | Completed => Flushed (flush (res st)) st
  | Stuck => Hangs st
  | Suspended stack =>
      match schedule with
      | [] => Waiting st
      | 0 :: schedule' =>
          let '(st1, r) := resume url stack st in
          event_loop url schedule' r st1
      | S n :: schedule' =>
          match pending st !! n with
          | None => event_loop url schedule' root st
          | Some bg =>
              let '(st1, r) :=
                resume url bg (set_pending (delete n (pending st)) st) in
              event_loop url schedule' root (detach r st1)
          end
      end
  end.

(** [private async handleRequest(req, res)] *)
Definition handleRequest (raw : IncomingMessage) (schedule : list nat)
    : Outcome :=
  let url := JS.or_else (im_url raw) "/" in
  let requestContext :=
    {| RequestContext.method := JS.or_else (im_method raw) "GET";
       RequestContext.url := url;
       RequestContext.headers := im_headers raw;
       RequestContext.body := JNull;
       RequestContext.params := ∅;
       RequestContext.payload := im_payload raw |} in
  let st0 :=
    {| res := ResponseContext.initial; req := requestContext;
       log := []; pending := [] |} in
  let '(st1, r) := executeMiddleware url 0 st0 in
  event_loop url schedule r st1.

End Dispatcher.

(** ** [jsonMiddleware] *)

(** [GET] and [HEAD] pass through. Otherwise, when [content-type]
    includes [application/json], the step sets [req.body = null],
    awaits the [end] of the request stream and parses what the stream
    delivered (nothing delivered gives [null]); on a [SyntaxError] the
    [end] callback writes the 400 response and returns before
    [resolve()], so the awaited promise is never settled. In every
    other case [next()] is called, its promise dropped. *)
Definition jsonMiddleware `{Runtime} : Middleware := fun req =>
  if String.eqb (RequestContext.method req) "GET"
     || String.eqb (RequestContext.method req) "HEAD"
  then Call tt false Return
  else if match RequestContext.headers req !! "content-type" with
          | Some contentType => JS.includes "application/json" contentType
          | None => false
          end
  then
    SetBody JNull
      (AwaitIO
         (match (if String.eqb (RequestContext.payload req) "" then Some JNull
                 else JSON_parse (RequestContext.payload req)) with
          | Some v => SetBody v (Call tt false Return)
          | None =>
              Do (ResponseContext.Status 400)
                (Do (ResponseContext.Json
                       (JObj [("error", JStr "Invalid JSON")]))
                   Never)
          end))
  else Call tt false Return.

(** ** Shapes of steps *)

(** A body that runs to its end without suspending: no [render], no
    [await] on I/O. *)
Fixpoint synchronous {N : Type} (p : Prog N) : Prop :=
  match p with
  | Return => True
  | Do op k => is_render op = false ∧ synchronous k
  | SetBody _ k => synchronous k
  | Call _ _ k => synchronous k
  | AwaitIO _ => False
  | Never => False
  end.

(** A step that passes the request on: it writes to the two contexts,
    then calls [next()] as its last act. *)
Fixpoint passes_on (p : Prog unit) : Prop :=
  match p with
  | Do op k => is_render op = false ∧ passes_on k
  | SetBody _ k => passes_on k
  | Call _ _ Return => True
  | _ => False
  end.

(** A body that waits for every [next()] it calls: [await next()] or
    [return next()], never a dropped promise. *)
Fixpoint awaits_next {N : Type} (p : Prog N) : Prop :=
  match p with
  | Return | Never => True
  | Do _ k | SetBody _ k | AwaitIO k => awaits_next k
  | Call _ awaited k => awaited = true ∧ awaits_next k
  end.

Definition owner (f : Frame) : Who :=
  match f with
  | StepFrame index _ _ => Step index
  | HandlerFrame _ _ => RouteHandler
  end.

Definition frame_awaits (f : Frame) : Prop :=
  match f with
  | StepFrame _ _ k => awaits_next k
  | HandlerFrame _ k => awaits_next k
  end.

(** Every activation that was entered has returned, those of [active]
    apart. *)
Definition settled (events : list Event) (active : list Who) : Prop :=
  ∀ w, Enter w ∈ events → (∃ rc, Leave w rc ∈ events) ∨ w ∈ active.

(** How a call stands for [settled]: nothing is left to settle on its
    own, and what has not returned is on the stack of awaits. *)
Definition awaited (active : list Who) (st : State) (r : Status) : Prop :=
  pending st = []
  ∧ match r with
    | Completed => settled (log st) active
    | Suspended stack =>
        settled (log st) (active ++ (owner <$> stack))
        ∧ Forall frame_awaits stack
    | Stuck => True
    end.

(** The observation log and the response of an outcome. *)
Definition log_of (o : Outcome) : list Event :=
  match o with
  | Flushed _ st | Hangs st | Waiting st => log st
  end.

Definition response_of (o : Outcome) : option ServerResponse :=
  match o with
  | Flushed response _ => Some response
  | Hangs _ | Waiting _ => None
  end.

Definition state_of (o : Outcome) : State :=
  match o with
  | Flushed _ st | Hangs st | Waiting st => st
  end.

(** ** Invariants of the observation log *)

(** With [n] steps in the chain: a step beyond the first is entered
    only from the [next()] of the step before it, the handler only from
    the [next()] of the last step, and only a step that was entered
    calls [next()]. *)
Definition causal (n : nat) (events : list Event) : Prop :=
  (∀ j, Enter (Step (S j)) ∈ events → CallNext (Step j) ∈ events)
  ∧ (∀ w, CallNext w ∈ events → Enter w ∈ events)
  ∧ (Enter RouteHandler ∈ events →
     ∀ j, S j = n → CallNext (Step j) ∈ events)
  ∧ (∀ j, Enter (Step j) ∈ events → j < n).

Definition frame_ok (events : list Event) (f : Frame) : Prop :=
  match f with
  | StepFrame index _ _ => Enter (Step index) ∈ events
  | HandlerFrame _ _ => Enter RouteHandler ∈ events
  end.

Definition status_ok (events : list Event) (r : Status) : Prop :=
  match r with
  | Suspended stack => Forall (frame_ok events) stack
  | Completed | Stuck => True
  end.

Definition good (n : nat) (st : State) : Prop :=
  causal n (log st) ∧ Forall (Forall (frame_ok (log st))) (pending st).

(** [st'] and [r] come after [st] in a run. *)
Definition follows (n : nat) (st st' : State) (r : Status) : Prop :=
  good n st' ∧ log st ⊆ log st' ∧ status_ok (log st') r.

(** ** A reference runtime

    An executable model of the functions of the platform that the
    code calls, used to run the definitions above on concrete
    requests and to state what [json] promises the client. The texts
    are those of ECMA-404 on the values of [JsValue]: numbers are
    integers, and a [string] holds the UTF-8 text of a JavaScript
    string.
    [print_to] writes a value in front of the text that follows it;
    the parser reads one value and returns what follows. *)

Module Reference.

Definition dquote : ascii := ascii_of_nat 34.
Definition backslash : ascii := ascii_of_nat 92.

(** The lower-case hexadecimal digit of a number below 16. *)
Definition hex_digit (n : nat) : ascii :=
  match n with
  | 0 => "0" | 1 => "1" | 2 => "2" | 3 => "3" | 4 => "4" | 5 => "5"
  | 6 => "6" | 7 => "7" | 8 => "8" | 9 => "9" | 10 => "a" | 11 => "b"
  | 12 => "c" | 13 => "d" | 14 => "e" | _ => "f"
  end%char.

(** The escape of a control character after its backslash: [\b],
    [\t], [\n], [\f], [\r], and [\u00XX] for the others. *)
Definition escape_to (c : ascii) (rest : string) : string :=
  let n := nat_of_ascii c in
  if Nat.eqb n 8 then String "b" rest
  else if Nat.eqb n 9 then String "t" rest
  else if Nat.eqb n 10 then String "n" rest
  else if Nat.eqb n 12 then String "f" rest
  else if Nat.eqb n 13 then String "r" rest
  else
    String "u"
      (String "0"
         (String "0"
            (String (hex_digit (n / 16)) (String (hex_digit (n mod 16)) rest)))).

(** The text of a string literal after its opening quote, followed by
    [rest]: the quote, the backslash and the control characters are
    escaped. *)
Fixpoint quote_to (s : string) (rest : string) : string :=
  match s with
  | EmptyString => String dquote rest
  | String c s' =>
      if Ascii.eqb c dquote || Ascii.eqb c backslash
      then String backslash (String c (quote_to s' rest))
      else if Nat.ltb (nat_of_ascii c) 32
      then String backslash (escape_to c (quote_to s' rest))
      else String c (quote_to s' rest)
  end.

(** The decimal digits of a number, followed by [rest]. *)
Fixpoint digits_to (d : Decimal.uint) (rest : string) : string :=
  match d with
  | Nil => rest
  | D0 d' => String "0" (digits_to d' rest)
  | D1 d' => String "1" (digits_to d' rest)
  | D2 d' => String "2" (digits_to d' rest)
  | D3 d' => String "3" (digits_to d' rest)
  | D4 d' => String "4" (digits_to d' rest)
  | D5 d' => String "5" (digits_to d' rest)
  | D6 d' => String "6" (digits_to d' rest)
  | D7 d' => String "7" (digits_to d' rest)
  | D8 d' => String "8" (digits_to d' rest)
  | D9 d' => String "9" (digits_to d' rest)
  end.

Definition number_to (z : Z) (rest : string) : string :=
  if (z <? 0)%Z then String "-" (digits_to (N.to_uint (Z.to_N (- z))) rest)
  else digits_to (N.to_uint (Z.to_N z)) rest.

(** The text of a value, followed by [rest]. [undefined] becomes
    [null] inside an array and drops its property inside an object. *)
Fixpoint print_to (v : JsValue) (rest : string) : string :=
  match v with
  | JUndefined | JNull => "null" +:+ rest
  | JBool true => "true" +:+ rest
  | JBool false => "false" +:+ rest
  | JNum n => number_to n rest
  | JStr s => String dquote (quote_to s rest)
  | JArr items =>
      String "["
        (match items with
         | [] => String "]" rest
         | x :: xs =>
             print_to x
               ((fix more (xs : list JsValue) : string :=
                   match xs with
                   | [] => String "]" rest
                   | y :: ys => String "," (print_to y (more ys))
                   end) xs)
         end)
  | JObj fields =>
      let more :=
        fix more (fs : list (string * JsValue)) : string :=
          match fs with
          | [] => String "}" rest
          | (key, x) :: fs' =>
              match x with
              | JUndefined => more fs'
              | _ =>
                  String ","
                    (String dquote
                       (quote_to key (String ":" (print_to x (more fs')))))
              end
          end in
      String "{"
        ((fix properties (fs : list (string * JsValue)) : string :=
            match fs with
            | [] => String "}" rest
            | (key, x) :: fs' =>
                match x with
                | JUndefined => properties fs'
                | _ =>
                    String dquote
                      (quote_to key (String ":" (print_to x (more fs'))))
                end
            end) fields)
  end.

(** Modelled from the spec: the canonical text encoding of a value,
    [JSON.stringify] of the platform, which the repository calls and
    does not define. *)
Definition stringify (v : JsValue) : option string :=
  match v with
  | JUndefined => None
  | _ => Some (print_to v "")
  end.

Definition is_space (c : ascii) : bool :=
  let n := nat_of_ascii c in
  Nat.eqb n 32 || Nat.eqb n 9 || Nat.eqb n 10 || Nat.eqb n 13.

Fixpoint skip_space (s : string) : string :=
  match s with
  | String c s' => if is_space c then skip_space s' else s
  | EmptyString => s
  end.

Definition digit_of (c : ascii) : option (Decimal.uint -> Decimal.uint) :=
  if Ascii.eqb c "0" then Some D0 else if Ascii.eqb c "1" then Some D1
  else if Ascii.eqb c "2" then Some D2 else if Ascii.eqb c "3" then Some D3
  else if Ascii.eqb c "4" then Some D4 else if Ascii.eqb c "5" then Some D5
  else if Ascii.eqb c "6" then Some D6 else if Ascii.eqb c "7" then Some D7
  else if Ascii.eqb c "8" then Some D8 else if Ascii.eqb c "9" then Some D9
  else None.

Fixpoint take_digits (s : string) : Decimal.uint * string :=
  match s with
  | String c s' =>
      match digit_of c with
      | Some digit => let '(d, rest) := take_digits s' in (digit d, rest)
      | None => (Nil, s)
      end
  | EmptyString => (Nil, s)
  end.

(** An integer literal: at least one digit, no leading zero, no
    fraction, no exponent. *)
Definition parse_nat (s : string) : option (N * string) :=
  let '(d, rest) := take_digits s in
  match d with
  | Nil => None
  | D0 (D0 _ | D1 _ | D2 _ | D3 _ | D4 _ | D5 _ | D6 _ | D7 _ | D8 _ | D9 _) =>
      None
  | _ =>
      match rest with
      | String c _ =>
          if Ascii.eqb c "." || Ascii.eqb c "e" || Ascii.eqb c "E" then None
          else Some (N.of_uint d, rest)
      | EmptyString => Some (N.of_uint d, rest)
      end
  end.

(** The value of a hexadecimal digit, in either case. *)
Definition hex_value (c : ascii) : option nat :=
  let n := nat_of_ascii c in
  if Nat.leb 48 n && Nat.leb n 57 then Some (n - 48)
  else if Nat.leb 97 n && Nat.leb n 102 then Some (n - 87)
  else if Nat.leb 65 n && Nat.leb n 70 then Some (n - 55)
  else None.

(** The UTF-8 text of the character that [\uXXXX] stands for. Half of
    a surrogate pair is outside the model. *)
Definition code_unit (h1 h2 h3 h4 : ascii) : option string :=
  match hex_value h1, hex_value h2, hex_value h3, hex_value h4 with
  | Some a, Some b, Some c, Some d =>
      let n := ((a * 16 + b) * 16 + c) * 16 + d in
      if Nat.ltb n 128 then Some (String (ascii_of_nat n) "")
      else if Nat.ltb n 2048 then
        Some (String (ascii_of_nat (192 + n / 64))
                (String (ascii_of_nat (128 + n mod 64)) ""))
      else if Nat.leb 216 (n / 256) && Nat.leb (n / 256) 223 then None
      else
        Some (String (ascii_of_nat (224 + n / 4096))
                (String (ascii_of_nat (128 + (n / 64) mod 64))
                   (String (ascii_of_nat (128 + n mod 64)) "")))
  | _, _, _, _ => None
  end.

(** The character that a one-letter escape stands for. *)
Definition escaped (e : ascii) : option ascii :=
  if Ascii.eqb e dquote || Ascii.eqb e backslash || Ascii.eqb e "/"
  then Some e
  else if Ascii.eqb e "b" then Some (ascii_of_nat 8)
  else if Ascii.eqb e "f" then Some (ascii_of_nat 12)
  else if Ascii.eqb e "n" then Some (ascii_of_nat 10)
  else if Ascii.eqb e "r" then Some (ascii_of_nat 13)
  else if Ascii.eqb e "t" then Some (ascii_of_nat 9)
  else None.

Definition prepend (c : ascii) (r : option (string * string))
    : option (string * string) :=
  match r with
  | Some (t, rest) => Some (String c t, rest)
  | None => None
  end.

Fixpoint prepend_text (t : string) (r : option (string * string))
    : option (string * string) :=
  match t with
  | EmptyString => r
  | String c t' => prepend c (prepend_text t' r)
  end.

(** The text after an opening quote, up to the closing one. A control
    character must come escaped. *)
Fixpoint parse_chars (s : string) : option (string * string) :=
  match s with
  | EmptyString => None
  | String c s' =>
      if Ascii.eqb c dquote then Some ("", s')
      else if Ascii.eqb c backslash then
        match s' with
        | String e s'' =>
            match escaped e with
            | Some c' => prepend c' (parse_chars s'')
            | None =>
                if Ascii.eqb e "u" then
                  match s'' with
                  | String h1 (String h2 (String h3 (String h4 s3))) =>
                      match code_unit h1 h2 h3 h4 with
                      | Some t => prepend_text t (parse_chars s3)
                      | None => None
                      end
                  | _ => None
                  end
                else None
            end
        | EmptyString => None
        end
      else if Nat.ltb (nat_of_ascii c) 32 then None
      else prepend c (parse_chars s')
  end.

(** The array index that a property key denotes: the key is the
    decimal text, without leading zero, of a number below 2^32 - 1. *)
Definition index_of (key : string) : option N :=
  match take_digits key with
  | (d, EmptyString) =>
      let n := N.of_uint d in
      if String.eqb (digits_to (N.to_uint n) "") key && (n <? 4294967295)%N
      then Some n
      else None
  | (_, String _ _) => None
  end.

(** Whether a new property [key] comes before the property [k] when
    an object enumerates its own properties: array indices come
    first, in ascending order, then the other keys as they were
    created. *)
Definition goes_before (key k : string) : bool :=
  match index_of key with
  | Some i =>
      match index_of k with
      | Some j => (i <? j)%N
      | None => true
      end
  | None => false
  end.

(** [CreateDataProperty] on the own properties of an object, listed as
    the object enumerates them: a present key takes the new value
    where it stands, a new key goes to its place in the order. *)
Fixpoint define (key : string) (v : JsValue) (fields : list (string * JsValue))
    : list (string * JsValue) :=
  match fields with
  | [] => [(key, v)]
  | (k, x) :: fields' =>
      if String.eqb k key then (k, v) :: fields'
      else if goes_before key k then (key, v) :: (k, x) :: fields'
      else (k, x) :: define key v fields'
  end.

(** The object that a list of members, in the order of the text,
    builds. *)
Definition properties_of (members : list (string * JsValue))
    : list (string * JsValue) :=
  foldl (fun fields kv => define (fst kv) (snd kv) fields) [] members.

(** [s] without the prefix [t]. *)
Fixpoint expect (t s : string) : option string :=
  match t with
  | EmptyString => Some s
  | String a t' =>
      match s with
      | String b s' => if Ascii.eqb a b then expect t' s' else None
      | EmptyString => None
      end
  end.

(** [s] after white space and the character [c], when that is how it
    goes on. *)
Definition closes (c : ascii) (s : string) : option string :=
  match skip_space s with
  | String d rest => if Ascii.eqb c d then Some rest else None
  | EmptyString => None
  end.

Fixpoint parse_value (fuel : nat) (s : string) : option (JsValue * string) :=
  match fuel with
  | 0 => None
  | S fuel' =>
      match skip_space s with
      | EmptyString => None
      | String c s' =>
          if Ascii.eqb c "n" then
            (fun r => (JNull, r)) <$> expect "null" (String c s')
          else if Ascii.eqb c "t" then
            (fun r => (JBool true, r)) <$> expect "true" (String c s')
          else if Ascii.eqb c "f" then
            (fun r => (JBool false, r)) <$> expect "false" (String c s')
          else if Ascii.eqb c dquote then
            (fun tr : string * string => (JStr (fst tr), snd tr))
              <$> parse_chars s'
          else if Ascii.eqb c "-" then
            (fun nr : N * string => (JNum (- Z.of_N (fst nr)), snd nr))
              <$> parse_nat s'
          else if Ascii.eqb c "[" then
            match closes "]" s' with
            | Some rest => Some (JArr [], rest)
            | None =>
                (fun xr : list JsValue * string => (JArr (fst xr), snd xr))
                  <$> parse_items fuel' s'
            end
          else if Ascii.eqb c "{" then
            match closes "}" s' with
            | Some rest => Some (JObj [], rest)
            | None =>
                (fun xr : list (string * JsValue) * string =>
                   (JObj (properties_of (fst xr)), snd xr))
                  <$> parse_fields fuel' s'
            end
          else
            (fun nr : N * string => (JNum (Z.of_N (fst nr)), snd nr))
              <$> parse_nat (String c s')
      end
  end
with parse_items (fuel : nat) (s : string)
    : option (list JsValue * string) :=
  match fuel with
  | 0 => None
  | S fuel' =>
      match parse_value fuel' s with
      | None => None
      | Some (v, rest) =>
          match skip_space rest with
          | String "]" rest' => Some ([v], rest')
          | String "," rest' =>
              (fun xr : list JsValue * string => (v :: fst xr, snd xr))
                <$> parse_items fuel' rest'
          | _ => None
          end
      end
  end
with parse_fields (fuel : nat) (s : string)
    : option (list (string * JsValue) * string) :=
  match fuel with
  | 0 => None
  | S fuel' =>
      match skip_space s with
      | String c s' =>
          if negb (Ascii.eqb c dquote) then None
          else
            match parse_chars s' with
            | None => None
            | Some (key, rest) =>
                match skip_space rest with
                | String ":" rest' =>
                    match parse_value fuel' rest' with
                    | None => None
                    | Some (v, rest'') =>
                        match skip_space rest'' with
                        | String "}" r => Some ([(key, v)], r)
                        | String "," r =>
                            (fun xr : list (string * JsValue) * string =>
                               ((key, v) :: fst xr, snd xr))
                              <$> parse_fields fuel' r
                        | _ => None
                        end
                    end
                | _ => None
                end
            end
      | EmptyString => None
      end
  end.

(** Modelled from the spec: the parser of that encoding, [JSON.parse]
    of the platform: one value, then nothing but white space. A
    member that repeats a key replaces the value of the key. Outside
    the model, and rejected here: a number with a fraction or an
    exponent, and an escaped half of a surrogate pair. *)
Definition parse (s : string) : option JsValue :=
  match parse_value (S (String.length s)) s with
  | Some (v, rest) =>
      match skip_space rest with
      | EmptyString => Some v
      | String _ _ => None
      end
  | None => None
  end.

(** The integers that a [Number] holds exactly. *)
Definition safe_integer (n : Z) : bool :=
  (- 9007199254740991 <=? n)%Z && (n <=? 9007199254740991)%Z.

(** The keys of an object as it enumerates them: no key twice, and no
    key that would have come before an earlier one. *)
Fixpoint enumerated (keys : list string) : bool :=
  match keys with
  | [] => true
  | k :: keys' =>
      forallb (fun k' => negb (String.eqb k k') && negb (goes_before k' k))
              keys'
      && enumerated keys'
  end.

(** The serializable values: [null], booleans, the integers that a
    [Number] holds exactly, strings, and arrays and objects of such
    values. [undefined] is not serializable, nor is a value that holds
    it. *)
Fixpoint serializable (v : JsValue) : bool :=
  match v with
  | JUndefined => false
  | JNull | JBool _ | JStr _ => true
  | JNum n => safe_integer n
  | JArr items => forallb serializable items
  | JObj fields =>
      enumerated (map fst fields)
      && forallb (fun kv : string * JsValue => serializable (snd kv)) fields
  end.

(** Parsing steps needed for a value. *)
Fixpoint size (v : JsValue) : nat :=
  match v with
  | JArr items => S (list_sum (map (fun x => S (size x)) items))
  | JObj fields =>
      S (list_sum (map (fun kv : string * JsValue => S (size (snd kv))) fields))
  | _ => 1
  end.

(** What may follow a value: nothing, or a separator. *)
Definition delimited (rest : string) : Prop :=
  match rest with
  | EmptyString => True
  | String c _ => c = ","%char ∨ c = "]"%char ∨ c = "}"%char
  end.

(** The items of an array after the first, and the properties of an
    object, as [print_to] writes them. *)
Fixpoint more_items (rest : string) (xs : list JsValue) : string :=
  match xs with
  | [] => String "]" rest
  | y :: ys => String "," (print_to y (more_items rest ys))
  end.

Fixpoint more_properties (rest : string) (fs : list (string * JsValue))
    : string :=
  match fs with
  | [] => String "}" rest
  | (key, x) :: fs' =>
      match x with
      | JUndefined => more_properties rest fs'
      | _ =>
          String ","
            (String dquote
               (quote_to key
                  (String ":" (print_to x (more_properties rest fs')))))
      end
  end.

Fixpoint properties_to (rest : string) (fs : list (string * JsValue))
    : string :=
  match fs with
  | [] => String "}" rest
  | (key, x) :: fs' =>
      match x with
      | JUndefined => properties_to rest fs'
      | _ =>
          String dquote
            (quote_to key
               (String ":" (print_to x (more_properties rest fs'))))
      end
  end.

(** Induction on values, through the lists they hold. *)
Section Induction.

Variable P : JsValue -> Prop.
Hypothesis P_undefined : P JUndefined.
Hypothesis P_null : P JNull.
Hypothesis P_bool : forall b, P (JBool b).
Hypothesis P_num : forall n, P (JNum n).
Hypothesis P_str : forall s, P (JStr s).
Hypothesis P_arr : forall items, Forall P items -> P (JArr items).
Hypothesis P_obj :
  forall fields,
    Forall (fun kv : string * JsValue => P (snd kv)) fields -> P (JObj fields).

Fixpoint value_ind (v : JsValue) : P v :=
  match v with
  | JUndefined => P_undefined
  | JNull => P_null
  | JBool b => P_bool b
  | JNum n => P_num n
  | JStr s => P_str s
  | JArr items =>
      P_arr items
        ((fix all (l : list JsValue) : Forall P l :=
            match l with
            | [] => @List.Forall_nil _ P
            | x :: l' => @List.Forall_cons _ P x l' (value_ind x) (all l')
            end) items)
  | JObj fields =>
      P_obj fields
        ((fix all (l : list (string * JsValue))
            : Forall (fun kv : string * JsValue => P (snd kv)) l :=
            match l with
            | [] => @List.Forall_nil _ _
            | kv :: l' =>
                @List.Forall_cons _
                  (fun kv : string * JsValue => P (snd kv))
                  kv l' (value_ind (snd kv)) (all l')
            end) fields)
  end.

End Induction.

(** [path.normalize] on the segments of a path: empty segments and
    [.] go, and [..] takes the segment before it away; above the start
    of a relative path it stays. [kept] holds the segments passed, the
    last one first. *)
Fixpoint normalize (allowAboveRoot : bool) (kept segments : list string)
    : list string :=
  match segments with
  | [] => rev kept
  | seg :: rest =>
      if String.eqb seg "" || String.eqb seg "." then
        normalize allowAboveRoot kept rest
      else if String.eqb seg ".." then
        match kept with
        | last :: before =>
            if String.eqb last ".."
            then normalize allowAboveRoot (".." :: kept) rest
            else normalize allowAboveRoot before rest
        | [] =>
            normalize allowAboveRoot (if allowAboveRoot then [".."] else [])
              rest
        end
      else normalize allowAboveRoot (seg :: kept) rest
  end.

(** [path.join(a, b)] on POSIX paths: the arguments that are not
    empty are joined by a separator and the result is normalized; a
    separator at the end stays. *)
Definition join_path (a b : string) : string :=
  let joined :=
    if String.eqb a "" then b
    else if String.eqb b "" then a
    else a +:+ "/" +:+ b in
  if String.eqb joined "" then "."
  else
    let absolute := JS.startsWith "/" joined in
    let trailing :=
      match last (JS.split joined) with
      | Some seg => String.eqb seg ""
      | None => false
      end in
    let path :=
      String.concat "/" (normalize (negb absolute) [] (JS.split joined)) in
    if String.eqb path "" then
      if absolute then "/" else if trailing then "./" else "."
    else
      (if absolute then "/" else "") +:+ path
      +:+ (if trailing then "/" else "").

Definition runtime : Runtime :=
  {| JSON_stringify := stringify;
     JSON_parse := parse;
     path_join := join_path |}.

End Reference.

(** ** Route registration and the specification of [match] *)

(** The registration surface: [get], [post], [put], [delete], [patch],
    [head] and [options] are the only ways into [register]. *)
Inductive Verb : Type := GET | POST | PUT | DELETE | PATCH | HEAD | OPTIONS.

Definition verb_name (v : Verb) : string :=
  match v with
  | GET => "GET" | POST => "POST" | PUT => "PUT" | DELETE => "DELETE"
  | PATCH => "PATCH" | HEAD => "HEAD" | OPTIONS => "OPTIONS"
  end.

Record Registration (Handler : Type) : Type := MkRegistration {
  reg_verb : Verb;
  reg_pattern : string;
  reg_handler : Handler;
}.
Arguments MkRegistration {Handler}.
Arguments reg_verb {Handler}.
Arguments reg_pattern {Handler}.
Arguments reg_handler {Handler}.

Module RouteTable.
Section WithHandler.

Context {Handler : Type}.

Definition add (r : Registration Handler) (routes : Router.t Handler)
    : Router.t Handler :=
  match reg_verb r with
  | GET => Router.get (reg_pattern r) (reg_handler r) routes
  | POST => Router.post (reg_pattern r) (reg_handler r) routes
  | PUT => Router.put (reg_pattern r) (reg_handler r) routes
  | DELETE => Router.delete (reg_pattern r) (reg_handler r) routes
  | PATCH => Router.patch (reg_pattern r) (reg_handler r) routes
  | HEAD => Router.head (reg_pattern r) (reg_handler r) routes
  | OPTIONS => Router.options (reg_pattern r) (reg_handler r) routes
  end.

(** The route table after a sequence of registrations. *)
Definition build (regs : list (Registration Handler)) : Router.t Handler :=
  foldl (fun routes r => add r routes) Router.new regs.

End WithHandler.
End RouteTable.

(** [match] as the specification words it, over the history of
    registrations instead of the table. *)
Module MatchSpec.
Section WithHandler.

Context {Handler : Type}.

(** The segments of a path, read from left to right: [current] is the
    segment that is being read, and each [/] closes it. The empty path
    is a single empty segment. *)
Fixpoint segments_from (current path : string) : list string :=
  match path with
  | EmptyString => [current]
  | String c path' =>
      if decide (c = "/"%char) then current :: segments_from "" path'
      else segments_from (current +:+ String c "") path'
  end.

Definition segments (path : string) : list string := segments_from "" path.

(** A parameter segment is marked by a leading [:]. *)
Definition is_parameter (segment : string) : bool :=
  String.prefix ":" segment.

(** The declared name of a parameter segment: the segment without its
    mark. *)
Definition parameter_name (segment : string) : string :=
  String.substring 1 (String.length segment - 1) segment.

(** A parameter segment always matches; a literal segment must equal
    the path segment. *)
Definition segment_matches (segment value : string) : bool :=
  is_parameter segment || String.eqb segment value.

(** Same number of segments, and every segment matches. *)
Definition accepts (pattern path : string) : bool :=
  Nat.eqb (length (segments pattern)) (length (segments path))
  && forallb (fun sv => segment_matches (fst sv) (snd sv))
       (zip (segments pattern) (segments path)).

(** Each parameter segment binds its name to the path segment's value,
    from left to right. *)
Definition bind (ps : Params) (sv : string * string) : Params :=
  if is_parameter (fst sv) then <[parameter_name (fst sv) := snd sv]> ps
  else ps.

Definition bindings_of (segments values : list string) : Params :=
  foldl bind ∅ (zip segments values).

Definition bindings (pattern path : string) : Params :=
  bindings_of (segments pattern) (segments path).

(** The registrations made for [method], oldest first. *)
Definition registered (regs : list (Registration Handler)) (method : string)
    : list (Registration Handler) :=
  filter (fun r => verb_name (reg_verb r) = method) regs.

(** The distinct elements of a list, each at its first occurrence. *)
Definition see (seen : list string) (x : string) : list string :=
  if bool_decide (x ∈ seen) then seen else seen ++ [x].

Definition distinct (l : list string) : list string := foldl see [] l.

(** The patterns registered for [method], in registration order. *)
Definition registration_order (regs : list (Registration Handler))
    (method : string) : list string :=
  distinct (reg_pattern <$> registered regs method).

(** The handler of the last registration of ([method], [pattern]). *)
Definition handler_of (regs : list (Registration Handler))
    (method pattern : string) : option Handler :=
  reg_handler <$>
    last (filter (fun r => reg_pattern r = pattern) (registered regs method)).

(** The first pattern, in registration order, that accepts the path. *)
Definition selected (regs : list (Registration Handler))
    (method path : string) : option string :=
  snd <$> list_find (fun pattern => accepts pattern path = true)
            (registration_order regs method).

Definition match_ (regs : list (Registration Handler))
    (method path : string) : Router.MatchReturnType Handler :=
  match selected regs method path with
  | Some pattern =>
      {| Router.handler := handler_of regs method pattern;
         Router.params := bindings pattern path |}
  | None => Router.no_match
  end.

End WithHandler.
End MatchSpec.

(** ** The specification of the Response Context: last write wins *)

Module ResponseSpec.
Section WithRuntime.

Context `{Runtime}.
Variable viewsDir : string.
Variable templateEngine : TemplateEngine.

(** The argument of a [status] call. *)
Definition status_call (op : ResponseContext.Op) : option Z :=
  match op with
  | ResponseContext.Status code => Some code
  | _ => None
  end.

(** What a [render] call found. *)
Definition rendering (templatePath : string) (data : option JsValue)
    : Rendered :=
  templateEngine (path_join viewsDir templatePath) (default (JObj []) data).

(** The status a call writes: the argument of [status], 500 for a
    [render] that fails. *)
Definition status_write (op : ResponseContext.Op) : option Z :=
  match op with
  | ResponseContext.Status code => Some code
  | ResponseContext.Render templatePath data =>
      match rendering templatePath data with
      | RenderOk _ => None
      | RenderThrows _ => Some 500%Z
      end
  | _ => None
  end.

(** The value a call writes for the header [key]. *)
Definition header_write (key : string) (op : ResponseContext.Op)
    : option string :=
  match op with
  | ResponseContext.SetHeader k value =>
      if String.eqb k key then Some value else None
  | ResponseContext.Json _ =>
      if String.eqb "Content-Type" key then Some "application/json" else None
  | ResponseContext.Render templatePath data =>
      if String.eqb "Content-Type" key then
        match rendering templatePath data with
        | RenderOk _ => Some "text/html"
        | RenderThrows _ => Some "text/plain"
        end
      else None
  | _ => None
  end.

(** The body a terminal call ([send], [json], [render]) writes. *)
Definition body_write (op : ResponseContext.Op) : option (option string) :=
  match op with
  | ResponseContext.Send data => Some (Some data)
  | ResponseContext.Json data => Some (JSON_stringify data)
  | ResponseContext.Render templatePath data =>
      match rendering templatePath data with
      | RenderOk rendered => Some (Some rendered)
      | RenderThrows message =>
          Some (Some ("Error rendering template: " +:+ message))
      end
  | _ => None
  end.

(** The last write of a kind in a sequence of calls, if any. *)
Definition last_write {A : Type} (write : ResponseContext.Op -> option A)
    (ops : list ResponseContext.Op) : option A :=
  last (omap write ops).

End WithRuntime.
End ResponseSpec.

(** ** Example applications *)

Module Example.

(** A views directory that holds [index.html] only, read by the
    default engine [fs.readFile]. *)
Definition read_views : TemplateEngine := fun fullPath _ =>
  if String.eqb fullPath "views/index.html" then RenderOk "<h1>Hello</h1>"
  else RenderThrows
         ("ENOENT: no such file or directory, open '" +:+ fullPath +:+ "'").

(** The handlers of [src/index.ts]. *)
Definition hello : Handler := fun _ =>
  Do (ResponseContext.Json (JObj [("message", JStr "Hello World")])) Return.

Definition show_user : Handler := fun req =>
  Do (ResponseContext.Json
        (JObj [("userId",
                match RequestContext.params req !! "id" with
                | Some id => JStr id
                | None => JUndefined
                end)]))
     Return.

Definition create_user : Handler := fun req =>
  Do (ResponseContext.Status 201)
    (Do (ResponseContext.Json (JObj [("created", RequestContext.body req)]))
       Return).

(** [(req, res, next) => { console.log(...); next(); }] *)
Definition logger : Middleware := fun _ => Call tt false Return.

(** [(req, res) => res.render("index.html")] *)
Definition home_page : Handler := fun _ =>
  Do (ResponseContext.Render "index.html" None) Return.

(** [(req, res, next) => { next(); res.setHeader("X-Served-By", "bonfire"); }] *)
Definition stamp : Middleware := fun _ =>
  Call tt false
    (Do (ResponseContext.SetHeader "X-Served-By" "bonfire") Return).

(** [(req, res, next) => { res.status(401).send("no"); }] *)
Definition reject : Middleware := fun _ =>
  Do (ResponseContext.Status 401) (Do (ResponseContext.Send "no") Return).

(** [(req, res, next) => { next(); res.status(200).send("hi"); }] *)
Definition greet : Middleware := fun _ =>
  Call tt false
    (Do (ResponseContext.Status 200) (Do (ResponseContext.Send "hi") Return)).

(** [(req, res, next) => { res.setHeader("X-A", "1"); next(); }] *)
Definition tag : Middleware := fun _ =>
  Do (ResponseContext.SetHeader "X-A" "1") (Call tt false Return).

(** [(req, res) => res.send("ok")] *)
Definition ok : Handler := fun _ => Do (ResponseContext.Send "ok") Return.

(** [(req, res) => res.render("missing.html")] *)
Definition missing_page : Handler := fun _ =>
  Do (ResponseContext.Render "missing.html" None) Return.

Definition request (method url : string) (headers : list (string * string))
    (payload : string) : IncomingMessage :=
  {| im_method := Some method; im_url := Some url;
     im_headers := list_to_map headers; im_payload := payload |}.

(** [src/index.ts] *)
Definition index_app : Bonfire :=
  App.post "/users" create_user
    (App.get "/users/:id" show_user
       (App.get "/" hello
          (App.use logger (App.new "views" read_views)))).

Definition users_routes : list (Registration Handler) :=
  [MkRegistration GET "/users/:id" show_user;
   MkRegistration GET "/users/me" hello;
   MkRegistration GET "/users/:id" create_user].

(** [src/index.ts] with [app.use(jsonMiddleware())] after the logger. *)
Definition api_app : Bonfire :=
  App.use (@jsonMiddleware Reference.runtime) index_app.

(** [jsonMiddleware] as the only step. *)
Definition parsing_app : Bonfire :=
  App.post "/users" create_user
    (App.use (@jsonMiddleware Reference.runtime) (App.new "views" read_views)).

Definition post_users (payload : string) : IncomingMessage :=
  request "POST" "/users" [("content-type", "application/json")] payload.

(** A step that writes after [next()] has returned, in front of one
    that halts the chain. *)
Definition halted_app : Bonfire :=
  App.use reject (App.use stamp (App.new "views" read_views)).

Definition tagged_app : Bonfire :=
  App.use reject (App.use tag (App.new "views" read_views)).

(** No routes, and a step that writes after [next()] has returned. *)
Definition greeting_app : Bonfire := App.use greet (App.new "views" read_views).

(** [jsonMiddleware] in front of a step that answers 401 without
    calling [next()]. *)
Definition guarded_app : Bonfire :=
  App.use reject
    (App.use (@jsonMiddleware Reference.runtime) (App.new "views" read_views)).

End Example.

(** ** [staticMiddleware] *)

(** What [staticMiddleware] calls but the repository does not define:
    the file system and two string functions of the platform. *)
Class FileSystem : Type := {
  (** [await fs.stat(p)]: [None] when the promise rejects (no such
      file), otherwise [stats.isFile()]. *)
  fs_stat : string -> option bool;
  (** [await fs.readFile(p, "utf8")]: [None] when the promise
      rejects. *)
  fs_readFile : string -> option string;
  (** [path.extname(p)]: empty, or a string that starts with a dot. *)
  path_extname : string -> string;
  (** [s.toLowerCase()] *)
  toLowerCase : string -> string;
}.

(** [const mimeTypes: Record<string, string> = {...}] *)
Definition mimeTypes : JSMap string :=
  [(".html", "text/html");
   (".js", "application/javascript");
   (".css", "text/css");
   (".png", "image/png");
   (".jpg", "image/jpeg");
   (".gif", "image/gif")].

(** [mimeTypes[ext] || "application/octet-stream"] *)
Definition mimeType (ext : string) : string :=
  JS.or_else (JSMap.get ext mimeTypes) "application/octet-stream".

(** The step awaits [fs.stat], then [fs.readFile]; both settle in a
    later turn of the event loop. A rejection of either is caught and
    leads, like a path that is not a file, to [next()], whose promise
    is dropped; a file that was read is sent and [next()] is not
    called. *)
Definition staticMiddleware `{Runtime} `{FileSystem} (staticPath : string)
    : Middleware := fun req =>
  let filePath :=
    path_join staticPath (JS.or_else (Some (RequestContext.url req)) "") in
  AwaitIO
    (match fs_stat filePath with
     | Some true =>
         AwaitIO
           (match fs_readFile filePath with
            | Some content =>
                let ext := toLowerCase (path_extname filePath) in
                Do (ResponseContext.SetHeader "Content-Type" (mimeType ext))
                  (Do (ResponseContext.Send content) Return)
            | None => Call tt false Return
            end)
     | Some false | None => Call tt false Return
     end).

(** ** The parts of [handleRequest] and of [jsonMiddleware] by name *)

(** The Request Context that [handleRequest] builds with
    [Object.assign(req, {...})]. *)
Definition requestContext (raw : IncomingMessage) : RequestContext.t :=
  {| RequestContext.method := JS.or_else (im_method raw) "GET";
     RequestContext.url := JS.or_else (im_url raw) "/";
     RequestContext.headers := im_headers raw;
     RequestContext.body := JNull;
     RequestContext.params := ∅;
     RequestContext.payload := im_payload raw |}.

(** The two tests at the top of [jsonMiddleware]: the method is neither
    [GET] nor [HEAD], and [content-type] includes [application/json]. *)
Definition reads_body (req : RequestContext.t) : bool :=
  negb (String.eqb (RequestContext.method req) "GET"
        || String.eqb (RequestContext.method req) "HEAD")
  && match RequestContext.headers req !! "content-type" with
     | Some contentType => JS.includes "application/json" contentType
     | None => false
     end.

(** [body ? JSON.parse(body) : null], [None] when [JSON.parse] throws. *)
Definition parsed_body `{Runtime} (payload : string) : option JsValue :=
  if String.eqb payload "" then Some JNull else JSON_parse payload.

(** ** Chains that run in one turn *)

(** A body that runs to its end in the turn in which it is called and
    waits for nothing: no [render], no [await] on I/O, and every
    promise of [next()] dropped. *)
Fixpoint fire_and_forget {N : Type} (p : Prog N) : Prop :=
  match p with
  | Return => True
  | Do op k => is_render op = false ∧ fire_and_forget k
  | SetBody _ k => fire_and_forget k
  | Call _ awaited k => awaited = false ∧ fire_and_forget k
  | AwaitIO _ => False
  | Never => False
  end.

(** The response and request contexts, side by side. *)
Definition Contexts : Type := ResponseState * RequestContext.t.

Section Composition.

Context `{Runtime}.
Variable app : Bonfire.

(** What a body writes to the two contexts before its first call of
    [next()], or to its end when it makes none. *)
Fixpoint writes {N : Type} (p : Prog N) (ctx : Contexts) : Contexts :=
  match p with
  | Do op k =>
      writes k
        (ResponseContext.apply (viewsDir app) (templateEngine app) op ctx.1,
         ctx.2)
  | SetBody v k => writes k (ctx.1, RequestContext.set_body v ctx.2)
  | Return | Call _ _ _ | AwaitIO _ | Never => ctx
  end.

(** The writes of the steps of a chain, from left to right, each step
    reading the Request Context as the steps before it have left it. *)
Definition steps_writes (steps : list Middleware) (ctx : Contexts) : Contexts :=
  foldl (fun ctx mw => writes (mw ctx.2) ctx) ctx steps.

(** The end of the chain on those contexts: the writes of the matched
    handler, called with the parameters of the match, or the fallback. *)
Definition answer (url : string) (ctx : Contexts) : ResponseState :=
  let m :=
    Router.match_ (router app)
      (JS.or_else (Some (RequestContext.method ctx.2)) "GET") url in
  let req := RequestContext.set_params (Router.params m) ctx.2 in
  match Router.handler m with
  | Some h => (writes (h req) (ctx.1, req)).1
  | None =>
      ResponseContext.send "Not Found" (ResponseContext.status 404 ctx.1)
  end.

End Composition.

(** The steps pass the request on, whatever body the steps before them
    have set. *)
Definition steps_pass_on (raw : IncomingMessage) (steps : list Middleware)
    : Prop :=
  ∀ mw body,
    mw ∈ steps →
    passes_on (mw (RequestContext.set_body body (requestContext raw))).

(** The handler that the request selects, if there is one, is
    synchronous. *)
Definition handler_synchronous (app : Bonfire) (raw : IncomingMessage)
    : Prop :=
  let m :=
    Router.match_ (router app) (JS.or_else (im_method raw) "GET")
      (JS.or_else (im_url raw) "/") in
  ∀ h body,
    Router.handler m = Some h →
    synchronous
      (h (RequestContext.set_params (Router.params m)
            (RequestContext.set_body body (requestContext raw)))).

(** ** Chains that wait for a handler that renders *)

(** A body that comes to its end: it may render templates, it waits
    for no other I/O event. *)
Fixpoint returns {N : Type} (p : Prog N) : Prop :=
  match p with
  | Return => True
  | Do _ k | SetBody _ k | Call _ _ k => returns k
  | AwaitIO _ => False
  | Never => False
  end.

(** The number of templates that a body renders. *)
Fixpoint renders {N : Type} (p : Prog N) : nat :=
  match p with
  | Do op k => (if is_render op then 1 else 0) + renders k
  | SetBody _ k | Call _ _ k | AwaitIO k => renders k
  | Return | Never => 0
  end.

(** The steps pass the request on and wait for their [next()]:
    [await next()] or [return next()] as last act. *)
Definition steps_wait (raw : IncomingMessage) (steps : list Middleware)
    : Prop :=
  ∀ mw body,
    mw ∈ steps →
    passes_on (mw (RequestContext.set_body body (requestContext raw)))
    ∧ awaits_next (mw (RequestContext.set_body body (requestContext raw))).

(** A suspended step that has nothing left to do once its [next()]
    has resolved. *)
Definition idle (f : Frame) : Prop :=
  ∃ index, f = StepFrame index None Return.

(** How such a chain stands when control comes back to the event
    loop: it has completed with the response [final], or the handler
    waits for a template, [turns] turns away from [final], with the
    steps waiting behind it. *)
Definition stands `{Runtime} (app : Bonfire) (final : ResponseState)
    (turns : nat) (st : State) (r : Status) : Prop :=
  match r with
  | Completed => turns = 0 ∧ res st = final
  | Suspended (HandlerFrame (Some op) k :: tail) =>
      Forall idle tail
      ∧ returns k
      ∧ turns = S (renders k)
      ∧ (writes app k
           (ResponseContext.apply (viewsDir app) (templateEngine app) op
              (res st),
            req st)).1 = final
  | Suspended _ | Stuck => False
  end.

(** ** Chains whose steps hand the request over *)

(** A step that hands the request over: whatever it writes and waits
    for before, its call of [next()] is its last act. *)
Fixpoint hands_over (p : Prog unit) : Prop :=
  match p with
  | Do _ k | SetBody _ k | AwaitIO k => hands_over k
  | Call _ _ Return => True
  | _ => False
  end.

(** The steps hand the request over, whatever body the steps before
    them have set. *)
Definition steps_hand_over (raw : IncomingMessage) (steps : list Middleware)
    : Prop :=
  ∀ mw body,
    mw ∈ steps →
    hands_over (mw (RequestContext.set_body body (requestContext raw))).

(** The steps are synchronous, whatever body the steps before them
    have set. *)
Definition steps_synchronous (raw : IncomingMessage) (steps : list Middleware)
    : Prop :=
  ∀ mw body,
    mw ∈ steps →
    synchronous (mw (RequestContext.set_body body (requestContext raw))).

(** No step leaves work behind: a step waits for its [next()]
    ([await next()] or [return next()]), or else all steps after it
    are synchronous. *)
Definition steps_in_order (raw : IncomingMessage) (steps : list Middleware)
    : Prop :=
  ∀ i mw body,
    steps !! i = Some mw →
    awaits_next (mw (RequestContext.set_body body (requestContext raw)))
    ∨ steps_synchronous raw (drop (S i) steps).

(** Where the chain of a request comes to its end: at the step of
    index [k], which does not call [next()], or at the fallback of the
    dispatcher behind the last step. *)
Inductive End : Type :=
  | AtStep (k : nat)
  | AtFallback.

(** The steps in front of the end, and the steps that run. *)
Definition in_front (app : Bonfire) (e : End) : list Middleware :=
  match e with
  | AtStep k => take k (middlewares app)
  | AtFallback => middlewares app
  end.

Definition running (app : Bonfire) (e : End) : list Middleware :=
  match e with
  | AtStep k => take (S k) (middlewares app)
  | AtFallback => middlewares app
  end.

(** The end has been reached: step [k] has returned, or the fallback
    has been written. *)
Definition ended (e : End) (events : list Event) : Prop :=
  match e with
  | AtStep k => ∃ rc, Leave (Step k) rc ∈ events
  | AtFallback => NotFound ∈ events
  end.

(** The Response Context is as the end of the chain has left it. *)
Definition answered (e : End) (st : State) : Prop :=
  match e with
  | AtStep k => ∀ rc, Leave (Step k) rc ∈ log st → res st = rc
  | AtFallback =>
      NotFound ∈ log st →
      statusCode (res st) = 404%Z ∧ responseBody (res st) = Some "Not Found"
  end.

(** Step [k] has called [next()] after all. *)
Definition escapes (e : End) (events : list Event) : Prop :=
  match e with
  | AtStep k => CallNext (Step k) ∈ events
  | AtFallback => False
  end.

(** The fallback is not overtaken by a handler. *)
Definition unhandled (e : End) (events : list Event) : Prop :=
  match e with
  | AtStep _ => True
  | AtFallback => Enter RouteHandler ∉ events
  end.

(** The Request Context is the one of the request, with the body that
    the steps have set. *)
Definition of_request (raw : IncomingMessage) (st : State) : Prop :=
  ∃ body, req st = RequestContext.set_body body (requestContext raw).

(** The chain is under way: the end is not reached and no promise has
    been dropped. *)
Definition under_way (raw : IncomingMessage) (e : End) (st : State) : Prop :=
  pending st = []
  ∧ ¬ ended e (log st)
  ∧ of_request raw st
  ∧ unhandled e (log st).

(** A suspended step in front of the end that waits for its [next()]
    and has nothing left to do. *)
Definition behind (app : Bonfire) (e : End) (f : Frame) : Prop :=
  ∃ index,
    (index < length (in_front app e))%nat ∧ f = StepFrame index None Return.

(** The suspended step that the chain waits for: a step in front of
    the end with the rest of its body, or the step at the end. *)
Definition ahead (app : Bonfire) (raw : IncomingMessage) (e : End)
    (f : Frame) : Prop :=
  match f with
  | StepFrame index _ p =>
      ((index < length (in_front app e))%nat
       ∧ hands_over p
       ∧ (steps_in_order raw (running app e) →
          awaits_next p
          ∨ steps_synchronous raw (drop (S index) (running app e))))
      ∨ e = AtStep index
  | HandlerFrame _ _ => False
  end.

Definition live (app : Bonfire) (raw : IncomingMessage) (e : End)
    (stack : Stack) : Prop :=
  match stack with
  | [] => False
  | f :: tail => ahead app raw e f ∧ Forall (behind app e) tail
  end.

(** How a chain whose steps hand the request over stands when control
    is back at the event loop: completed, with the Response Context as
    the end has left it; or suspended in one stack of awaits, the end
    not reached; or stuck before the end. *)
Definition on_course (app : Bonfire) (raw : IncomingMessage) (e : End)
    (st : State) (r : Status) : Prop :=
  unhandled e (log st)
  ∧ match r with
    | Completed =>
        answered e st
        ∧ (steps_in_order raw (running app e) → ended e (log st))
    | Suspended stack =>
        pending st = []
        ∧ ¬ ended e (log st)
        ∧ of_request raw st
        ∧ live app raw e stack
    | Stuck => ¬ ended e (log st)
    end.

(** ** The headers as they are sent *)

(** The header key that a call on the Response Context writes. *)
Definition header_key (op : ResponseContext.Op) : option string :=
  match op with
  | ResponseContext.SetHeader key _ => Some key
  | ResponseContext.Json _ | ResponseContext.Render _ _ => Some "Content-Type"
  | ResponseContext.Status _ | ResponseContext.Send _ => None
  end.

(** ** Setting an application up *)

(** A call on the application object before [listen]: [use], or one of
    the seven route methods. *)
Inductive Setup : Type :=
  | Use (mw : Middleware)
  | Route (r : Registration Handler).

Definition setup (app : Bonfire) (call : Setup) : Bonfire :=
  match call with
  | Use mw => App.use mw app
  | Route r =>
      match reg_verb r with
      | GET => App.get (reg_pattern r) (reg_handler r) app
      | POST => App.post (reg_pattern r) (reg_handler r) app
      | PUT => App.put (reg_pattern r) (reg_handler r) app
      | DELETE => App.delete (reg_pattern r) (reg_handler r) app
      | PATCH => App.patch (reg_pattern r) (reg_handler r) app
      | HEAD => App.head (reg_pattern r) (reg_handler r) app
      | OPTIONS => App.options (reg_pattern r) (reg_handler r) app
      end
  end.

(** The application after a sequence of chained calls on
    [new Bonfire(viewsDir, templateEngine)]. *)
Definition configure (viewsDir : string) (templateEngine : TemplateEngine)
    (calls : list Setup) : Bonfire :=
  foldl setup (App.new viewsDir templateEngine) calls.

Definition used (calls : list Setup) : list Middleware :=
  omap (fun call => match call with Use mw => Some mw | Route _ => None end)
       calls.

Definition routed (calls : list Setup) : list (Registration Handler) :=
  omap (fun call => match call with Route r => Some r | Use _ => None end)
       calls.

(** ** A reference platform and a site of static files *)

Module Site.

(** [path.join] on a directory and a request path. *)
Definition join (a b : string) : string := Reference.join_path a b.

Definition runtime : Runtime :=
  {| JSON_stringify := Reference.stringify;
     JSON_parse := Reference.parse;
     path_join := join |}.

(** The text from the last dot on, if there is a dot. *)
Fixpoint from_last_dot (s : string) : option string :=
  match s with
  | EmptyString => None
  | String c s' =>
      match from_last_dot s' with
      | Some ext => Some ext
      | None => if Ascii.eqb c "."%char then Some s else None
      end
  end.

(** [path.extname] on the last segment of a path; a dot in front of
    the name does not start an extension. *)
Definition extname (p : string) : string :=
  match default "" (last (JS.split p)) with
  | EmptyString => ""
  | String _ rest => default "" (from_last_dot rest)
  end.

Definition lower (c : ascii) : ascii :=
  let n := nat_of_ascii c in
  if (65 <=? n)%nat && (n <=? 90)%nat then ascii_of_nat (n + 32) else c.

Fixpoint lowercase (s : string) : string :=
  match s with
  | EmptyString => EmptyString
  | String c s' => String (lower c) (lowercase s')
  end.

(** A directory [public] that holds [index.html], [LOGO.PNG],
    [notes] (no extension), [locked.css] that cannot be read, and a
    subdirectory [assets]. *)
Definition disk : FileSystem :=
  {| fs_stat := fun p =>
       if String.eqb p "public/index.html" then Some true
       else if String.eqb p "public/LOGO.PNG" then Some true
       else if String.eqb p "public/notes" then Some true
       else if String.eqb p "public/locked.css" then Some true
       else if String.eqb p "public/assets" then Some false
       else None;
     fs_readFile := fun p =>
       if String.eqb p "public/index.html" then Some "<h1>Home</h1>"
       else if String.eqb p "public/LOGO.PNG" then Some "PNG"
       else if String.eqb p "public/notes" then Some "to do"
       else None;
     path_extname := extname;
     toLowerCase := lowercase |}.

Definition files : Middleware :=
  @staticMiddleware runtime disk "public".

(** [async (req, res, next) => { await next(); }] *)
Definition patient : Middleware := fun _ => Call tt true Return.

(** [app.use(staticMiddleware("public")); app.get("/", ...);
    app.get("/assets", ...)] *)
Definition static_app : Bonfire :=
  App.get "/assets" Example.ok
    (App.get "/" Example.hello
       (App.use files (App.new "views" Example.read_views))).

(** [src/index.ts] with [app.use(staticMiddleware("public"))] after
    its logger. *)
Definition logged_static_app : Bonfire := App.use files Example.index_app.

(** [jsonMiddleware], then [staticMiddleware], in front of a handler
    that renders. *)
Definition page_app : Bonfire :=
  App.post "/" Example.home_page
    (App.get "/" Example.home_page
       (App.use files
          (App.use (@jsonMiddleware runtime)
             (App.new "views" Example.read_views)))).

(** [staticMiddleware] in front of a handler that renders. *)
Definition static_page_app : Bonfire :=
  App.get "/" Example.home_page
    (App.use files (App.new "views" Example.read_views)).

(** A step that waits for [next()] in front of a handler that
    renders. *)
Definition patient_app : Bonfire :=
  App.get "/" Example.home_page
    (App.use patient (App.new "views" Example.read_views)).

(** A step that waits for [next()] in front of [staticMiddleware]. *)
Definition patient_static_app : Bonfire :=
  App.use files (App.use patient (App.new "views" Example.read_views)).

(** The routes of [src/index.ts], in the order of their registration. *)
Definition routes : list (Registration Handler) :=
  [MkRegistration GET "/" Example.hello;
   MkRegistration GET "/users/:id" Example.show_user;
   MkRegistration POST "/users" Example.create_user].

(** A step that sets a header and passes the request on, in front of
    a handler that sends [ok]. *)
Definition tagged_ok_app : Bonfire :=
  App.get "/" Example.ok
    (App.use Example.tag (App.new "views" Example.read_views)).

End Site.

(** What [src/index.ts] answers, request by request. *)
Definition index_answer `{Runtime} (raw : IncomingMessage) : ServerResponse :=
  let method := JS.or_else (im_method raw) "GET" in
  let url := JS.or_else (im_url raw) "/" in
  let json status data :=
    {| sent_headers := [("Content-Type", "application/json")];
       sent_status := status;
       sent_body := JSON_stringify data |} in
  if String.eqb method "GET" && String.eqb url "/" then
    json 200%Z (JObj [("message", JStr "Hello World")])
  else if String.eqb method "GET" && MatchSpec.accepts "/users/:id" url then
    json 200%Z (JObj [("userId", JStr (JS.at_ (JS.split url) 2))])
  else if String.eqb method "POST" && String.eqb url "/users" then
    json 201%Z (JObj [("created", JNull)])
  else
    {| sent_headers := []; sent_status := 404;
       sent_body := Some "Not Found" |}.


(* ================================================================== *)
(** * Part II. Properties                                              *)
(* ================================================================== *)

(** ** [JSMap] *)

Section JSMapFacts.

Context {V : Type}.
Implicit Types (m : JSMap V) (k : string) (v : V).

Lemma jsmap_get_set_eq k v m : JSMap.get k (JSMap.set k v m) = Some v.
Proof.
  induction m as [|[k' v'] m IH]; simpl.
  - by rewrite String.eqb_refl.
  - destruct (String.eqb_spec k' k) as [->|Hne]; simpl.
    + by rewrite String.eqb_refl.
    + by destruct (String.eqb_spec k' k).
Qed.

Lemma jsmap_get_set_ne k k' v m :
  k ≠ k' → JSMap.get k' (JSMap.set k v m) = JSMap.get k' m.
Proof.
  intros Hne. induction m as [|[k0 v0] m IH]; simpl.
  - by destruct (String.eqb_spec k k').
  - destruct (String.eqb_spec k0 k) as [->|Hk0]; simpl.
    + by destruct (String.eqb_spec k k').
    + by rewrite IH.
Qed.

Lemma jsmap_keys_set k v m :
  (JSMap.set k v m).*1 = if bool_decide (k ∈ m.*1) then m.*1 else m.*1 ++ [k].
Proof.
  induction m as [|[k0 v0] m IH]; [done|].
  cbn [JSMap.set]. destruct (String.eqb_spec k0 k) as [->|Hk0];
    rewrite !fmap_cons; cbn [fst].
  - rewrite bool_decide_eq_true_2; [done | constructor].
  - rewrite IH. destruct (bool_decide_reflect (k ∈ m.*1)) as [Hin|Hin].
    + rewrite bool_decide_eq_true_2; [done | apply elem_of_cons; by right].
    + rewrite bool_decide_eq_false_2; [done|].
      rewrite elem_of_cons. by intros [?|?]; [apply Hk0|apply Hin].
Qed.

(** [set] twice on one key is [set] once, with the last value. *)
Lemma jsmap_set_set k v1 v2 m :
  JSMap.set k v2 (JSMap.set k v1 m) = JSMap.set k v2 m.
Proof.
  induction m as [|[k0 v0] m IH]; simpl.
  - by rewrite String.eqb_refl.
  - destruct (String.eqb_spec k0 k) as [->|Hk0]; simpl.
    + by rewrite String.eqb_refl.
    + destruct (String.eqb_spec k0 k); [done|]. by rewrite IH.
Qed.

(** The first entry whose key satisfies [P] is what [get] returns for
    that key. *)
Lemma jsmap_find_get (P : string → Prop) `{!∀ k, Decision (P k)} m i k v :
  list_find (P ∘ fst) m = Some (i, (k, v)) → JSMap.get k m = Some v.
Proof.
  revert i. induction m as [|[k0 v0] m IH]; intros i; simpl; [done|].
  case_decide as HP; simpl in HP.
  - intros [= _ -> ->]. by rewrite String.eqb_refl.
  - destruct (list_find (P ∘ fst) m) as [[j [k1 v1]]|] eqn:Hfind;
      simpl; [|done].
    intros [= _ -> ->]. destruct (String.eqb_spec k0 k) as [->|_].
    + destruct (list_find_Some (P ∘ fst) m j (k, v)) as [(_ & Hk & _) _];
        [done|]. by destruct HP.
    + by eapply IH.
Qed.

End JSMapFacts.

(** ** The route table *)

Section RouterFacts.

Context {Handler : Type}.
Implicit Types (regs : list (Registration Handler)) (h : Handler).
Implicit Types (method url pattern : string).

Lemma split_nonempty s : JS.split s ≠ [].
Proof. destruct s as [|c s]; simpl; [done|]. by repeat case_match. Qed.

(** *** The segments, marks and names of the specification are those
    of [split("/")], [startsWith(":")] and [slice(1)] *)

Lemma append_empty s : s +:+ "" = s.
Proof.
  induction s as [|c s IH]; [done|].
  change (String c (s +:+ "") = String c s). by f_equal.
Qed.

Lemma append_char s c t : (s +:+ String c "") +:+ t = s +:+ String c t.
Proof.
  induction s as [|a s IH]; [done|].
  change (String a ((s +:+ String c "") +:+ t) = String a (s +:+ String c t)).
  by f_equal.
Qed.

Lemma segments_from_split current s :
  MatchSpec.segments_from current s
  = match JS.split s with
    | seg :: segs => (current +:+ seg) :: segs
    | [] => [current]
    end.
Proof.
  revert current. induction s as [|c s IH]; intros current; simpl.
  - by rewrite append_empty.
  - destruct (Ascii.eqb_spec c "/") as [->|Hc].
    + rewrite decide_True by done. rewrite IH, append_empty.
      destruct (JS.split s) eqn:Hs; [by apply split_nonempty in Hs|done].
    + rewrite decide_False by done. rewrite IH.
      destruct (JS.split s) as [|seg segs] eqn:Hs;
        [by apply split_nonempty in Hs|].
      by rewrite append_char.
Qed.

Lemma segments_split s : MatchSpec.segments s = JS.split s.
Proof.
  unfold MatchSpec.segments. rewrite segments_from_split.
  destruct (JS.split s) eqn:Hs; [by apply split_nonempty in Hs|done].
Qed.

Lemma is_parameter_colon seg :
  MatchSpec.is_parameter seg = JS.startsWith_colon seg.
Proof.
  destruct seg as [|c seg]; [done|]. unfold MatchSpec.is_parameter.
  cbn [String.prefix JS.startsWith_colon].
  destruct (ascii_dec ":" c) as [<-|Hc].
  - by destruct seg.
  - destruct (Ascii.eqb_spec c ":"); [by subst|done].
Qed.

Lemma substring_all s : String.substring 0 (String.length s) s = s.
Proof. induction s as [|c s IH]; simpl; [done|by rewrite IH]. Qed.

Lemma parameter_name_slice seg :
  MatchSpec.parameter_name seg = JS.slice1 seg.
Proof.
  destruct seg as [|c seg]; [done|]. unfold MatchSpec.parameter_name.
  cbn [String.length JS.slice1]. rewrite Nat.sub_1_r. cbn [Nat.pred].
  cbn [String.substring]. apply substring_all.
Qed.

Lemma accepts_split pattern path :
  MatchSpec.accepts pattern path
  = Nat.eqb (length (JS.split pattern)) (length (JS.split path))
    && forallb (fun sv => MatchSpec.segment_matches sv.1 sv.2)
         (zip (JS.split pattern) (JS.split path)).
Proof. unfold MatchSpec.accepts. by rewrite !segments_split. Qed.

Lemma bindings_split pattern path :
  MatchSpec.bindings pattern path
  = MatchSpec.bindings_of (JS.split pattern) (JS.split path).
Proof. unfold MatchSpec.bindings. by rewrite !segments_split. Qed.

(** *** The object that [match] fills *)

Lemma own_empty : delete "__proto__" (∅ : Params) = ∅.
Proof. apply delete_empty. Qed.

(** An assignment on the object writes the binding of the
    specification, the property [__proto__] apart. *)
Lemma assign_bind (ps : Params) (sv : string * string) :
  MatchSpec.is_parameter sv.1 = true →
  JS.assign (JS.slice1 sv.1) sv.2 (delete "__proto__" ps)
  = delete "__proto__" (MatchSpec.bind ps sv).
Proof.
  intros Hparam. unfold MatchSpec.bind, JS.assign. rewrite Hparam.
  rewrite parameter_name_slice.
  destruct (String.eqb_spec (JS.slice1 sv.1) "__proto__") as [->|Hname].
  - symmetry. apply delete_insert_eq.
  - symmetry. by apply delete_insert_ne.
Qed.

(** The inner loop, from position [i] on, is the pairwise walk over
    the remaining segments, on an object that never gets the property
    [__proto__]. *)
Lemma match_loop_spec (routeParts urlParts : list string) n i (ps : Params) :
  length routeParts = length urlParts →
  i + n = length routeParts →
  let rest := zip (drop i routeParts) (drop i urlParts) in
  if forallb (fun sv => MatchSpec.segment_matches sv.1 sv.2) rest
  then Router.match_loop routeParts urlParts n i (delete "__proto__" ps)
       = (true, delete "__proto__" (foldl MatchSpec.bind ps rest))
  else (Router.match_loop routeParts urlParts n i (delete "__proto__" ps)).1
       = false.
Proof.
  intros Hlen. revert i ps. induction n as [|n IH]; intros i ps Hi; simpl.
  - rewrite !drop_ge by lia. done.
  - destruct (lookup_lt_is_Some_2 routeParts i) as [a Ha]; [lia|].
    destruct (lookup_lt_is_Some_2 urlParts i) as [b Hb]; [lia|].
    rewrite (drop_S _ _ _ Ha), (drop_S _ _ _ Hb). simpl.
    unfold JS.at_. rewrite Ha, Hb. simpl.
    unfold MatchSpec.segment_matches.
    specialize (IH (S i)). simpl in IH.
    pose proof (is_parameter_colon a) as Hmark.
    destruct (JS.startsWith_colon a) eqn:Hcolon; rewrite Hmark; simpl.
    + pose proof (assign_bind ps (a, b)) as Hassign.
      cbn [fst snd] in Hassign. rewrite Hassign by done.
      apply IH. lia.
    + destruct (String.eqb a b) eqn:Hab; simpl; [|done].
      specialize (IH ps ltac:(lia)).
      unfold MatchSpec.bind at 2. simpl. rewrite Hmark. apply IH.
Qed.

(** The outer loop returns the first entry whose pattern accepts the
    path, with the bindings of that pattern that the object keeps. *)
Lemma find_route_spec (methodRoutes : JSMap Handler) url :
  Router.find_route methodRoutes url =
  match list_find (fun e => MatchSpec.accepts e.1 url = true) methodRoutes with
  | Some (_, (pattern, h)) =>
      Some (pattern, h, delete "__proto__" (MatchSpec.bindings pattern url))
  | None => None
  end.
Proof.
  induction methodRoutes as [|[pattern h] rest IH]; simpl; [done|].
  pose proof (accepts_split pattern url) as Hacc.
  destruct (Nat.eqb_spec (length (JS.split pattern)) (length (JS.split url)))
    as [Hlen|Hlen]; simpl in *.
  - pose proof (match_loop_spec (JS.split pattern) (JS.split url)
                  (length (JS.split pattern)) 0 ∅ Hlen eq_refl) as Hloop.
    simpl in Hloop. rewrite !drop_0 in Hloop. rewrite <- Hacc in Hloop.
    rewrite own_empty in Hloop.
    destruct (MatchSpec.accepts pattern url) eqn:Hall.
    + rewrite Hloop, decide_True by done. by rewrite bindings_split.
    + destruct (Router.match_loop _ _ _ _ _) as [ok ps]. simpl in Hloop.
      subst ok. rewrite decide_False by done. rewrite IH.
      by destruct (list_find _ rest) as [[? [? ?]]|].
  - rewrite decide_False by (by rewrite Hacc). rewrite IH.
    by destruct (list_find _ rest) as [[? [? ?]]|].
Qed.

Lemma verb_name_methods (v : Verb) : verb_name v ∈ @Router.methods.
Proof. destruct v; unfold Router.methods; set_solver. Qed.

Lemma new_get method :
  JSMap.get method (@Router.new Handler) =
  if bool_decide (method ∈ @Router.methods) then Some [] else None.
Proof.
  assert (@Router.new Handler =
          (fun m => (m, JSMap.empty)) <$> Router.methods) as -> by done.
  unfold Router.methods. rewrite !fmap_cons, fmap_nil. cbn [JSMap.get].
  repeat match goal with
    | |- context [String.eqb ?a method] =>
        destruct (String.eqb_spec a method) as [<-|?];
        [by rewrite bool_decide_eq_true_2 by (rewrite !elem_of_cons; auto 10)|]
    end.
  rewrite bool_decide_eq_false_2; [done|].
  rewrite !elem_of_cons, elem_of_nil. intuition congruence.
Qed.

Lemma add_register (r : Registration Handler) routes :
  RouteTable.add r routes =
  Router.register (verb_name (reg_verb r)) (reg_pattern r) (reg_handler r)
    routes.
Proof. unfold RouteTable.add. by destruct (reg_verb r). Qed.

Lemma build_snoc regs (r : Registration Handler) :
  RouteTable.build (regs ++ [r]) = RouteTable.add r (RouteTable.build regs).
Proof. unfold RouteTable.build. by rewrite foldl_app. Qed.

Lemma registered_snoc regs (r : Registration Handler) method :
  MatchSpec.registered (regs ++ [r]) method =
  if decide (verb_name (reg_verb r) = method)
  then MatchSpec.registered regs method ++ [r]
  else MatchSpec.registered regs method.
Proof.
  unfold MatchSpec.registered. rewrite filter_app.
  case_decide.
  - by rewrite filter_cons_True.
  - rewrite filter_cons_False by done. apply app_nil_r.
Qed.

Lemma handler_of_snoc regs (r : Registration Handler) method pattern :
  MatchSpec.handler_of (regs ++ [r]) method pattern =
  if decide (verb_name (reg_verb r) = method ∧ reg_pattern r = pattern)
  then Some (reg_handler r)
  else MatchSpec.handler_of regs method pattern.
Proof.
  unfold MatchSpec.handler_of. rewrite registered_snoc.
  destruct (decide (verb_name (reg_verb r) = method)) as [Hv|Hv].
  - rewrite filter_app.
    destruct (decide (reg_pattern r = pattern)) as [Hp|Hp].
    + rewrite filter_cons_True, filter_nil by done.
      rewrite decide_True by done. by rewrite last_snoc.
    + rewrite filter_cons_False, filter_nil by done.
      rewrite decide_False by tauto. by rewrite app_nil_r.
  - by rewrite decide_False by tauto.
Qed.

(** The table kept for a method lists the patterns registered for it
    in registration order, each with the handler of its last
    registration; only the seven supported methods have a table. *)
Lemma build_get regs method :
  match JSMap.get method (RouteTable.build regs) with
  | Some methodRoutes =>
      method ∈ @Router.methods
      ∧ methodRoutes.*1 = MatchSpec.registration_order regs method
      ∧ ∀ pattern,
          JSMap.get pattern methodRoutes
          = MatchSpec.handler_of regs method pattern
  | None => method ∉ @Router.methods
  end.
Proof.
  revert method. induction regs as [|r regs IH] using rev_ind; intros method.
  - change (RouteTable.build []) with (@Router.new Handler).
    rewrite new_get. case_bool_decide; [|done]. by split_and!.
  - rewrite build_snoc, add_register. unfold Router.register.
    pose proof (verb_name_methods (reg_verb r)) as Hverb.
    destruct (JSMap.get (verb_name (reg_verb r)) (RouteTable.build regs))
      as [verbRoutes|] eqn:Hget.
    2:{ specialize (IH (verb_name (reg_verb r))) as IHv.
        rewrite Hget in IHv. done. }
    destruct (decide (verb_name (reg_verb r) = method)) as [Hv|Hv].
    + subst method. rewrite jsmap_get_set_eq.
      specialize (IH (verb_name (reg_verb r))). rewrite Hget in IH.
      destruct IH as (_ & Hkeys & Hhandlers). split_and!; [done| |].
      * rewrite jsmap_keys_set, Hkeys.
        unfold MatchSpec.registration_order. rewrite registered_snoc.
        rewrite decide_True by done. rewrite fmap_app.
        unfold MatchSpec.distinct. by rewrite foldl_app.
      * intros pattern. rewrite handler_of_snoc.
        destruct (decide (reg_pattern r = pattern)) as [<-|Hp].
        -- rewrite decide_True by done. apply jsmap_get_set_eq.
        -- rewrite decide_False by tauto.
           rewrite jsmap_get_set_ne by done. apply Hhandlers.
    + rewrite jsmap_get_set_ne by done. specialize (IH method).
      destruct (JSMap.get method (RouteTable.build regs)); [|done].
      destruct IH as (? & Hkeys & Hhandlers). split_and!; [done| |].
      * rewrite Hkeys. unfold MatchSpec.registration_order.
        rewrite registered_snoc. by rewrite decide_False.
      * intros pattern. rewrite handler_of_snoc.
        rewrite decide_False by tauto. apply Hhandlers.
Qed.

Lemma registered_unsupported regs method :
  method ∉ @Router.methods → MatchSpec.registered regs method = [].
Proof.
  intros Hm. induction regs as [|r regs IH]; [done|].
  unfold MatchSpec.registered. rewrite filter_cons_False; [done|].
  intros <-. apply Hm, verb_name_methods.
Qed.

(** [Router.match] is the specification's [match], with the bindings
    that the object keeps. *)
Lemma match_refines regs method url :
  Router.match_ (RouteTable.build regs) method url
  = {| Router.handler := Router.handler (MatchSpec.match_ regs method url);
       Router.params :=
         delete "__proto__" (Router.params (MatchSpec.match_ regs method url)) |}
  ∧ Router.selected (RouteTable.build regs) method url
    = MatchSpec.selected regs method url.
Proof.
  unfold Router.match_, Router.selected, MatchSpec.match_, MatchSpec.selected.
  pose proof (build_get regs method) as Hget.
  destruct (JSMap.get method (RouteTable.build regs)) as [methodRoutes|].
  - destruct Hget as (_ & Hkeys & Hhandlers).
    rewrite find_route_spec, <- Hkeys, list_find_fmap.
    destruct (list_find _ methodRoutes) as [[i [pattern h]]|] eqn:Hfind;
      simpl; [|by rewrite own_empty].
    rewrite <- Hhandlers.
    by rewrite (jsmap_find_get (fun p => MatchSpec.accepts p url = true)
                  _ _ _ _ Hfind).
  - unfold MatchSpec.registration_order.
    rewrite registered_unsupported by done. simpl. by rewrite own_empty.
Qed.

(** The handler that [match] returns is the one of the specification. *)
Lemma match_handler regs method url :
  Router.handler (Router.match_ (RouteTable.build regs) method url)
  = Router.handler (MatchSpec.match_ regs method url).
Proof. by destruct (match_refines regs method url) as [-> _]. Qed.

(** The parameters that [match] returns are the bindings of the
    specification, the property [__proto__] apart. *)
Lemma match_params regs method url :
  Router.params (Router.match_ (RouteTable.build regs) method url)
  = delete "__proto__" (Router.params (MatchSpec.match_ regs method url)).
Proof. by destruct (match_refines regs method url) as [-> _]. Qed.

(** *** Registration order *)

Lemma see_all (l seen : list string) :
  ∃ extra, foldl MatchSpec.see seen l = seen ++ extra
           ∧ (∀ x, x ∈ extra → x ∈ l)
           ∧ (∀ x, x ∈ l → x ∈ seen ++ extra).
Proof.
  revert seen. induction l as [|y l IH]; intros seen; simpl.
  - exists []. rewrite app_nil_r. split_and!; [done|done|].
    intros x Hx. by apply elem_of_nil in Hx.
  - destruct (IH (MatchSpec.see seen y)) as (extra & -> & Hsub & Hall).
    unfold MatchSpec.see in *. case_bool_decide as Hy.
    + exists extra. split_and!; [done| |].
      * intros x Hx. apply elem_of_cons. right. by apply Hsub.
      * intros x [->|Hx]%elem_of_cons; [|by apply Hall].
        apply elem_of_app. by left.
    + exists (y :: extra). rewrite <- app_assoc. split_and!; [done| |].
      * intros x [->|Hx]%elem_of_cons; apply elem_of_cons; [by left|].
        right. by apply Hsub.
      * intros x [->|Hx]%elem_of_cons.
        -- apply elem_of_app. right. by apply elem_of_cons; left.
        -- specialize (Hall x Hx). by rewrite <- app_assoc in Hall.
Qed.

Lemma elem_of_distinct (l : list string) x : x ∈ MatchSpec.distinct l ↔ x ∈ l.
Proof.
  unfold MatchSpec.distinct.
  destruct (see_all l []) as (extra & Heq & Hsub & Hall).
  rewrite Heq. simpl.
  split; [apply Hsub | apply Hall].
Qed.

Lemma elem_of_registration_order regs method pattern :
  pattern ∈ MatchSpec.registration_order regs method
  ↔ ∃ r, r ∈ regs ∧ verb_name (reg_verb r) = method
         ∧ reg_pattern r = pattern.
Proof.
  unfold MatchSpec.registration_order, MatchSpec.registered.
  rewrite elem_of_distinct, list_elem_of_fmap. split.
  - intros (r & -> & [Hv Hr]%list_elem_of_filter). by exists r.
  - intros (r & Hr & Hv & <-). exists r. split; [done|].
    by apply list_elem_of_filter.
Qed.

(** A pattern that is selected has a handler: that of its last
    registration. *)
Lemma selected_has_handler regs method url pattern :
  MatchSpec.selected regs method url = Some pattern →
  MatchSpec.accepts pattern url = true
  ∧ ∃ r, r ∈ regs ∧ verb_name (reg_verb r) = method
         ∧ reg_pattern r = pattern
         ∧ MatchSpec.handler_of regs method pattern = Some (reg_handler r).
Proof.
  unfold MatchSpec.selected.
  destruct (list_find _ _) as [[i p]|] eqn:Hfind; simpl; [|done].
  intros [= ->]. apply list_find_Some in Hfind as (Hi & Hacc & _).
  split; [done|]. unfold MatchSpec.handler_of.
  apply list_elem_of_lookup_2, elem_of_registration_order in Hi
    as (r & Hr & Hv & Hp).
  destruct (last (filter (fun r => reg_pattern r = pattern)
                    (MatchSpec.registered regs method))) as [r'|] eqn:Hlast.
  - exists r'. apply last_Some_elem_of in Hlast.
    apply list_elem_of_filter in Hlast as [Hp' Hlast].
    apply list_elem_of_filter in Hlast as [Hv' Hlast]. by split_and!.
  - apply last_None in Hlast.
    assert (r ∈ filter (fun r => reg_pattern r = pattern)
                  (MatchSpec.registered regs method)) as Hin.
    { apply list_elem_of_filter. split; [done|].
      by apply list_elem_of_filter. }
    rewrite Hlast in Hin. by apply elem_of_nil in Hin.
Qed.

(** There is a match exactly when some pattern registered for the
    method accepts the path. *)
Lemma selected_is_Some regs method url :
  is_Some (MatchSpec.selected regs method url)
  ↔ ∃ r, r ∈ regs ∧ verb_name (reg_verb r) = method
         ∧ MatchSpec.accepts (reg_pattern r) url = true.
Proof.
  split.
  - intros [pattern Hsel].
    apply selected_has_handler in Hsel as (Hacc & r & Hr & Hv & <- & _).
    by exists r.
  - intros (r & Hr & Hv & Hacc). unfold MatchSpec.selected.
    destruct (list_find_elem_of
                (fun pattern => MatchSpec.accepts pattern url = true)
                (MatchSpec.registration_order regs method)
                (reg_pattern r)) as [[i p] ->]; [|done|by eexists].
    apply elem_of_registration_order. by exists r.
Qed.

(** Of a registration [r1] whose pattern accepts the path and a
    pattern [p2] not registered before it, [p2] is never the one
    selected; [r1]'s pattern is, when nothing before it accepts. *)
Lemma earlier_registration_shadows regs method url before r1 after p2 :
  regs = before ++ r1 :: after →
  verb_name (reg_verb r1) = method →
  MatchSpec.accepts (reg_pattern r1) url = true →
  reg_pattern r1 ≠ p2 →
  (∀ r, r ∈ before → verb_name (reg_verb r) = method → reg_pattern r ≠ p2) →
  MatchSpec.selected regs method url ≠ Some p2
  ∧ ((∀ r, r ∈ before → verb_name (reg_verb r) = method →
           MatchSpec.accepts (reg_pattern r) url = false) →
     MatchSpec.selected regs method url = Some (reg_pattern r1)).
Proof.
  intros -> Hv Hacc Hne Hbefore.
  unfold MatchSpec.selected, MatchSpec.registration_order.
  unfold MatchSpec.registered. rewrite filter_app, filter_cons_True by done.
  rewrite fmap_app, fmap_cons. unfold MatchSpec.distinct.
  rewrite foldl_app. cbn [foldl].
  set (L1 := reg_pattern <$> filter _ before).
  fold (MatchSpec.distinct L1).
  set (D' := MatchSpec.see (MatchSpec.distinct L1) (reg_pattern r1)).
  destruct (see_all (reg_pattern <$> filter
                       (fun r => verb_name (reg_verb r) = method) after) D')
    as (extra & Heq & _).
  rewrite Heq. clear Heq.
  assert (∀ x, x ∈ MatchSpec.distinct L1 →
               ∃ r, r ∈ before ∧ verb_name (reg_verb r) = method
                    ∧ reg_pattern r = x) as HL1.
  { intros x Hx. rewrite elem_of_distinct in Hx. unfold L1 in Hx.
    apply list_elem_of_fmap in Hx as (r & -> & [? ?]%list_elem_of_filter).
    by exists r. }
  assert (∀ x, x ∈ D' → x ∈ MatchSpec.distinct L1 ∨ x = reg_pattern r1)
    as HD'.
  { intros x. unfold D', MatchSpec.see. case_bool_decide; [by left|].
    rewrite elem_of_app, elem_of_cons, elem_of_nil. tauto. }
  assert (reg_pattern r1 ∈ D') as Hin.
  { unfold D', MatchSpec.see. case_bool_decide; [done|].
    apply elem_of_app. right. by apply elem_of_cons; left. }
  destruct (list_find_elem_of
              (fun pattern => MatchSpec.accepts pattern url = true)
              D' (reg_pattern r1) Hin Hacc) as [[i p] Hfind].
  rewrite (proj2 (list_find_app_Some _ D' extra i p) (or_introl Hfind)).
  simpl. apply list_find_Some in Hfind as (Hi & Hp & Hmin).
  apply list_elem_of_lookup_2, HD' in Hi. split.
  - intros [= ->]. destruct Hi as [Hp2|Hp2]; [|done].
    destruct (HL1 _ Hp2) as (r & Hr & Hrv & Hrp). by eapply Hbefore.
  - intros Hnone. f_equal. destruct Hi as [Hp1|Hp1]; [|done].
    destruct (HL1 _ Hp1) as (r & Hr & Hrv & <-).
    specialize (Hnone r Hr Hrv). congruence.
Qed.

Lemma match_is_Some regs method url :
  is_Some (Router.handler (MatchSpec.match_ regs method url))
  ↔ ∃ r, r ∈ regs ∧ verb_name (reg_verb r) = method
         ∧ MatchSpec.accepts (reg_pattern r) url = true.
Proof.
  rewrite <- selected_is_Some. unfold MatchSpec.match_.
  destruct (MatchSpec.selected regs method url) as [pattern|] eqn:Hs; simpl.
  - apply selected_has_handler in Hs as (_ & r & _ & _ & _ & ->).
    split; by eexists.
  - split; intros [? ?]; done.
Qed.

(** C1, on the code. For every route table built by a sequence of
    registrations and every request ([method], [url]), [Router.match]
    follows the match of the specification: the path is split at [/];
    the patterns registered for the method are tried in registration
    order; a pattern with another number of segments is skipped; the
    first pattern whose literal segments equal the path's is selected
    and its handler returned, and there is no match when no registered
    pattern accepts the path; a pattern that accepts the path shadows
    every pattern registered after it. The bindings it returns are
    those of the specification with one exception: a parameter
    segment [:__proto__] binds nothing, because the assignment on the
    object [{}] does not create that property. With the pattern
    [/:__proto__] registered, [GET /x] is answered with the handler
    and no binding, where the specification binds [__proto__] to
    [x]. *)
Theorem match_first_registered_pattern regs method url :
  let found := Router.match_ (RouteTable.build regs) method url in
  let specified := MatchSpec.match_ regs method url in
  (Router.handler found = Router.handler specified
   ∧ Router.selected (RouteTable.build regs) method url
     = MatchSpec.selected regs method url
   ∧ Router.params found = delete "__proto__" (Router.params specified)
   ∧ (Router.params specified !! "__proto__" = None → found = specified))
  ∧ (is_Some (Router.handler found)
     ↔ ∃ r, r ∈ regs ∧ verb_name (reg_verb r) = method
            ∧ MatchSpec.accepts (reg_pattern r) url = true)
  ∧ (∀ before r1 after p2,
      regs = before ++ r1 :: after →
      verb_name (reg_verb r1) = method →
      MatchSpec.accepts (reg_pattern r1) url = true →
      reg_pattern r1 ≠ p2 →
      (∀ r, r ∈ before → verb_name (reg_verb r) = method →
            reg_pattern r ≠ p2) →
      Router.selected (RouteTable.build regs) method url ≠ Some p2
      ∧ ((∀ r, r ∈ before → verb_name (reg_verb r) = method →
               MatchSpec.accepts (reg_pattern r) url = false) →
         Router.selected (RouteTable.build regs) method url
         = Some (reg_pattern r1)))
  ∧ ∀ h : Handler,
      let registered := [MkRegistration GET "/:__proto__" h] in
      Router.match_ (RouteTable.build registered) "GET" "/x"
      = {| Router.handler := Some h; Router.params := ∅ |}
      ∧ MatchSpec.match_ registered "GET" "/x"
        = {| Router.handler := Some h;
             Router.params := {["__proto__" := "x"]} |}.
Proof.
  intros found specified.
  destruct (match_refines regs method url) as [Hmatch Hsel].
  fold found specified in Hmatch.
  split_and!.
  - by rewrite Hmatch.
  - done.
  - by rewrite Hmatch.
  - intros Hnone. rewrite Hmatch. destruct specified as [h ps].
    simpl in *. f_equal. by apply delete_id.
  - rewrite Hmatch. simpl. apply match_is_Some.
  - intros before r1 after p2 Hregs Hv Hacc Hne Hbefore. rewrite Hsel.
    by eapply earlier_registration_shadows.
  - intros h registered. split; by vm_compute.
Qed.

Lemma handler_of_app regs1 regs2 method pattern :
  MatchSpec.handler_of (regs1 ++ regs2) method pattern =
  match MatchSpec.handler_of regs2 method pattern with
  | Some h => Some h
  | None => MatchSpec.handler_of regs1 method pattern
  end.
Proof.
  unfold MatchSpec.handler_of, MatchSpec.registered.
  rewrite !filter_app, last_app. by destruct (last _).
Qed.

Lemma handler_of_none regs method pattern :
  (∀ r, r ∈ regs → ¬ (verb_name (reg_verb r) = method
                      ∧ reg_pattern r = pattern)) →
  MatchSpec.handler_of regs method pattern = None.
Proof.
  intros Hnone. unfold MatchSpec.handler_of, MatchSpec.registered.
  destruct (last _) as [r|] eqn:Hlast; [|done].
  apply last_Some_elem_of in Hlast.
  apply list_elem_of_filter in Hlast as [Hp Hlast].
  apply list_elem_of_filter in Hlast as [Hv Hlast].
  by destruct (Hnone r Hlast).
Qed.

(** C9. Registering a ([method], [pattern]) pair a second time raises
    no error and replaces the handler: done right after the first
    registration it leaves the table that the second registration
    alone would give, and whatever was registered in between or
    afterwards for other pairs, a match that selects the pattern
    returns the handler of the last registration. *)
Theorem reregistration_replaces_handler
    (routes : Router.t Handler) regs1 regs2 regs3 v pattern h1 h2 url :
  let first := MkRegistration v pattern h1 in
  let second := MkRegistration v pattern h2 in
  let regs := regs1 ++ first :: regs2 ++ second :: regs3 in
  RouteTable.add second (RouteTable.add first routes)
  = RouteTable.add second routes
  ∧ ((∀ r, r ∈ regs3 → ¬ (reg_verb r = v ∧ reg_pattern r = pattern)) →
     Router.selected (RouteTable.build regs) (verb_name v) url = Some pattern →
     Router.handler (Router.match_ (RouteTable.build regs) (verb_name v) url)
     = Some h2).
Proof.
  intros first second regs. split.
  - rewrite !add_register. simpl. unfold Router.register.
    destruct (JSMap.get (verb_name v) routes) as [methodRoutes|] eqn:Hget.
    + rewrite jsmap_get_set_eq. by rewrite !jsmap_set_set.
    + by rewrite Hget.
  - intros Hlater. rewrite match_handler.
    destruct (match_refines regs (verb_name v) url) as [_ ->].
    unfold MatchSpec.match_. intros ->. simpl.
    assert (regs = ((regs1 ++ first :: regs2) ++ [second]) ++ regs3) as ->.
    { unfold regs. by rewrite <- !app_assoc. }
    rewrite handler_of_app.
    rewrite (handler_of_none regs3).
    + rewrite handler_of_snoc. by rewrite decide_True.
    + intros r Hr [Hv Hp]. apply (Hlater r Hr). split; [|done].
      by destruct (reg_verb r), v.
Qed.

Lemma bind_other (name : string) (l : list (string * string)) (ps : Params) :
  (∀ sv, sv ∈ l → MatchSpec.is_parameter sv.1 = true →
         MatchSpec.parameter_name sv.1 ≠ name) →
  foldl MatchSpec.bind ps l !! name = ps !! name.
Proof.
  revert ps. induction l as [|sv l IH]; intros ps Hl; simpl; [done|].
  rewrite IH.
  - unfold MatchSpec.bind.
    destruct (MatchSpec.is_parameter sv.1) eqn:Hparam; [|done].
    apply lookup_insert_ne, Hl; [|done]. by apply elem_of_cons; left.
  - intros sv' Hsv'. apply Hl. by apply elem_of_cons; right.
Qed.

(** C10, on the code. A parameter segment never rejects a path
    segment, the empty one included: when the path has the pattern's
    number of segments, its segment at a parameter position is empty
    and the other segments match, the pattern accepts the path and
    [match] succeeds. When the pattern is the one selected, the walk
    binds the parameter's name to the empty string at that position,
    and that is the value returned for the name unless a later
    parameter segment of the pattern carries the same name: so
    [/users/:id] matches [/users/] with [id] bound to the empty
    string. The name [__proto__] is the exception: the assignment on
    the object [{}] does not create that property, and [/:__proto__]
    matches [/] with nothing bound. *)
Theorem parameter_accepts_empty_segment regs method url r i name :
  let segments := JS.split (reg_pattern r) in
  let values := JS.split url in
  r ∈ regs →
  verb_name (reg_verb r) = method →
  length segments = length values →
  segments !! i = Some (String ":" name) →
  values !! i = Some "" →
  (∀ j a b, j ≠ i → segments !! j = Some a → values !! j = Some b →
            MatchSpec.segment_matches a b = true) →
  MatchSpec.accepts (reg_pattern r) url = true
  ∧ is_Some (Router.handler
               (Router.match_ (RouteTable.build regs) method url))
  ∧ (Router.selected (RouteTable.build regs) method url
       = Some (reg_pattern r) →
     let ps := Router.params
                 (Router.match_ (RouteTable.build regs) method url) in
     ps = delete "__proto__"
            (foldl MatchSpec.bind
               (<[name := ""]>
                  (MatchSpec.bindings_of (take i segments) (take i values)))
               (zip (drop (S i) segments) (drop (S i) values)))
     ∧ (name = "__proto__" → ps !! name = None)
     ∧ (name ≠ "__proto__" →
        (∀ j a, i < j → segments !! j = Some a →
                MatchSpec.is_parameter a = true →
                MatchSpec.parameter_name a ≠ name) →
        ps !! name = Some ""))
  ∧ (∀ h : Handler,
      Router.match_ (Router.get "/users/:id" h Router.new) "GET" "/users/"
      = {| Router.handler := Some h; Router.params := {["id" := ""]} |})
  ∧ ∀ h : Handler,
      Router.match_ (Router.get "/:__proto__" h Router.new) "GET" "/"
      = {| Router.handler := Some h; Router.params := ∅ |}.
Proof.
  intros segments values Hr Hv Hlen Hseg Hval Hothers.
  assert (MatchSpec.accepts (reg_pattern r) url = true) as Hacc.
  { rewrite accepts_split. fold segments values.
    apply andb_true_iff. split; [by apply Nat.eqb_eq|].
    apply forallb_forall. intros [a b] Hab. simpl.
    apply list_elem_of_In, list_elem_of_lookup in Hab as [j Hj].
    apply lookup_zip_with_Some in Hj as (a' & b' & [= <- <-] & Ha & Hb).
    destruct (decide (j = i)) as [->|Hji]; [|by eapply Hothers].
    rewrite Hseg in Ha. injection Ha as <-.
    unfold MatchSpec.segment_matches. by rewrite is_parameter_colon. }
  destruct (match_refines regs method url) as (Hmatch & Hsel).
  split_and!; [done| | | |].
  - rewrite match_handler. apply match_is_Some. by exists r.
  - rewrite match_params, Hsel. unfold MatchSpec.match_. intros ->. simpl.
    assert (MatchSpec.bindings (reg_pattern r) url =
            foldl MatchSpec.bind
              (<[name := ""]>
                 (MatchSpec.bindings_of (take i segments) (take i values)))
              (zip (drop (S i) segments) (drop (S i) values))) as ->.
    { rewrite bindings_split. unfold MatchSpec.bindings_of.
      fold segments values.
      rewrite <- (take_drop_middle segments i _ Hseg) at 1.
      rewrite <- (take_drop_middle values i _ Hval) at 1.
      rewrite zip_with_app by (rewrite !length_take; lia).
      rewrite foldl_app. cbn [zip_with foldl]. f_equal.
      unfold MatchSpec.bind. cbn [fst snd].
      by rewrite is_parameter_colon, parameter_name_slice. }
    split_and!; [done| |].
    + intros ->. apply lookup_delete_eq.
    + intros Hname Hlater. etrans; [by apply lookup_delete_ne|].
      rewrite bind_other; [apply lookup_insert_eq|].
      intros [a b] Hab Hparam. simpl in *.
      apply list_elem_of_lookup in Hab as [j Hj].
      apply lookup_zip_with_Some in Hj as (a' & b' & [= <- <-] & Ha & Hb).
      rewrite lookup_drop in Ha. eapply Hlater; [|done|done]. lia.
  - intros h. by vm_compute.
  - intros h. by vm_compute.
Qed.

End RouterFacts.

(** ** The Response Context *)

Section ResponseFacts.

Context `{Runtime}.
Variable viewsDir : string.
Variable templateEngine : TemplateEngine.

Local Abbreviation run := (ResponseContext.run viewsDir templateEngine).
Local Abbreviation apply := (ResponseContext.apply viewsDir templateEngine).
Local Abbreviation status_write := (ResponseSpec.status_write viewsDir templateEngine).
Local Abbreviation header_write := (ResponseSpec.header_write viewsDir templateEngine).
Local Abbreviation body_write := (ResponseSpec.body_write viewsDir templateEngine).

Lemma run_snoc ops op rc : run (ops ++ [op]) rc = apply op (run ops rc).
Proof. unfold ResponseContext.run. by rewrite foldl_app. Qed.

Lemma last_write_snoc {A : Type} (write : ResponseContext.Op → option A)
    ops op :
  ResponseSpec.last_write write (ops ++ [op]) =
  match write op with
  | Some x => Some x
  | None => ResponseSpec.last_write write ops
  end.
Proof.
  unfold ResponseSpec.last_write. rewrite omap_app, last_app. simpl.
  by destruct (write op).
Qed.

Lemma apply_status op rc :
  statusCode (apply op rc) = default (statusCode rc) (status_write op).
Proof.
  destruct op; simpl; try done.
  unfold ResponseContext.render, ResponseSpec.rendering.
  by destruct (templateEngine _ _).
Qed.

Lemma apply_header key op rc :
  JSMap.get key (headers (apply op rc)) =
  match header_write key op with
  | Some value => Some value
  | None => JSMap.get key (headers rc)
  end.
Proof.
  destruct op; cbn -[String.eqb]; try done.
  - destruct (String.eqb_spec "Content-Type" key) as [<-|Hne].
    + apply jsmap_get_set_eq.
    + by apply jsmap_get_set_ne.
  - destruct (String.eqb_spec key0 key) as [<-|Hne].
    + apply jsmap_get_set_eq.
    + by apply jsmap_get_set_ne.
  - unfold ResponseContext.render, ResponseSpec.rendering.
    destruct (String.eqb_spec "Content-Type" key) as [<-|Hne];
      destruct (templateEngine _ _); cbn -[String.eqb];
      by rewrite ?jsmap_get_set_eq, ?jsmap_get_set_ne.
Qed.

Lemma apply_body op rc :
  responseBody (apply op rc) = default (responseBody rc) (body_write op).
Proof.
  destruct op; simpl; try done.
  unfold ResponseContext.render, ResponseSpec.rendering.
  by destruct (templateEngine _ _).
Qed.

(** C5, as amended. After any sequence of calls on the Response
    Context, what the dispatcher reads is, field by field, the last
    write: the status is the one last written, by [status] or by a
    [render] that failed (500), and 200 when there is none; each
    header holds the value last written for its key by [setHeader],
    [json] or [render]; the body is the one written by the last of the
    [send], [json] and [render] calls to take effect, earlier bodies
    leaving no trace. *)
Theorem last_write_wins (ops : list ResponseContext.Op) :
  let rc := run ops ResponseContext.initial in
  statusCode rc = default 200%Z (ResponseSpec.last_write status_write ops)
  ∧ (∀ key,
       JSMap.get key (headers rc)
       = ResponseSpec.last_write (header_write key) ops)
  ∧ responseBody rc
    = default None (ResponseSpec.last_write body_write ops)
  ∧ flush rc
    = {| sent_headers := headers rc;
         sent_status := statusCode rc;
         sent_body := responseBody rc |}.
Proof.
  simpl. induction ops as [|op ops IH] using rev_ind; [done|].
  destruct IH as (Hstatus & Hheaders & Hbody & _).
  rewrite run_snoc, !last_write_snoc. split_and!; [| | |done].
  - rewrite apply_status, Hstatus. by destruct (status_write op).
  - intros key. rewrite apply_header, last_write_snoc, Hheaders.
    by destruct (header_write key op).
  - rewrite apply_body, Hbody. by destruct (body_write op).
Qed.

(** C6. [render] sets [Content-Type: text/html] and the rendered text
    as body when the template engine succeeds, and leaves the status
    alone; when the lookup or the engine fails it sets the status to
    500, [Content-Type: text/plain] and a body that is a fixed prefix
    followed by the failure's message. In both cases the call ends
    normally: the failure is not passed on to the caller. *)
Theorem render_converts_failure (templatePath : string)
    (data : option JsValue) (rc : ResponseState) :
  let rc' := ResponseContext.render viewsDir templateEngine
               templatePath data rc in
  match templateEngine (path_join viewsDir templatePath)
          (default (JObj []) data) with
  | RenderOk rendered =>
      JSMap.get "Content-Type" (headers rc') = Some "text/html"
      ∧ responseBody rc' = Some rendered
      ∧ statusCode rc' = statusCode rc
  | RenderThrows message =>
      statusCode rc' = 500%Z
      ∧ JSMap.get "Content-Type" (headers rc') = Some "text/plain"
      ∧ responseBody rc' = Some ("Error rendering template: " +:+ message)
  end.
Proof.
  simpl. unfold ResponseContext.render.
  destruct (templateEngine _ _); simpl;
    by rewrite jsmap_get_set_eq.
Qed.

(** [json] stores the runtime's serialization, so a value that the
    runtime parses back from its serialization is parsed back from the
    body. *)
Lemma json_serializes (data : JsValue) (text : string) (rc : ResponseState) :
  JSON_stringify data = Some text →
  JSON_parse text = Some data →
  let rc' := ResponseContext.json data rc in
  JSMap.get "Content-Type" (headers rc') = Some "application/json"
  ∧ responseBody rc' = Some text
  ∧ (responseBody rc' ≫= JSON_parse) = Some data
  ∧ statusCode rc' = statusCode rc.
Proof.
  intros Hstringify Hparse. simpl.
  rewrite jsmap_get_set_eq, Hstringify. simpl. by rewrite Hparse.
Qed.

End ResponseFacts.


(** ** The reference runtime: parsing what was serialized *)

Section RoundTrip.
Import Reference.

Lemma print_arr x xs rest :
  print_to (JArr (x :: xs)) rest = String "[" (print_to x (more_items rest xs)).
Proof.
  simpl. do 2 f_equal. induction xs as [|y ys IH]; simpl; [done|].
  by rewrite IH.
Qed.

Lemma print_obj fields rest :
  print_to (JObj fields) rest = String "{" (properties_to rest fields).
Proof.
  simpl. f_equal.
  assert (∀ fs,
            (fix more (fs : list (string * JsValue)) : string :=
               match fs with
               | [] => String "}" rest
               | (key, x) :: fs' =>
                   match x with
                   | JUndefined => more fs'
                   | _ =>
                       String ","
                         (String dquote
                            (quote_to key
                               (String ":" (print_to x (more fs')))))
                   end
               end) fs = more_properties rest fs) as Hmore.
  { induction fs as [|[key x] fs IH]; simpl; [done|].
    destruct x; by rewrite IH. }
  induction fields as [|[key x] fs IH]; simpl; [done|].
  destruct x; by rewrite ?IH, ?Hmore.
Qed.

Lemma delimited_no_digit rest :
  delimited rest → take_digits rest = (Nil, rest).
Proof.
  destruct rest as [|c rest]; [done|].
  by intros [-> | [-> | ->]].
Qed.

Lemma take_digits_digits d rest :
  delimited rest → take_digits (digits_to d rest) = (d, rest).
Proof.
  intros Hrest. induction d; simpl; rewrite ?IHd; try done.
  by apply delimited_no_digit.
Qed.

Lemma nzhead_no_zero d d' : nzhead d ≠ D0 d'.
Proof. induction d; simpl; done. Qed.

Lemma to_uint_canonical n :
  match N.to_uint n with
  | Nil => False
  | D0 Nil => True
  | D0 _ => False
  | _ => True
  end.
Proof.
  assert (N.to_uint n = unorm (N.to_uint n)) as ->.
  { rewrite <- DecimalN.Unsigned.to_of. by rewrite DecimalN.Unsigned.of_to. }
  unfold unorm.
  pose proof (nzhead_no_zero (N.to_uint n)) as Hnz.
  destruct (nzhead (N.to_uint n)); try done.
  by destruct (Hnz u).
Qed.

Lemma parse_nat_digits n rest :
  delimited rest →
  parse_nat (digits_to (N.to_uint n) rest) = Some (n, rest).
Proof.
  intros Hrest. unfold parse_nat. rewrite take_digits_digits by done.
  pose proof (to_uint_canonical n) as Hcanonical.
  pose proof (DecimalN.Unsigned.of_to n) as Hn.
  assert (match rest with
          | String c _ =>
              Ascii.eqb c "." || Ascii.eqb c "e" || Ascii.eqb c "E" = false
          | EmptyString => True
          end) as Hsep.
  { destruct rest as [|c rest]; [done|]. by destruct Hrest as [-> | [-> | ->]]. }
  destruct (N.to_uint n) as [|u|u|u|u|u|u|u|u|u|u]; try done;
    try (destruct rest; [|rewrite Hsep]; by rewrite Hn).
  destruct u; try done. destruct rest; [|rewrite Hsep]; by rewrite Hn.
Qed.

(** An escaped control character is read as the character. *)
Lemma parse_chars_escape c s :
  Nat.ltb (nat_of_ascii c) 32 = true →
  parse_chars (String backslash (escape_to c s)) = prepend c (parse_chars s).
Proof.
  destruct c as [[|] [|] [|] [|] [|] [|] [|] [|]]; intros Hc;
    first [discriminate Hc | reflexivity].
Qed.

Lemma parse_chars_quote s rest :
  parse_chars (quote_to s rest) = Some (s, rest).
Proof.
  induction s as [|c s IH]; cbn [quote_to].
  - reflexivity.
  - destruct (Ascii.eqb_spec c dquote) as [->|Hdq]; cbn [orb].
    + cbn. by rewrite IH.
    + destruct (Ascii.eqb_spec c backslash) as [->|Hbs]; cbn [orb].
      * cbn. by rewrite IH.
      * destruct (Nat.ltb (nat_of_ascii c) 32) eqn:Hc.
        -- rewrite parse_chars_escape by done. by rewrite IH.
        -- cbn [parse_chars].
           destruct (Ascii.eqb_spec c dquote); [done|].
           destruct (Ascii.eqb_spec c backslash); [done|].
           rewrite Hc. by rewrite IH.
Qed.

(** How [parse_value] reads the first character. *)
Lemma parse_value_digit fuel c s digit :
  digit_of c = Some digit →
  parse_value (S fuel) (String c s)
  = (fun nr : N * string => (JNum (Z.of_N nr.1), nr.2))
      <$> parse_nat (String c s).
Proof.
  unfold digit_of.
  repeat match goal with
    | |- context [Ascii.eqb c ?d] =>
        destruct (Ascii.eqb_spec c d) as [->|?]; [intros _; reflexivity|]
    end.
  done.
Qed.

Lemma parse_value_minus fuel s :
  parse_value (S fuel) (String "-" s)
  = (fun nr : N * string => (JNum (- Z.of_N nr.1), nr.2)) <$> parse_nat s.
Proof. reflexivity. Qed.

Lemma parse_value_quote fuel s :
  parse_value (S fuel) (String dquote s)
  = (fun tr : string * string => (JStr tr.1, tr.2)) <$> parse_chars s.
Proof. reflexivity. Qed.

Lemma parse_value_bracket fuel s :
  parse_value (S fuel) (String "[" s)
  = match closes "]" s with
    | Some rest => Some (JArr [], rest)
    | None =>
        (fun xr : list JsValue * string => (JArr xr.1, xr.2))
          <$> parse_items fuel s
    end.
Proof. reflexivity. Qed.

Lemma parse_value_brace fuel s :
  parse_value (S fuel) (String "{" s)
  = match closes "}" s with
    | Some rest => Some (JObj [], rest)
    | None =>
        (fun xr : list (string * JsValue) * string =>
           (JObj (properties_of xr.1), xr.2))
          <$> parse_fields fuel s
    end.
Proof. reflexivity. Qed.

Lemma parse_items_step fuel s :
  parse_items (S fuel) s
  = match parse_value fuel s with
    | None => None
    | Some (v, rest) =>
        match skip_space rest with
        | String "]" rest' => Some ([v], rest')
        | String "," rest' =>
            (fun xr : list JsValue * string => (v :: xr.1, xr.2))
              <$> parse_items fuel rest'
        | _ => None
        end
    end.
Proof. reflexivity. Qed.

Lemma parse_fields_step fuel key s :
  parse_fields (S fuel) (String dquote (quote_to key (String ":" s)))
  = match parse_value fuel s with
    | None => None
    | Some (v, rest) =>
        match skip_space rest with
        | String "}" r => Some ([(key, v)], r)
        | String "," r =>
            (fun xr : list (string * JsValue) * string =>
               ((key, v) :: xr.1, xr.2))
              <$> parse_fields fuel r
        | _ => None
        end
    end.
Proof.
  cbn [parse_fields].
  change (skip_space (String dquote ?s)) with (String dquote s).
  cbn match.
  by rewrite parse_chars_quote.
Qed.

Lemma digits_first d rest :
  d ≠ Nil → ∃ c s digit, digits_to d rest = String c s ∧ digit_of c = Some digit.
Proof. destruct d; [done|..]; intros _; simpl; by do 3 eexists. Qed.

Lemma value_start v rest :
  serializable v = true → closes "]" (print_to v rest) = None.
Proof.
  destruct v as [| |[|]|n|s|items|fields]; try done.
  intros _. simpl. unfold number_to.
  pose proof (to_uint_canonical (Z.to_N n)) as Hcanonical.
  destruct (n <? 0)%Z; [done|].
  by destruct (N.to_uint (Z.to_N n)).
Qed.

Lemma more_items_delimited rest xs : delimited (more_items rest xs).
Proof. destruct xs; simpl; auto. Qed.

Lemma more_properties_delimited rest fs : delimited (more_properties rest fs).
Proof.
  induction fs as [|[key x] fs IH]; simpl; [auto|]. destruct x; simpl; auto.
Qed.

Lemma properties_first rest key x fs :
  serializable x = true →
  properties_to rest ((key, x) :: fs)
  = String dquote
      (quote_to key (String ":" (print_to x (more_properties rest fs))))
  ∧ more_properties rest ((key, x) :: fs)
    = String ","
        (String dquote
           (quote_to key (String ":" (print_to x (more_properties rest fs))))).
Proof. by destruct x. Qed.

(** *** The members of an object that is enumerated as it was built *)

Lemma enumerated_middle (before : list string) k after :
  enumerated (before ++ k :: after) = true →
  ∀ k0, k0 ∈ before → String.eqb k0 k = false ∧ goes_before k k0 = false.
Proof.
  induction before as [|b before IH]; intros Henum k0 Hk0; simpl in *.
  - by apply elem_of_nil in Hk0.
  - apply andb_true_iff in Henum as [Hall Henum].
    apply elem_of_cons in Hk0 as [->|Hk0]; [|by apply IH].
    rewrite forallb_forall in Hall.
    specialize (Hall k ltac:(apply in_or_app; right; by left)).
    apply andb_true_iff in Hall as [Hne Hbefore].
    by split; apply negb_true_iff.
Qed.

Lemma enumerated_front (before : list string) k after :
  enumerated (before ++ k :: after) = true →
  enumerated (before ++ [k]) = true.
Proof.
  induction before as [|b before IH]; simpl; [done|].
  intros [Hall Henum]%andb_true_iff. apply andb_true_iff. split; [|by apply IH].
  rewrite forallb_forall in Hall. apply forallb_forall. intros k' Hk'.
  apply Hall. apply in_app_or in Hk' as [Hk'|[<-|[]]]; apply in_or_app;
    [by left|right; by left].
Qed.

(** A new key that comes before none of the present ones goes to the
    end. *)
Lemma define_last key v (fields : list (string * JsValue)) :
  (∀ k0, k0 ∈ map fst fields →
         String.eqb k0 key = false ∧ goes_before key k0 = false) →
  define key v fields = fields ++ [(key, v)].
Proof.
  induction fields as [|[k x] fields IH]; intros Hnew; simpl; [done|].
  destruct (Hnew k) as [-> ->]; [by apply elem_of_cons; left|].
  rewrite IH; [done|]. intros k0 Hk0. apply Hnew. by apply elem_of_cons; right.
Qed.

Lemma define_all (built members : list (string * JsValue)) :
  enumerated (map fst (built ++ members)) = true →
  foldl (fun fields kv => define kv.1 kv.2 fields) built members
  = built ++ members.
Proof.
  revert built. induction members as [|[k x] members IH]; intros built Henum.
  - simpl. by rewrite app_nil_r.
  - simpl. rewrite map_app in Henum. simpl in Henum.
    rewrite define_last by (by eapply enumerated_middle).
    rewrite IH; [by rewrite <- app_assoc|].
    by rewrite <- app_assoc, map_app.
Qed.

(** An object that lists its properties as it enumerates them is
    built again by its members. *)
Lemma properties_of_enumerated (fields : list (string * JsValue)) :
  enumerated (map fst fields) = true → properties_of fields = fields.
Proof. intros Henum. by apply (define_all [] fields). Qed.

(** Parsing what was printed gives the value back, and what followed
    it. *)
Lemma parse_print v :
  serializable v = true →
  ∀ (fuel : nat) (rest : string),
    (size v ≤ fuel)%nat → delimited rest →
    parse_value fuel (print_to v rest) = Some (v, rest).
Proof.
  induction v as [| |b|n|s|items IH|fields IH] using value_ind;
    intros Hplain fuel rest Hfuel Hrest;
    (destruct fuel as [|fuel]; [simpl in Hfuel; lia|]).
  - done.
  - done.
  - by destruct b.
  - cbn [print_to]. unfold number_to.
    destruct (Z.ltb_spec n 0) as [Hneg|Hpos].
    + rewrite parse_value_minus, parse_nat_digits by done. simpl.
      rewrite Z2N.id by lia. by rewrite Z.opp_involutive.
    + pose proof (to_uint_canonical (Z.to_N n)) as Hcanonical.
      destruct (digits_first (N.to_uint (Z.to_N n)) rest)
        as (c & s & digit & Heq & Hdigit).
      { by destruct (N.to_uint (Z.to_N n)). }
      rewrite Heq, (parse_value_digit _ _ _ _ Hdigit), <- Heq.
      rewrite parse_nat_digits by done. simpl. by rewrite Z2N.id by lia.
  - cbn [print_to]. by rewrite parse_value_quote, parse_chars_quote.
  - destruct items as [|x xs]; [done|].
    rewrite print_arr, parse_value_bracket.
    rewrite value_start by by apply andb_true_iff in Hplain as [? _].
    assert (parse_items fuel (print_to x (more_items rest xs))
            = Some (x :: xs, rest)) as ->; [|done].
    simpl in Hfuel. apply le_S_n in Hfuel. simpl in Hplain.
    clear Hrest. revert x fuel IH Hplain Hfuel.
    induction xs as [|y ys IHxs]; intros x fuel IH Hplain Hfuel;
      apply Forall_cons in IH as [IHx IH];
      apply andb_true_iff in Hplain as [Hx Hplain];
      (destruct fuel as [|fuel]; [simpl in Hfuel; lia|]); simpl in Hfuel;
      rewrite parse_items_step;
      rewrite IHx by (done || lia || apply more_items_delimited).
    + done.
    + cbn [more_items].
      change (skip_space (String "," ?s)) with (String "," s). cbn match.
      rewrite IHxs; [done|done|done|]. simpl. lia.
  - destruct fields as [|[key x] fs]; [done|].
    rewrite print_obj, parse_value_brace. cbn [serializable] in Hplain.
    apply andb_true_iff in Hplain as [Henum Hplain].
    cbn [forallb snd] in Hplain.
    apply andb_true_iff in Hplain as [Hx Hplain].
    destruct (properties_first rest key x fs Hx) as [-> _].
    change (closes "}" (String dquote ?s)) with (@None string).
    assert (parse_fields fuel
              (String dquote
                 (quote_to key
                    (String ":" (print_to x (more_properties rest fs)))))
            = Some ((key, x) :: fs, rest)) as ->.
    2:{ cbn [fmap option_fmap option_map fst snd].
        by rewrite properties_of_enumerated. }
    simpl in Hfuel. apply le_S_n in Hfuel.
    clear Hrest Henum. revert key x fuel IH Hx Hplain Hfuel.
    induction fs as [|[key' x'] fs IHfs];
      intros key x fuel IH Hx Hplain Hfuel;
      apply Forall_cons in IH as [IHx IH];
      (destruct fuel as [|fuel]; [simpl in Hfuel; lia|]); simpl in Hfuel;
      rewrite parse_fields_step; simpl in IHx;
      rewrite IHx by (done || lia || apply more_properties_delimited).
    + done.
    + cbn [forallb snd] in Hplain.
      apply andb_true_iff in Hplain as [Hx' Hplain].
      destruct (properties_first rest key' x' fs Hx') as [_ ->].
      change (skip_space (String "," ?s)) with (String "," s). cbn match.
      rewrite IHfs; [done|done|done|done|]. simpl. lia.
Qed.

Lemma length_quote_to s rest :
  (String.length rest < String.length (quote_to s rest))%nat.
Proof.
  induction s as [|c s IH]; cbn [quote_to]; [simpl; lia|].
  destruct (_ || _); [simpl; lia|].
  destruct (Nat.ltb _ _); [|simpl; lia].
  unfold escape_to. repeat case_match; simpl; lia.
Qed.

Lemma length_digits_to d rest :
  (String.length rest ≤ String.length (digits_to d rest))%nat
  ∧ (d ≠ Nil → (String.length rest < String.length (digits_to d rest))%nat).
Proof.
  induction d as [|d [IH _]|d [IH _]|d [IH _]|d [IH _]|d [IH _]|d [IH _]
                  |d [IH _]|d [IH _]|d [IH _]|d [IH _]];
    simpl; (split; [lia|intros ?; (done || lia)]).
Qed.

(** A printed value is at least as long as the parsing steps it
    takes. *)
Lemma length_print v :
  serializable v = true →
  ∀ rest : string,
    (size v + String.length rest ≤ String.length (print_to v rest))%nat.
Proof.
  induction v as [| |b|n|s|items IH|fields IH] using value_ind;
    intros Hplain rest.
  - done.
  - simpl. change ("" +:+ rest) with rest. lia.
  - destruct b; simpl; change ("" +:+ rest) with rest; lia.
  - cbn [print_to size]. unfold number_to.
    pose proof (to_uint_canonical (Z.to_N n)) as Hpos.
    pose proof (to_uint_canonical (Z.to_N (- n))) as Hneg.
    destruct (n <? 0)%Z.
    + pose proof (proj1 (length_digits_to (N.to_uint (Z.to_N (- n))) rest)).
      simpl. lia.
    + apply (proj2 (length_digits_to (N.to_uint (Z.to_N n)) rest)).
      by destruct (N.to_uint (Z.to_N n)).
  - pose proof (length_quote_to s rest). simpl. lia.
  - destruct items as [|x xs]; [simpl; lia|].
    rewrite print_arr. simpl in Hplain.
    apply andb_true_iff in Hplain as [Hx Hplain].
    apply Forall_cons in IH as [IHx IH].
    specialize (IHx Hx (more_items rest xs)).
    assert (list_sum (map (fun x => S (size x)) xs) + S (String.length rest)
            ≤ String.length (more_items rest xs))%nat as Hmore.
    { clear IHx Hx x. revert Hplain IH.
      induction xs as [|y ys IHys]; intros Hplain IH; simpl; [lia|].
      apply andb_true_iff in Hplain as [Hy Hplain].
      apply Forall_cons in IH as [IHy IH].
      specialize (IHy Hy (more_items rest ys)).
      specialize (IHys Hplain IH). lia. }
    simpl. lia.
  - destruct fields as [|[key x] fs]; [simpl; lia|].
    rewrite print_obj. cbn [serializable] in Hplain.
    apply andb_true_iff in Hplain as [_ Hplain].
    cbn [forallb snd] in Hplain.
    apply andb_true_iff in Hplain as [Hx Hplain].
    destruct (properties_first rest key x fs Hx) as [-> _].
    apply Forall_cons in IH as [IHx IH]. simpl in IHx.
    specialize (IHx Hx (more_properties rest fs)).
    pose proof (length_quote_to key
                  (String ":" (print_to x (more_properties rest fs)))) as Hq.
    assert (list_sum (map (fun kv : string * JsValue => S (size kv.2)) fs)
            + S (String.length rest)
            ≤ String.length (more_properties rest fs))%nat as Hmore.
    { clear IHx Hx Hq x key. revert Hplain IH.
      induction fs as [|[key y] ys IHys]; intros Hplain IH; simpl; [lia|].
      cbn [forallb snd] in Hplain.
      apply andb_true_iff in Hplain as [Hy Hplain].
      apply Forall_cons in IH as [IHy IH]. simpl in IHy.
      destruct (properties_first rest key y ys Hy) as [_ Heq].
      simpl in Heq. rewrite Heq.
      specialize (IHy Hy (more_properties rest ys)).
      specialize (IHys Hplain IH).
      pose proof (length_quote_to key
                    (String ":" (print_to y (more_properties rest ys)))).
      simpl in *. lia. }
    simpl in *. lia.
Qed.

(** The reference runtime parses back what it has serialized. *)
Theorem reference_round_trip v :
  serializable v = true →
  ∃ text, stringify v = Some text ∧ parse text = Some v.
Proof.
  intros Hplain. exists (print_to v ""). split; [by destruct v|].
  unfold parse. rewrite (parse_print v Hplain); [done| |done].
  pose proof (length_print v Hplain ""). lia.
Qed.

End RoundTrip.


(** ** The dispatcher: what the log of a request always satisfies *)

Section DispatcherFacts.

Context `{Runtime}.
Variable app : Bonfire.
Variable url : string.

Local Abbreviation n := (length (middlewares app)).

Lemma causal_nil : causal n [].
Proof.
  unfold causal. split_and!; intros; exfalso; by eapply elem_of_nil.
Qed.

Lemma frame_ok_mono (events events' : list Event) f :
  events ⊆ events' → frame_ok events f → frame_ok events' f.
Proof. intros Hsub. destruct f; simpl; apply Hsub. Qed.

Lemma stack_ok_mono (events events' : list Event) (stack : Stack) :
  events ⊆ events' →
  Forall (frame_ok events) stack → Forall (frame_ok events') stack.
Proof.
  intros Hsub Hstack. eapply Forall_impl; [done|].
  intros f. by apply frame_ok_mono.
Qed.

Lemma follows_trans st1 st2 st3 r2 r3 :
  follows n st1 st2 r2 → follows n st2 st3 r3 → follows n st1 st3 r3.
Proof.
  intros (_ & Hsub12 & _) (Hgood & Hsub23 & Hok).
  split_and!; [done| |done]. by etrans.
Qed.

(** Recording an event that the invariant allows. *)
Lemma good_record e st :
  good n st →
  match e with
  | Enter (Step index) =>
      index < n ∧ ∀ j, S j = index → CallNext (Step j) ∈ log st
  | Enter RouteHandler => ∀ j, S j = n → CallNext (Step j) ∈ log st
  | CallNext w => Enter w ∈ log st
  | Leave _ _ | NotFound => True
  end →
  follows n st (record e st) Completed.
Proof.
  intros [(Ha & Hb & Hc & Hd) Hpending] He.
  assert (log st ⊆ e :: log st) as Hsub.
  { intros x Hx. by apply elem_of_cons; right. }
  split_and!; [|done|done]. split.
  - simpl. unfold causal. setoid_rewrite elem_of_cons.
    split_and!.
    + intros j [<-|Hj]; [|right; by apply Ha].
      right. destruct He as [_ He]. by apply He.
    + intros w [<-|Hw]; [by right|]. right. by apply Hb.
    + intros [<-|Hh] j Hj; [right; by apply He|].
      right. by apply Hc.
    + intros j [<-|Hj]; [by destruct He|]. by apply Hd.
  - simpl. eapply Forall_impl; [done|]. intros stack.
    by apply stack_ok_mono.
Qed.

Lemma good_same_log st st' :
  log st' = log st → pending st' = pending st → good n st → good n st'.
Proof. unfold good. by intros -> ->. Qed.

Lemma good_detach st r :
  good n st → status_ok (log st) r → good n (detach r st).
Proof.
  intros [Hcausal Hpending] Hr. destruct r; simpl; [done| |done].
  split; [done|]. simpl. apply Forall_app. split; [done|].
  by apply Forall_singleton.
Qed.

Lemma follows_detach st st' r :
  follows n st st' r → follows n st (detach r st') Completed.
Proof.
  intros (Hgood & Hsub & Hok). split_and!; [by apply good_detach| |done].
  by destruct r.
Qed.

Section Activation.

Context {N : Type}.
Variable next : N → State → State * Status.
Variable me : Who.
Variable frame : option ResponseContext.Op → Prog N → Frame.

Hypothesis frame_entered :
  ∀ events wake k, Enter me ∈ events → frame_ok events (frame wake k).
Hypothesis next_follows :
  ∀ x st st' r,
    good n st → CallNext me ∈ log st → next x st = (st', r) →
    follows n st st' r.

Lemma run_prog_follows p st st' r :
  good n st → Enter me ∈ log st →
  run_prog app next me frame p st = (st', r) →
  follows n st st' r.
Proof.
  revert st st' r.
  induction p as [|op k IH|v k IH|x awaited k IH|k IH|];
    intros st st' r Hgood Hme; simpl.
  - intros [= <- <-]. by apply good_record.
  - destruct (is_render op).
    + intros [= <- <-]. split_and!; [done|done|].
      apply Forall_singleton. by apply frame_entered.
    + intros Hrun. apply IH in Hrun; [done| |done].
      by eapply good_same_log.
  - intros Hrun. apply IH in Hrun; [done| |done].
    by eapply good_same_log.
  - destruct (next x (record (CallNext me) st)) as [st1 r1] eqn:Hnext.
    pose proof (good_record (CallNext me) st Hgood Hme) as Hrec.
    apply next_follows in Hnext as Hnext';
      [|by destruct Hrec|by apply elem_of_cons; left].
    pose proof (follows_trans _ _ _ _ _ Hrec Hnext') as H01.
    destruct H01 as (Hgood1 & Hsub1 & Hok1).
    destruct awaited.
    + destruct r1 as [|stack|].
      * intros Hrun. apply IH in Hrun; [|done|by apply Hsub1].
        eapply follows_trans; [|done]. by split_and!.
      * intros [= <- <-]. split_and!; [done|done|].
        apply Forall_app. split; [done|].
        apply Forall_singleton, frame_entered. by apply Hsub1.
      * intros [= <- <-]. by split_and!.
    + intros Hrun. apply IH in Hrun.
      * eapply follows_trans; [|done]. apply follows_detach. by split_and!.
      * by apply good_detach.
      * destruct r1; by apply Hsub1.
  - intros [= <- <-]. split_and!; [done|done|].
    apply Forall_singleton. by apply frame_entered.
  - intros [= <- <-]. by split_and!.
Qed.

(** A call of [next()] stays in the log. *)
Lemma run_prog_call_logged x awaited k st st' r :
  good n st → Enter me ∈ log st →
  run_prog app next me frame (Call x awaited k) st = (st', r) →
  CallNext me ∈ log st'.
Proof.
  intros Hgood Hme. simpl.
  destruct (next x (record (CallNext me) st)) as [st1 r1] eqn:Hnext.
  pose proof (good_record (CallNext me) st Hgood Hme) as Hrec.
  apply next_follows in Hnext as (Hgood1 & Hsub1 & Hok1);
    [|by destruct Hrec|by apply elem_of_cons; left].
  assert (CallNext me ∈ log st1) as Hin
    by by apply Hsub1, elem_of_cons; left.
  assert (Enter me ∈ log st1) as Hme1.
  { apply Hsub1. apply elem_of_cons. by right. }
  destruct awaited.
  - destruct r1.
    + intros (_ & Hsub & _)%run_prog_follows; [by apply Hsub|done|done].
    + by intros [= <- <-].
    + by intros [= <- <-].
  - intros (_ & Hsub & _)%run_prog_follows.
    + apply Hsub. by destruct r1.
    + by apply good_detach.
    + by destruct r1.
Qed.

End Activation.

Lemma dispatch_follows st st' r :
  good n st → (∀ j, S j = n → CallNext (Step j) ∈ log st) →
  dispatch app url st = (st', r) → follows n st st' r.
Proof.
  intros Hgood Hlast. unfold dispatch.
  set (m := Router.match_ _ _ _).
  set (st1 := set_req _ st).
  assert (good n st1) as Hgood1 by by eapply good_same_log.
  destruct (Router.handler m) as [h|].
  - intros Hrun.
    pose proof (good_record (Enter RouteHandler) st1 Hgood1 Hlast) as Hrec.
    eapply follows_trans; [exact Hrec|].
    eapply run_prog_follows; [| |by destruct Hrec| |exact Hrun].
    + done.
    + by intros [].
    + by apply elem_of_cons; left.
  - intros [= <- <-].
    match goal with
    | |- follows _ _ (record NotFound ?st2) _ =>
        destruct (good_record NotFound st2) as (Hg & Hs & Ho);
        [by eapply good_same_log|done|by split_and!]
    end.
Qed.

Lemma executeMiddleware_from_follows rest index st st' r :
  index + length rest = n →
  good n st → (∀ j, S j = index → CallNext (Step j) ∈ log st) →
  executeMiddleware_from app url rest index st = (st', r) →
  follows n st st' r.
Proof.
  revert index st st' r.
  induction rest as [|mw rest IH]; intros index st st' r Hlen Hgood Hprev.
  - simpl in *. apply dispatch_follows; [done|].
    intros j Hj. apply Hprev. lia.
  - simpl in *. intros Hrun.
    assert (follows n st (record (Enter (Step index)) st) Completed) as Hrec.
    { apply good_record; [done|]. split; [lia|done]. }
    eapply follows_trans; [exact Hrec|].
    eapply run_prog_follows; [| |by destruct Hrec| |exact Hrun].
    + intros events wake k. done.
    + intros [] st0 st0' r0 Hgood0 Hcall. apply IH; [lia|done|].
      by intros j [= ->].
    + by apply elem_of_cons; left.
Qed.

Lemma executeMiddleware_follows (index : nat) st st' r :
  (index ≤ n)%nat →
  good n st → (∀ j, S j = index → CallNext (Step j) ∈ log st) →
  executeMiddleware app url index st = (st', r) →
  follows n st st' r.
Proof.
  intros Hindex. apply executeMiddleware_from_follows.
  rewrite length_drop. lia.
Qed.

Lemma resume_frame_follows f st st' r :
  good n st → frame_ok (log st) f →
  resume_frame app url f st = (st', r) → follows n st st' r.
Proof.
  intros Hgood Hf. destruct f as [index wake k|wake k]; simpl in *.
  - assert (good n (wake_up app wake st)) as Hgood'.
    { destruct wake; [by eapply good_same_log|done]. }
    assert (log (wake_up app wake st) = log st) as Hlog by by destruct wake.
    intros Hrun.
    eapply run_prog_follows in Hrun; [|done| |done|by rewrite Hlog].
    + destruct Hrun as (? & Hsub & ?). split_and!; [done| |done].
      by rewrite <- Hlog.
    + intros [] st0 st0' r0 Hgood0 Hcall.
      apply executeMiddleware_follows; [|done|by intros j [= ->]].
      destruct Hgood as [(_ & _ & _ & Hd) _]. by apply Hd.
  - assert (good n (wake_up app wake st)) as Hgood'.
    { destruct wake; [by eapply good_same_log|done]. }
    assert (log (wake_up app wake st) = log st) as Hlog by by destruct wake.
    intros Hrun.
    eapply run_prog_follows in Hrun; [|done| |done|by rewrite Hlog].
    + destruct Hrun as (? & Hsub & ?). split_and!; [done| |done].
      by rewrite <- Hlog.
    + by intros [].
Qed.

Lemma resume_follows (stack : Stack) st st' r :
  good n st → Forall (frame_ok (log st)) stack →
  resume app url stack st = (st', r) → follows n st st' r.
Proof.
  revert st st' r. induction stack as [|f fs IH]; intros st st' r Hgood Hok.
  - simpl. intros [= <- <-]. by split_and!.
  - simpl. apply Forall_cons in Hok as [Hf Hfs].
    destruct (resume_frame app url f st) as [st1 r1] eqn:Hframe.
    apply resume_frame_follows in Hframe as Hstep; [|done|done].
    destruct Hstep as (Hgood1 & Hsub1 & Hok1).
    assert (Forall (frame_ok (log st1)) fs) as Hfs1
      by by eapply stack_ok_mono.
    destruct r1 as [|stack'|].
    + intros Hrun. apply IH in Hrun; [|done|done].
      eapply follows_trans; [|done]. by split_and!.
    + intros [= <- <-]. split_and!; [done|done|].
      apply Forall_app. by split.
    + intros [= <- <-]. by split_and!.
Qed.

(** Whatever the schedule, the log of a request satisfies the
    invariant. *)
Lemma event_loop_causal schedule root st :
  good n st → status_ok (log st) root →
  causal n (log_of (event_loop app url schedule root st))
  ∧ log st ⊆ log_of (event_loop app url schedule root st).
Proof.
  revert root st. induction schedule as [|turn schedule IH];
    intros root st Hgood Hroot.
  - destruct root; simpl; by destruct Hgood.
  - destruct root as [|stack|]; simpl; [by destruct Hgood| |by destruct Hgood].
    destruct turn as [|turn].
    + destruct (resume app url stack st) as [st1 r1] eqn:Hresume.
      apply resume_follows in Hresume as (Hgood1 & Hsub1 & Hok1);
        [|done|done].
      destruct (IH r1 st1 Hgood1 Hok1) as [Hcausal Hsub].
      split; [done|]. by etrans.
    + destruct (pending st !! turn) as [bg|] eqn:Hbg; [|by apply IH].
      destruct (resume app url bg _) as [st1 r1] eqn:Hresume.
      apply resume_follows in Hresume as Hstep.
      * apply follows_detach in Hstep as (Hgood1 & Hsub1 & _).
        simpl in Hsub1.
        destruct (IH (Suspended stack) (detach r1 st1) Hgood1) as [Hc Hs].
        { simpl. eapply stack_ok_mono; [|done]. by destruct r1. }
        split; [done|]. etrans; [|done]. by destruct r1.
      * destruct Hgood as [Hcausal Hpending]. split; [done|]. simpl.
        apply Forall_forall. intros stack' Hin.
        rewrite Forall_forall in Hpending. apply Hpending.
        apply list_elem_of_lookup in Hin as [i Hi].
        rewrite list_lookup_delete in Hi.
        apply list_elem_of_lookup. case_decide; by eexists.
      * simpl. destruct Hgood as [_ Hpending].
        rewrite Forall_forall in Hpending. apply Hpending.
        by eapply list_elem_of_lookup_2.
Qed.

End DispatcherFacts.

(** ** The dispatcher: one request *)

Lemma or_else_again x : JS.or_else (Some (JS.or_else x "GET")) "GET"
                        = JS.or_else x "GET".
Proof.
  destruct x as [s|]; simpl; [|done].
  destruct (String.eqb_spec s "") as [->|Hs]; [done|].
  simpl. by destruct (String.eqb_spec s "").
Qed.

Section Requests.

Context `{Runtime}.
Variable app : Bonfire.
Variable raw : IncomingMessage.

Lemma initial_good st :
  log st = [] → pending st = [] → good (length (middlewares app)) st.
Proof.
  intros Hlog Hpending. split.
  - rewrite Hlog. apply causal_nil.
  - by rewrite Hpending.
Qed.

Lemma handleRequest_causal schedule :
  causal (length (middlewares app))
    (log_of (handleRequest app raw schedule)).
Proof.
  unfold handleRequest.
  destruct (executeMiddleware _ _ _ _) as [st1 r1] eqn:Hrun.
  apply executeMiddleware_follows in Hrun as (Hgood & _ & Hok);
    [|lia|by apply initial_good|done].
  by apply event_loop_causal.
Qed.

End Requests.

(** ** The dispatcher: chains whose steps hand the request over *)

Section HandingOver.

Context `{Runtime}.
Variable app : Bonfire.
Variable raw : IncomingMessage.
Variable e : End.

Local Abbreviation n := (length (middlewares app)).
Local Abbreviation url := (JS.or_else (im_url raw) "/").
Local Abbreviation stop := (length (in_front app e)).
Local Abbreviation ordered := (steps_in_order raw (running app e)).
Local Abbreviation later index :=
  (steps_synchronous raw (drop index (running app e))).

Hypothesis front_hands_over : steps_hand_over raw (in_front app e).
Hypothesis end_exists :
  match e with
  | AtStep k => (k < n)%nat
  | AtFallback =>
      Router.handler
        (Router.match_ (router app) (JS.or_else (im_method raw) "GET") url)
      = None
  end.

(** The two ends. *)
Lemma end_cases :
  (∃ k, e = AtStep k ∧ stop = k ∧ (k < n)%nat)
  ∨ (e = AtFallback
     ∧ stop = n
     ∧ Router.handler
         (Router.match_ (router app) (JS.or_else (im_method raw) "GET") url)
       = None).
Proof.
  generalize end_exists. destruct e as [k|]; intros Hend; [left|by right].
  exists k. split_and!; [done| |done]. simpl. rewrite length_take. lia.
Qed.

Lemma stop_at k : e = AtStep k → stop = k.
Proof.
  intros He. destruct end_cases as [(k' & He' & Hstop & _)|(He' & _)];
    congruence.
Qed.

Lemma stop_le : (stop ≤ n)%nat.
Proof. destruct e; simpl; [rewrite length_take; lia|done]. Qed.

(** A step in front of the end is a step of the application and one
    of those that run. *)
Lemma in_front_lookup j :
  (j < stop)%nat →
  ∃ mw, in_front app e !! j = Some mw
        ∧ middlewares app !! j = Some mw
        ∧ running app e !! j = Some mw.
Proof.
  intros Hj. destruct (lookup_lt_is_Some_2 (in_front app e) j Hj) as [mw Hmw].
  exists mw. split; [done|]. destruct e as [k|]; simpl in *; [|done].
  rewrite length_take in Hj.
  rewrite lookup_take_lt in Hmw by lia.
  split; [done|]. rewrite lookup_take_lt by lia. done.
Qed.

Lemma escapes_mono (events events' : list Event) :
  events ⊆ events' → escapes e events → escapes e events'.
Proof. intros Hsub. destruct e; simpl; [apply Hsub|done]. Qed.

Lemma ended_mono (events events' : list Event) :
  events ⊆ events' → ended e events → ended e events'.
Proof.
  intros Hsub. destruct e; simpl; [|apply Hsub].
  intros [rc Hrc]. exists rc. by apply Hsub.
Qed.

(** The events of a step in front of the end leave the end where it
    is. *)
Lemma ended_cons ev events :
  match ev with
  | Enter _ | CallNext _ => True
  | Leave (Step j) _ => (j < stop)%nat
  | Leave RouteHandler _ | NotFound => False
  end →
  ended e (ev :: events) → ended e events.
Proof.
  pose proof stop_at as Hstop. revert Hstop.
  destruct e as [k|]; intros Hstop Hev; simpl.
  - specialize (Hstop k eq_refl).
    intros [rc [<-|Hin]%elem_of_cons]; [lia|by exists rc].
  - intros [<-|Hin]%elem_of_cons; done.
Qed.

Lemma answered_record ev st :
  match ev with
  | Enter _ | CallNext _ => True
  | Leave (Step j) _ => (j < stop)%nat
  | Leave RouteHandler _ | NotFound => False
  end →
  answered e st → answered e (record ev st).
Proof.
  pose proof stop_at as Hstop. revert Hstop.
  destruct e as [k|]; intros Hstop Hev; simpl.
  - specialize (Hstop k eq_refl).
    intros Hans rc [<-|Hin]%elem_of_cons; [lia|by apply Hans].
  - intros Hans [<-|Hin]%elem_of_cons; [done|by apply Hans].
Qed.

Lemma unhandled_cons ev events :
  ev ≠ Enter RouteHandler → unhandled e events → unhandled e (ev :: events).
Proof.
  intros Hev. destruct e; simpl; [done|].
  intros Hun [Heq|Hin]%elem_of_cons; [by apply Hev|by apply Hun].
Qed.

(** Before the end, the Response Context answers nothing yet. *)
Lemma not_ended_answered st : ¬ ended e (log st) → answered e st.
Proof.
  destruct e; simpl.
  - intros Hnot rc Hrc. destruct Hnot. by exists rc.
  - done.
Qed.

Lemma under_way_record ev st :
  match ev with
  | Enter (Step _) | CallNext _ => True
  | Enter RouteHandler | Leave _ _ | NotFound => False
  end →
  under_way raw e st → under_way raw e (record ev st).
Proof.
  intros Hev (Hpending & Hnot & Hreq & Hun). split_and!; [done| |done|].
  - intros Hend. apply Hnot. revert Hend. apply ended_cons.
    by destruct ev as [[]| | |].
  - apply unhandled_cons; [|done]. by destruct ev as [[]| | |].
Qed.

Lemma under_way_same st st' :
  log st' = log st → pending st' = pending st → req st' = req st →
  under_way raw e st → under_way raw e st'.
Proof.
  intros Hlog Hpending Hreq (? & ? & [body ?] & ?).
  unfold under_way, of_request. rewrite Hlog, Hpending, Hreq.
  split_and!; [done|done|by exists body|done].
Qed.

Lemma under_way_body v st :
  under_way raw e st →
  under_way raw e (set_req (RequestContext.set_body v (req st)) st).
Proof.
  intros (? & ? & [body Hbody] & ?). split_and!; [done|done| |done].
  exists v. simpl. by rewrite Hbody.
Qed.

Section EndStep.

Variable k : nat.
Variable next : unit → State → State * Status.

Hypothesis at_step : e = AtStep k.
Hypothesis next_follows :
  ∀ x st st' r,
    good n st → CallNext (Step k) ∈ log st → next x st = (st', r) →
    follows n st st' r.

(** The step at the end: unless it calls [next()], it returns with
    the Response Context that the log records, or it waits. *)
Lemma run_end_step p st st' r :
  good n st → Enter (Step k) ∈ log st → under_way raw e st →
  run_prog app next (Step k) (StepFrame k) p st = (st', r) →
  escapes e (log st')
  ∨ (on_course app raw e st' r ∧ (synchronous p → r = Completed)).
Proof.
  revert st. induction p as [|op p IH|v p IH|x awaited p IH|p IH|];
    intros st Hgood Hme Hway; simpl.
  - intros [= <- <-]. right. split; [|done].
    destruct Hway as (Hpending & Hnot & Hreq & Hun).
    split; [by apply unhandled_cons|].
    rewrite at_step in Hnot. rewrite at_step. simpl.
    split; [|intros _; eexists; by apply elem_of_cons; left].
    intros rc [[= ->]|Hin]%elem_of_cons; [done|].
    destruct Hnot. by exists rc.
  - destruct (is_render op) eqn:Hrender.
    + intros [= <- <-]. right. split; [|by intros [? _]; congruence].
      destruct Hway as (Hpending & Hnot & Hreq & Hun).
      split; [done|]. split_and!; [done|done|done|].
      split; [by right|done].
    + intros Hrun. apply IH in Hrun as [Hesc|[Hcourse Hsync]].
      * by left.
      * right. split; [done|]. intros [_ Hp]. by apply Hsync.
      * by eapply good_same_log.
      * done.
      * by eapply under_way_same.
  - intros Hrun. apply IH in Hrun as [Hesc|[Hcourse Hsync]].
    + by left.
    + right. split; [done|]. done.
    + by eapply good_same_log.
    + done.
    + by apply under_way_body.
  - intros Hrun. left. rewrite at_step. simpl.
    eapply (run_prog_call_logged app next (Step k) (StepFrame k));
      [|exact next_follows|exact Hgood|exact Hme|exact Hrun].
    done.
  - intros [= <- <-]. right. split; [|done].
    destruct Hway as (Hpending & Hnot & Hreq & Hun).
    split; [done|]. split_and!; [done|done|done|].
    split; [by right|done].
  - intros [= <- <-]. right. split; [|done].
    destruct Hway as (Hpending & Hnot & Hreq & Hun). by split.
Qed.

End EndStep.

Section FrontStep.

Variable j : nat.
Variable next : unit → State → State * Status.

Hypothesis in_front_of_end : (j < stop)%nat.
Hypothesis next_follows :
  ∀ x st st' r,
    good n st → CallNext (Step j) ∈ log st → next x st = (st', r) →
    follows n st st' r.
Hypothesis next_on_course :
  ∀ st st' r,
    good n st → CallNext (Step j) ∈ log st → under_way raw e st →
    next tt st = (st', r) →
    escapes e (log st')
    ∨ (on_course app raw e st' r ∧ (later (S j) → r = Completed)).

(** A step in front of the end: it hands the request to the rest of
    the chain and stands as the rest does. *)
Lemma run_front_step p st st' r :
  hands_over p →
  (ordered → awaits_next p ∨ later (S j)) →
  good n st → Enter (Step j) ∈ log st → under_way raw e st →
  run_prog app next (Step j) (StepFrame j) p st = (st', r) →
  escapes e (log st')
  ∨ (on_course app raw e st' r
     ∧ (synchronous p → later (S j) → r = Completed)).
Proof.
  revert st. induction p as [|op p IH|v p IH|x awaited p IH|p IH|];
    intros st Hover Horder Hgood Hme Hway; simpl in Hover; try done.
  - simpl. destruct (is_render op) eqn:Hrender.
    + intros [= <- <-]. right. split; [|by intros [? _]; congruence].
      destruct Hway as (Hpending & Hnot & Hreq & Hun).
      split; [done|]. split_and!; [done|done|done|].
      split; [|done]. left. by split_and!.
    + intros Hrun. apply IH in Hrun as [Hesc|[Hcourse Hsync]].
      * by left.
      * right. split; [done|]. intros [_ Hp]. by apply Hsync.
      * done.
      * done.
      * by eapply good_same_log.
      * done.
      * by eapply under_way_same.
  - simpl. intros Hrun. apply IH in Hrun as [Hesc|[Hcourse Hsync]].
    + by left.
    + right. by split.
    + done.
    + done.
    + by eapply good_same_log.
    + done.
    + by apply under_way_body.
  - destruct p; try done. destruct x. clear IH. simpl.
    destruct (next () (record (CallNext (Step j)) st)) as [st1 r1] eqn:Hnext.
    pose proof (good_record app (CallNext (Step j)) st Hgood Hme)
      as (Hgood0 & Hsub0 & _).
    assert (CallNext (Step j) ∈ log (record (CallNext (Step j)) st)) as Hcall
      by by apply elem_of_cons; left.
    pose proof (next_follows _ _ _ _ Hgood0 Hcall Hnext)
      as (Hgood1 & Hsub1 & Hok1).
    apply next_on_course in Hnext as Hstands;
      [|done|done|by apply under_way_record].
    assert (∀ ev, log st1 ⊆ ev :: log st1) as Hmore.
    { intros ev x Hx. by apply elem_of_cons; right. }
    destruct Hstands as [Hesc|[[Hun Hcourse] Hsync]].
    { intros Hrun. left.
      destruct awaited; [destruct r1|]; injection Hrun as <- <-; try done;
        simpl; eapply escapes_mono; try exact Hesc; try apply Hmore.
      destruct r1; simpl; apply Hmore. }
    intros Hrun. right. destruct awaited.
    + destruct r1 as [|stack|]; injection Hrun as <- <-.
      * destruct Hcourse as [Hans Hend]. split; [|done].
        split; [by apply unhandled_cons|]. split.
        -- by apply answered_record.
        -- intros Hord. eapply ended_mono; [apply Hmore|by apply Hend].
      * destruct Hcourse as (Hpending & Hnot & Hreq & Hlive).
        split; [|intros _ Hlater; by specialize (Hsync Hlater)].
        split; [done|]. split_and!; [done|done|done|].
        destruct stack as [|f tail]; [done|]. destruct Hlive as [Hf Htail].
        split; [done|]. apply Forall_app. split; [done|].
        apply Forall_singleton. by exists j.
      * split; [|intros _ Hlater; by specialize (Hsync Hlater)].
        by split.
    + injection Hrun as <- <-. split; [|done].
      assert (log (detach r1 st1) = log st1) as Hlog by by destruct r1.
      assert (res (detach r1 st1) = res st1) as Hres by by destruct r1.
      split.
      { apply unhandled_cons; [done|]. by rewrite Hlog. }
      split.
      * apply answered_record; [done|].
        assert (answered e st1) as Hans.
        { destruct r1 as [|stack|].
          - by destruct Hcourse.
          - apply not_ended_answered. by destruct Hcourse as (_ & ? & _).
          - by apply not_ended_answered. }
        destruct e; simpl in *; by rewrite Hlog, Hres.
      * intros Hord. destruct (Horder Hord) as [[? _]|Hlater]; [done|].
        specialize (Hsync Hlater). subst r1. destruct Hcourse as [_ Hend].
        simpl. eapply ended_mono; [apply Hmore|by apply Hend].
  - simpl. intros [= <- <-]. right. split; [|done].
    destruct Hway as (Hpending & Hnot & Hreq & Hun).
    split; [done|]. split_and!; [done|done|done|].
    split; [|done]. left. by split_and!.
Qed.

End FrontStep.

(** The fallback, when no route matches. *)
Lemma dispatch_fallback st st' r :
  e = AtFallback →
  under_way raw e st →
  dispatch app url st = (st', r) →
  on_course app raw e st' r ∧ r = Completed.
Proof.
  intros He (Hpending & Hnot & [body Hreq] & Hun). unfold dispatch.
  destruct end_cases as [(k & He' & _)|(_ & _ & Hnone)]; [congruence|].
  rewrite Hreq. cbn [RequestContext.method RequestContext.set_body
                     requestContext].
  rewrite or_else_again, Hnone. intros [= <- <-].
  split; [|done]. rewrite He in Hun. rewrite He. simpl in Hun. simpl. split.
  - intros [?|Hin]%elem_of_cons; [done|by apply Hun].
  - split; [done|]. intros _. by apply elem_of_cons; left.
Qed.

(** The chain from [index] on. *)
Lemma executeMiddleware_on_course (d index : nat) st st' r :
  index + d = stop →
  good n st → (∀ j, S j = index → CallNext (Step j) ∈ log st) →
  under_way raw e st →
  executeMiddleware app url index st = (st', r) →
  escapes e (log st')
  ∨ (on_course app raw e st' r ∧ (later index → r = Completed)).
Proof.
  revert index st st' r.
  induction d as [|d IH]; intros index st st' r Hd Hgood Hprev Hway.
  - rewrite Nat.add_0_r in Hd.
    destruct end_cases as [(k & He & Hstop & Hk)|(He & Hstop & Hnone)].
    + assert (index = k) as -> by lia.
      destruct (lookup_lt_is_Some_2 (middlewares app) k Hk) as [mw Hmw].
      unfold executeMiddleware. rewrite (drop_S _ _ _ Hmw).
      cbn [executeMiddleware_from]. intros Hrun.
      destruct (good_record app (Enter (Step k)) st Hgood)
        as (Hgood' & _ & _); [by split|].
      eapply run_end_step in Hrun as [Hesc|[Hcourse Hsync]];
        [by left| |exact He| |exact Hgood'|by apply elem_of_cons; left
         |by apply under_way_record].
      * right. split; [done|]. intros Hlater. apply Hsync.
        destruct Hway as (_ & _ & [body Hreq] & _).
        cbn [req record]. rewrite Hreq. apply Hlater.
        apply (list_elem_of_lookup_2 _ 0). rewrite lookup_drop, Nat.add_0_r.
        rewrite He. simpl. rewrite lookup_take_lt by lia. done.
      * intros [] st0 st0' r0 Hgood0 Hcall.
        apply executeMiddleware_from_follows; [|done|by intros j [= ->]].
        rewrite length_drop. lia.
    + assert (index = n) as -> by lia.
      unfold executeMiddleware. rewrite drop_all. cbn [executeMiddleware_from].
      intros Hrun. right.
      apply dispatch_fallback in Hrun as [Hcourse ->]; done.
  - assert (index < stop)%nat as Hlt by lia.
    destruct (in_front_lookup index Hlt) as (mw & Hfront & Hmw & Hrunning).
    unfold executeMiddleware. rewrite (drop_S _ _ _ Hmw).
    cbn [executeMiddleware_from]. intros Hrun.
    pose proof stop_le as Hle.
    destruct (good_record app (Enter (Step index)) st Hgood)
      as (Hgood' & _ & _); [split; [lia|done]|].
    destruct Hway as (Hpending & Hnot & [body Hreq] & Hun).
    assert (under_way raw e st) as Hway by (split_and!; by try exists body).
    eapply (run_front_step index) in Hrun as [Hesc|[Hcourse Hsync]];
      [by left| |exact Hlt| | | | |exact Hgood'|by apply elem_of_cons; left
       |by apply under_way_record].
    + right. split; [done|]. intros Hlater. apply Hsync.
      * cbn [req record]. rewrite Hreq. apply Hlater.
        apply (list_elem_of_lookup_2 _ 0). by rewrite lookup_drop, Nat.add_0_r.
      * intros mw' body' Hin. apply Hlater.
        apply list_elem_of_lookup in Hin as [i Hi].
        rewrite lookup_drop in Hi.
        apply (list_elem_of_lookup_2 _ (S i)). rewrite lookup_drop.
        by replace (index + S i) with (S index + i) by lia.
    + intros [] st0 st0' r0 Hgood0 Hcall.
      apply executeMiddleware_from_follows; [|done|by intros j [= ->]].
      rewrite length_drop. lia.
    + intros st0 st0' r0 Hgood0 Hcall Hway0 Hnext.
      eapply (IH (S index));
        [lia|exact Hgood0|by intros j' [= ->]|exact Hway0|exact Hnext].
    + cbn [req record]. rewrite Hreq. apply front_hands_over.
      by eapply list_elem_of_lookup_2.
    + cbn [req record]. rewrite Hreq. intros Hord. by apply Hord.
Qed.

(** Waking the step that the chain waits for. *)
Lemma resume_frame_on_course f st st' r :
  ahead app raw e f →
  good n st → frame_ok (log st) f → under_way raw e st →
  resume_frame app url f st = (st', r) →
  escapes e (log st') ∨ on_course app raw e st' r.
Proof.
  intros Hahead Hgood Hok Hway.
  destruct f as [index wake p|wake p]; [|done]. simpl in *.
  assert (good n (wake_up app wake st)) as Hgood'.
  { destruct wake; [by eapply good_same_log|done]. }
  assert (under_way raw e (wake_up app wake st)) as Hway'.
  { destruct wake; [by eapply under_way_same|done]. }
  assert (Enter (Step index) ∈ log (wake_up app wake st)) as Hme
    by by destruct wake.
  pose proof stop_le as Hle.
  destruct Hahead as [(Hlt & Hover & Horder)|He].
  - intros Hrun.
    eapply (run_front_step index) in Hrun as [Hesc|[Hcourse _]];
      [by left|by right|exact Hlt| | |exact Hover|exact Horder
       |exact Hgood'|exact Hme|exact Hway'].
    + intros [] st0 st0' r0 Hgood0 Hcall.
      apply executeMiddleware_follows; [lia|done|by intros j [= ->]].
    + intros st0 st0' r0 Hgood0 Hcall Hway0 Hnext.
      eapply (executeMiddleware_on_course (stop - S index) (S index));
        [lia|exact Hgood0|by intros j' [= ->]|exact Hway0|exact Hnext].
  - intros Hrun.
    assert (index < n)%nat as Hk.
    { destruct end_cases as [(k & He' & _ & Hk)|(He' & _)]; [|congruence].
      by assert (index = k) as -> by congruence. }
    eapply (run_end_step index) in Hrun as [Hesc|[Hcourse _]];
      [by left|by right|exact He| |exact Hgood'|exact Hme|exact Hway'].
    intros [] st0 st0' r0 Hgood0 Hcall.
    apply executeMiddleware_follows; [lia|done|by intros j [= ->]].
Qed.

(** The steps that wait behind return one after the other. *)
Lemma resume_behind (tail : Stack) st st' r :
  Forall (behind app e) tail →
  resume app url tail st = (st', r) →
  r = Completed
  ∧ log st ⊆ log st'
  ∧ (answered e st → answered e st')
  ∧ (unhandled e (log st) → unhandled e (log st')).
Proof.
  revert st. induction tail as [|f tail IH]; intros st Htail; simpl.
  - by intros [= <- <-].
  - apply Forall_cons in Htail as [(index & Hindex & ->) Htail]. simpl.
    intros Hrun. apply IH in Hrun as (-> & Hsub & Hans & Hun); [|done].
    split_and!; [done| | |].
    + intros x Hx. apply Hsub. by apply elem_of_cons; right.
    + intros Hst. apply Hans. by apply answered_record.
    + intros Hst. apply Hun. by apply unhandled_cons.
Qed.

(** Waking the chain. *)
Lemma resume_on_course (stack : Stack) st st' r :
  live app raw e stack →
  good n st → Forall (frame_ok (log st)) stack → under_way raw e st →
  resume app url stack st = (st', r) →
  escapes e (log st') ∨ on_course app raw e st' r.
Proof.
  destruct stack as [|f tail]; [done|].
  intros [Hahead Htail] Hgood [Hf Hfs]%Forall_cons Hway. simpl.
  destruct (resume_frame app url f st) as [st1 r1] eqn:Hframe.
  apply resume_frame_on_course in Hframe as Hstands; [|done|done|done|done].
  destruct r1 as [|stack'|].
  - intros Hrun.
    apply resume_behind in Hrun as (-> & Hsub & Hans & Hun); [|done].
    destruct Hstands as [Hesc|[Hun1 [Hans1 Hend1]]].
    + left. by eapply escapes_mono.
    + right. split; [by apply Hun|]. split; [by apply Hans|].
      intros Hord. eapply ended_mono; [done|by apply Hend1].
  - intros [= <- <-]. destruct Hstands as [Hesc|[Hun1 Hcourse]]; [by left|].
    right. destruct Hcourse as (Hpending & Hnot & Hreq & Hlive).
    split; [done|]. split_and!; [done|done|done|].
    destruct stack' as [|f' tail']; [done|]. destruct Hlive as [Hf' Htail'].
    split; [done|]. apply Forall_app. by split.
  - intros [= <- <-]. destruct Hstands as [Hesc|Hcourse]; [by left|by right].
Qed.

(** Whatever the schedule: once the end is reached the response is
    written and is what the end has left; and in a chain that is in
    order no response is written before. *)
Lemma event_loop_on_course schedule root st :
  good n st → status_ok (log st) root → on_course app raw e st root →
  let out := event_loop app url schedule root st in
  escapes e (log_of out)
  ∨ (unhandled e (log_of out)
     ∧ (ended e (log_of out) →
        ∃ st', out = Flushed (flush (res st')) st' ∧ answered e st')
     ∧ (ordered → is_Some (response_of out) → ended e (log_of out))).
Proof.
  revert root st. induction schedule as [|turn schedule IH];
    intros root st Hgood Hok [Hun Hcourse].
  - right. destruct root as [|stack|]; simpl.
    + destruct Hcourse as [Hans Hend]. split_and!; [done| |by intros ? _; auto].
      intros _. by exists st.
    + destruct Hcourse as (_ & Hnot & _). split_and!; [done|done|].
      by intros _ [? ?].
    + split_and!; [done|done|]. by intros _ [? ?].
  - destruct root as [|stack|]; cbn [event_loop].
    + right. destruct Hcourse as [Hans Hend].
      split_and!; [done| |by intros ? _; auto]. intros _. by exists st.
    + destruct Hcourse as (Hpending & Hnot & Hreq & Hlive).
      destruct turn as [|turn].
      * destruct (resume app url stack st) as [st1 r1] eqn:Hresume.
        pose proof (resume_follows app url stack st st1 r1 Hgood Hok Hresume)
          as (Hgood1 & Hsub1 & Hok1).
        apply resume_on_course in Hresume as [Hesc|Hcourse1];
          [|by apply IH|done|done|done|by split_and!].
        left. eapply escapes_mono; [|done].
        by apply event_loop_causal.
      * rewrite Hpending. cbn [lookup list_lookup]. rewrite lookup_nil.
        apply IH; [done|done|]. by split.
    + right. split_and!; [done|done|]. by intros _ [? ?].
Qed.

(** The chain of a request, from its first step on. *)
Lemma handleRequest_on_course (schedule : list nat) :
  let out := handleRequest app raw schedule in
  escapes e (log_of out)
  ∨ (unhandled e (log_of out)
     ∧ (ended e (log_of out) →
        ∃ st', out = Flushed (flush (res st')) st' ∧ answered e st')
     ∧ (ordered → is_Some (response_of out) → ended e (log_of out))
     ∧ (later 0 →
        ∃ st', out = Flushed (flush (res st')) st' ∧ ended e (log st'))).
Proof.
  unfold handleRequest.
  set (st0 := {| res := ResponseContext.initial; req := _; log := [];
                 pending := [] |}).
  assert (good n st0) as Hgood0 by (by apply initial_good).
  assert (under_way raw e st0) as Hway0.
  { split_and!; [done| |by exists JNull|].
    - destruct e; simpl; [intros [rc Hin]|intros Hin];
        by apply elem_of_nil in Hin.
    - destruct e; simpl; [done|]. intros Hin. by apply elem_of_nil in Hin. }
  destruct (executeMiddleware app url 0 st0) as [st1 r1] eqn:Hrun.
  pose proof stop_le as Hle.
  pose proof (executeMiddleware_follows app url 0 st0 st1 r1
                ltac:(lia) Hgood0 ltac:(done) Hrun)
    as (Hgood1 & Hsub1 & Hok1).
  apply (executeMiddleware_on_course stop 0) in Hrun
    as [Hesc|[Hcourse Hsync]]; [| |lia|done|done|done].
  - left. eapply escapes_mono; [|done]. by apply event_loop_causal.
  - destruct (event_loop_on_course schedule r1 st1 Hgood1 Hok1 Hcourse)
      as [Hesc|(Hun & Hend & Hord)]; [by left|].
    right. split_and!; [done|done|done|].
    intros Hlater. specialize (Hsync Hlater). subst r1.
    destruct Hcourse as [_ [_ Hended]].
    exists st1. split; [by destruct schedule|]. apply Hended.
    intros i mw body Hmw. right. intros mw' body' Hin. apply Hlater.
    rewrite drop_0. by eapply subseteq_drop.
Qed.

End HandingOver.

Section Ends.

Context `{Runtime}.
Variable app : Bonfire.
Variable raw : IncomingMessage.



End Ends.

(** ** The dispatcher: chains that wait for [next()] *)

Section AwaitedChains.

Context `{Runtime}.
Variable app : Bonfire.
Variable url : string.

Hypothesis steps_await :
  ∀ mw req, mw ∈ middlewares app → awaits_next (mw req).

Lemma settled_mono events active active' :
  settled events active → active ⊆ active' → settled events active'.
Proof.
  intros Hsettled Hsub w Hw. destruct (Hsettled w Hw) as [?|?]; [by left|].
  right. by apply Hsub.
Qed.

Lemma settled_enter events active w :
  settled events active → settled (Enter w :: events) (w :: active).
Proof.
  intros Hsettled w' [[= ->]|Hw']%elem_of_cons.
  - right. by apply elem_of_cons; left.
  - destruct (Hsettled w' Hw') as [[rc Hrc]|?].
    + left. exists rc. by apply elem_of_cons; right.
    + right. by apply elem_of_cons; right.
Qed.

Lemma settled_leave events active w rc :
  settled events (w :: active) → settled (Leave w rc :: events) active.
Proof.
  intros Hsettled w' [?|Hw']%elem_of_cons; [done|].
  destruct (Hsettled w' Hw') as [[rc' Hrc']|[->|?]%elem_of_cons].
  - left. exists rc'. by apply elem_of_cons; right.
  - left. exists rc. by apply elem_of_cons; left.
  - by right.
Qed.

Lemma settled_other events active e :
  (∀ w, e ≠ Enter w) →
  settled events active → settled (e :: events) active.
Proof.
  intros He Hsettled w [?|Hw]%elem_of_cons; [by destruct (He w)|].
  destruct (Hsettled w Hw) as [[rc Hrc]|?]; [|by right].
  left. exists rc. by apply elem_of_cons; right.
Qed.

Lemma handler_awaits (p : Prog Empty_set) : awaits_next p.
Proof. induction p as [| | |[]| |]; by simpl. Qed.

Section Activation.

Context {N : Type}.
Variable next : N → State → State * Status.
Variable me : Who.
Variable frame : option ResponseContext.Op → Prog N → Frame.

Hypothesis frame_owner : ∀ wake k, owner (frame wake k) = me.
Hypothesis frame_body :
  ∀ wake k, awaits_next k → frame_awaits (frame wake k).
Hypothesis next_awaited :
  ∀ x st st' r active,
    pending st = [] → settled (log st) active →
    next x st = (st', r) → awaited active st' r.

Lemma run_prog_awaited p st st' r active :
  awaits_next p →
  pending st = [] → settled (log st) (me :: active) →
  run_prog app next me frame p st = (st', r) →
  awaited active st' r.
Proof.
  revert st st' r.
  induction p as [|op k IH|v k IH|x waits k IH|k IH|];
    intros st st' r Hp Hpending Hsettled; simpl in Hp; simpl.
  - intros [= <- <-]. split; [done|]. by apply settled_leave.
  - destruct (is_render op).
    + intros [= <- <-]. split; [done|]. split.
      * simpl. rewrite frame_owner. eapply settled_mono; [done|].
        intros w [->|?]%elem_of_cons; apply elem_of_app;
          [right; by apply elem_of_cons; left|by left].
      * apply Forall_singleton. by apply frame_body.
    + by apply IH.
  - by apply IH.
  - destruct Hp as [-> Hk].
    destruct (next x (record (CallNext me) st)) as [st1 r1] eqn:Hnext.
    apply (next_awaited _ _ _ _ (me :: active)) in Hnext
      as [Hpending1 Hsettled1];
      [|done|by apply settled_other].
    destruct r1 as [|stack|].
    + by apply IH.
    + intros [= <- <-]. destruct Hsettled1 as [Hsettled1 Hstack].
      split; [done|]. split.
      * rewrite fmap_app. simpl. rewrite frame_owner.
        eapply settled_mono; [done|].
        intros w. rewrite !elem_of_app, !elem_of_cons, elem_of_nil. tauto.
      * apply Forall_app. split; [done|].
        apply Forall_singleton. by apply frame_body.
    + by intros [= <- <-].
  - intros [= <- <-]. split; [done|]. split.
    + simpl. rewrite frame_owner. eapply settled_mono; [done|].
      intros w. rewrite !elem_of_app, !elem_of_cons, elem_of_nil. tauto.
    + apply Forall_singleton. by apply frame_body.
  - by intros [= <- <-].
Qed.

End Activation.

Lemma dispatch_awaited st st' r active :
  pending st = [] → settled (log st) active →
  dispatch app url st = (st', r) → awaited active st' r.
Proof.
  intros Hpending Hsettled. unfold dispatch.
  destruct (Router.handler _) as [h|].
  - apply run_prog_awaited; [done|done|by intros []| |done|].
    + apply handler_awaits.
    + by apply settled_enter.
  - intros [= <- <-]. split; [done|]. by apply settled_other.
Qed.

Lemma executeMiddleware_from_awaited rest index st st' r active :
  rest ⊆ middlewares app →
  pending st = [] → settled (log st) active →
  executeMiddleware_from app url rest index st = (st', r) →
  awaited active st' r.
Proof.
  revert index st st' r active.
  induction rest as [|mw rest IH]; intros index st st' r active Hrest.
  - apply dispatch_awaited.
  - intros Hpending Hsettled. simpl.
    apply run_prog_awaited; [done|done| | |done|by apply settled_enter].
    + intros [] st0 st0' r0 active0. apply IH.
      intros mw' Hmw'. apply Hrest. by apply elem_of_cons; right.
    + apply steps_await, Hrest. by apply elem_of_cons; left.
Qed.

Lemma executeMiddleware_awaited index st st' r active :
  pending st = [] → settled (log st) active →
  executeMiddleware app url index st = (st', r) →
  awaited active st' r.
Proof.
  apply executeMiddleware_from_awaited, subseteq_drop.
Qed.

Lemma resume_frame_awaited f st st' r active :
  frame_awaits f →
  pending st = [] → settled (log st) (owner f :: active) →
  resume_frame app url f st = (st', r) →
  awaited active st' r.
Proof.
  intros Hf Hpending Hsettled.
  destruct f as [index wake k|wake k]; simpl in *.
  - apply run_prog_awaited; [done|done| |done|by destruct wake|by destruct wake].
    intros [] st0 st0' r0 active0. apply executeMiddleware_awaited.
  - apply run_prog_awaited;
      [done|done|by intros []|done|by destruct wake|by destruct wake].
Qed.

Lemma resume_awaited (stack : Stack) st st' r active :
  Forall frame_awaits stack →
  pending st = [] → settled (log st) (active ++ (owner <$> stack)) →
  resume app url stack st = (st', r) →
  awaited active st' r.
Proof.
  revert st st' r.
  induction stack as [|f fs IH]; intros st st' r Hstack Hpending Hsettled.
  - simpl. intros [= <- <-]. split; [done|].
    simpl in Hsettled. by rewrite app_nil_r in Hsettled.
  - simpl. apply Forall_cons in Hstack as [Hf Hfs].
    destruct (resume_frame app url f st) as [st1 r1] eqn:Hframe.
    apply (resume_frame_awaited _ _ _ _ (active ++ (owner <$> fs)))
      in Hframe as [Hpending1 Hsettled1]; [|done|done|].
    2:{ eapply settled_mono; [done|]. intros w.
        rewrite fmap_cons, !elem_of_app, !elem_of_cons, !elem_of_app. tauto. }
    destruct r1 as [|stack'|].
    + by apply IH.
    + intros [= <- <-]. destruct Hsettled1 as [Hsettled1 Hstack'].
      split; [done|]. split.
      * rewrite fmap_app. eapply settled_mono; [done|]. intros w.
        rewrite !elem_of_app. tauto.
      * apply Forall_app. by split.
    + by intros [= <- <-].
Qed.

Lemma event_loop_awaited schedule root st response st' :
  awaited [] st root →
  event_loop app url schedule root st = Flushed response st' →
  pending st' = [] ∧ settled (log st') [].
Proof.
  revert root st.
  induction schedule as [|turn schedule IH]; intros root st [Hpending Hroot].
  - destruct root; simpl; [|done|done]. by intros [= <- <-].
  - destruct root as [|stack|]; simpl; [by intros [= <- <-]| |done].
    destruct Hroot as [Hsettled Hstack]. destruct turn as [|turn].
    + destruct (resume app url stack st) as [st1 r1] eqn:Hresume.
      apply (resume_awaited _ _ _ _ []) in Hresume; [|done|done|done].
      by apply IH.
    + rewrite Hpending. simpl. apply IH. by split.
Qed.

End AwaitedChains.

(** X9. When every step waits for its [next()], the response is written
    only once the whole chain has completed: every step and handler
    that was entered has returned, and no promise of a [next()] is
    left pending. *)
Theorem awaited_chain_completes `{Runtime} app raw schedule response st :
  (∀ mw req, mw ∈ middlewares app → awaits_next (mw req)) →
  handleRequest app raw schedule = Flushed response st →
  pending st = []
  ∧ ∀ w, Enter w ∈ log st → ∃ rc, Leave w rc ∈ log st.
Proof.
  intros Hawait. unfold handleRequest.
  destruct (executeMiddleware _ _ _ _) as [st1 r1] eqn:Hrun.
  apply (executeMiddleware_awaited app _ Hawait _ _ _ _ []) in Hrun.
  - intros Hloop.
    apply (event_loop_awaited app _ Hawait) in Hloop as [Hpending Hsettled];
      [|done].
    split; [done|]. intros w Hw.
    destruct (Hsettled w Hw) as [?|Hin]; [done|].
    by apply elem_of_nil in Hin.
  - done.
  - intros w Hw. by apply elem_of_nil in Hw.
Qed.

(** ** Requests that are not answered as the specification says *)

(** An event that does not occur in a log that is known in full. *)
Ltac absent :=
  let Hin := fresh "Hin" in
  intros Hin; vm_compute in Hin;
  repeat (apply elem_of_cons in Hin as [Hin|Hin]; [discriminate Hin|]);
  by apply elem_of_nil in Hin.

(** An event that occurs in a log that is known in full. *)
Ltac present :=
  vm_compute; repeat (first [by apply list_elem_of_here
                            | apply list_elem_of_further]).

Section JsonMiddlewareFacts.

Context `{Runtime}.
Variable app : Bonfire.
Variable raw : IncomingMessage.
Variable rest : list Middleware.

Hypothesis first_step : middlewares app = jsonMiddleware :: rest.
Hypothesis not_get : JS.or_else (im_method raw) "GET" ≠ "GET".
Hypothesis not_head : JS.or_else (im_method raw) "GET" ≠ "HEAD".
Hypothesis is_json :
  ∃ contentType,
    im_headers raw !! "content-type" = Some contentType
    ∧ JS.includes "application/json" contentType = true.
Hypothesis some_payload : im_payload raw ≠ "".
Hypothesis invalid : JSON_parse (im_payload raw) = None.

(** C8, on the code. A request with a JSON content type, a method
    other than [GET] and [HEAD] and a payload that is not valid JSON,
    with [jsonMiddleware] as first step: once the stream has ended the
    Response Context holds status 400 and the JSON error body, but the
    awaited promise is never settled, so whatever the event loop does
    no response is ever written. *)
Theorem invalid_json_is_never_answered (schedule : list nat) :
  response_of (handleRequest app raw schedule) = None
  ∧ ∃ st,
      handleRequest app raw (0 :: schedule) = Hangs st
      ∧ statusCode (res st) = 400%Z
      ∧ JSMap.get "Content-Type" (headers (res st)) = Some "application/json"
      ∧ responseBody (res st)
        = JSON_stringify (JObj [("error", JStr "Invalid JSON")])
      ∧ (CallNext (Step 0) ∉ log st).
Proof.
  unfold handleRequest, executeMiddleware. rewrite first_step, drop_0.
  cbn [executeMiddleware_from]. unfold jsonMiddleware.
  cbn [req RequestContext.method RequestContext.headers
       RequestContext.payload].
  destruct is_json as (contentType & -> & ->).
  destruct (String.eqb_spec (JS.or_else (im_method raw) "GET") "GET");
    [done|].
  destruct (String.eqb_spec (JS.or_else (im_method raw) "GET") "HEAD");
    [done|].
  destruct (String.eqb_spec (im_payload raw) ""); [done|].
  rewrite invalid. cbn [orb run_prog is_render].
  set (st := set_req _ _).
  assert (pending st = []) as Hpending by done.
  split.
  - clearbody st.
    induction schedule as [|[|turn] schedule IH]; [done| |].
    + simpl. by destruct schedule.
    + cbn [event_loop]. by rewrite Hpending.
  - eexists. split; [by destruct schedule|]. simpl.
    split_and!; [done|done|done|].
    intros Hin. apply elem_of_cons in Hin as [Hin|Hin]; [done|].
    by apply elem_of_nil in Hin.
Qed.

End JsonMiddlewareFacts.

(** C3, on the code. [src/index.ts] with [app.use(jsonMiddleware())]
    added after its logger, and a [POST /users] with a JSON payload:
    the logger calls [next()] and returns without waiting for it, so
    the promise the dispatcher awaits resolves while [jsonMiddleware]
    still waits for the end of the request stream. Whatever the event
    loop does afterwards, the response written is the untouched
    initial state of the Response Context, with step 1 suspended and
    the route handler not yet entered. *)
Theorem response_written_before_chain_completes (schedule : list nat) :
  ∃ st,
    handleRequest (H := Reference.runtime) Example.api_app
      (Example.post_users "[1,2]") schedule
    = Flushed {| sent_headers := []; sent_status := 200; sent_body := None |}
        st
    ∧ pending st
      = [[StepFrame 1 None
            (SetBody (JArr [JNum 1; JNum 2]) (Call tt false Return))]]
    ∧ (Enter RouteHandler ∉ log st)
    ∧ (∀ rc, Leave (Step 1) rc ∉ log st).
Proof.
  eexists. split; [by destruct schedule|].
  split_and!; [done|absent|intros rc; absent].
Qed.

(** The same application completes the chain when the awaited promise
    is the one that waits: with [jsonMiddleware] as the only step the
    handler has run when the response is written. *)
Example response_written_after_chain_completes :
  response_of
    (handleRequest (H := Reference.runtime) Example.parsing_app
       (Example.post_users "[1,2]") [0])
  = Some {| sent_headers := [("Content-Type", "application/json")];
            sent_status := 201;
            sent_body :=
              Reference.stringify (JObj [("created", JArr [JNum 1; JNum 2])]) |}.
Proof. by vm_compute. Qed.



(** C5, as stated, fails for the status: after [status(201)] a
    [render] of a template that does not exist leaves 500, not the
    argument of the last [status] call. *)
Lemma last_status_call_counterexample :
  let ops := [ResponseContext.Status 201;
              ResponseContext.Render "missing.html" None] in
  let rc := ResponseContext.run (H := Reference.runtime) "views"
              Example.read_views ops ResponseContext.initial in
  ResponseSpec.last_write ResponseSpec.status_call ops = Some 201%Z
  ∧ statusCode rc = 500%Z
  ∧ statusCode rc
    ≠ default 200%Z (ResponseSpec.last_write ResponseSpec.status_call ops).
Proof. intros ops rc. by vm_compute. Qed.

(** ** The theorems at concrete requests *)

(** [GET /users/me] against [/users/:id] registered before
    [/users/me]: the parameterised pattern, registered first, wins; the
    handler of its last registration is returned with [id] bound to
    [me], as the specification has it. *)
Lemma match_first_registered_pattern_witness :
  let routes := RouteTable.build Example.users_routes in
  let answer :=
    {| Router.handler := Some Example.create_user;
       Router.params := {["id" := "me"]} |} in
  Router.selected routes "GET" "/users/me" ≠ Some "/users/me"
  ∧ Router.selected routes "GET" "/users/me" = Some "/users/:id"
  ∧ MatchSpec.match_ Example.users_routes "GET" "/users/me" = answer
  ∧ Router.match_ routes "GET" "/users/me" = answer.
Proof.
  intros routes answer.
  destruct (match_first_registered_pattern Example.users_routes
              "GET" "/users/me") as ((_ & _ & _ & Hsame) & _ & Hfirst & _).
  destruct (Hfirst []
              (MkRegistration GET "/users/:id" Example.show_user)
              [MkRegistration GET "/users/me" Example.hello;
               MkRegistration GET "/users/:id" Example.create_user]
              "/users/me") as [Hnot Hsel].
  - reflexivity.
  - reflexivity.
  - reflexivity.
  - discriminate.
  - intros r Hr. by apply elem_of_nil in Hr.
  - split; [exact Hnot|]. split.
    + apply Hsel. intros r Hr. by apply elem_of_nil in Hr.
    + split; [reflexivity|]. unfold routes. rewrite Hsame; reflexivity.
Defined.

(** [/users/:id] registered twice, [/users/me] in between:
    [GET /users/42] gets the handler of the second registration. *)
Lemma reregistration_replaces_handler_witness :
  Router.selected (RouteTable.build Example.users_routes) "GET" "/users/42"
  = Some "/users/:id"
  ∧ Router.handler
      (Router.match_ (RouteTable.build Example.users_routes) "GET" "/users/42")
    = Some Example.create_user.
Proof.
  split; [reflexivity|].
  apply (reregistration_replaces_handler Router.new []
           [MkRegistration GET "/users/me" Example.hello] []
           GET "/users/:id" Example.show_user Example.create_user
           "/users/42").
  - intros r Hr. by apply elem_of_nil in Hr.
  - reflexivity.
Defined.

(** [/users/:id] against [/users/]: three segments each, the last one
    empty, and [id] is bound to the empty string. [/:__proto__]
    against [/]: two segments each, and nothing is bound. *)
Lemma parameter_accepts_empty_segment_witness :
  let routes :=
    RouteTable.build [MkRegistration GET "/users/:id" Example.show_user] in
  let odd :=
    RouteTable.build [MkRegistration GET "/:__proto__" Example.hello] in
  MatchSpec.accepts "/users/:id" "/users/" = true
  ∧ Router.selected routes "GET" "/users/" = Some "/users/:id"
  ∧ Router.params (Router.match_ routes "GET" "/users/") !! "id" = Some ""
  ∧ MatchSpec.accepts "/:__proto__" "/" = true
  ∧ Router.selected odd "GET" "/" = Some "/:__proto__"
  ∧ Router.params (Router.match_ odd "GET" "/") !! "__proto__" = None.
Proof.
  intros routes odd.
  destruct (parameter_accepts_empty_segment
              [MkRegistration GET "/users/:id" Example.show_user]
              "GET" "/users/"
              (MkRegistration GET "/users/:id" Example.show_user) 2 "id")
    as (Hacc & _ & Hparams & _).
  - by apply elem_of_cons; left.
  - reflexivity.
  - reflexivity.
  - reflexivity.
  - reflexivity.
  - intros [|[|[|j]]] a b Hj Ha Hb; try done; simpl in *;
      injection Ha as <-; injection Hb as <-; reflexivity.
  - destruct (parameter_accepts_empty_segment
                [MkRegistration GET "/:__proto__" Example.hello]
                "GET" "/"
                (MkRegistration GET "/:__proto__" Example.hello)
                1 "__proto__")
      as (Hacc' & _ & Hparams' & _).
    + by apply elem_of_cons; left.
    + reflexivity.
    + reflexivity.
    + reflexivity.
    + reflexivity.
    + intros [|[|j]] a b Hj Ha Hb; try done; simpl in *;
        injection Ha as <-; injection Hb as <-; reflexivity.
    + split; [exact Hacc|]. split; [reflexivity|]. split.
      * destruct (Hparams eq_refl) as (_ & _ & Hid).
        apply Hid; [discriminate|].
        intros [|[|[|j]]] a Hj Ha; simpl in *; try lia; discriminate.
      * split; [exact Hacc'|]. split; [reflexivity|].
        destruct (Hparams' eq_refl) as (_ & Hnone & _). by apply Hnone.
Defined.




(** [POST /users] with the payload [{bad]. *)
Lemma invalid_json_is_never_answered_witness :
  Reference.parse "{bad" = None
  ∧ response_of
      (handleRequest (H := Reference.runtime) Example.parsing_app
         (Example.post_users "{bad") [0; 1; 0])
    = None.
Proof.
  split; [reflexivity|].
  apply (invalid_json_is_never_answered (H := Reference.runtime)
           Example.parsing_app (Example.post_users "{bad") []).
  - reflexivity.
  - discriminate.
  - discriminate.
  - exists "application/json". split; reflexivity.
  - discriminate.
  - reflexivity.
Defined.

(** ** The scenarios of the specification *)

(** [GET /users/:id] registered, [GET /users/42] requested: the
    handler receives [params = {id: "42"}]. *)
Example scenario_user_42 :
  let m := Router.match_ (router Example.index_app) "GET" "/users/42" in
  Router.handler m = Some Example.show_user
  ∧ Router.params m = {["id" := "42"]}.
Proof. by vm_compute. Qed.

(** [GET /unknown] with no matching route: 404, [Not Found]. *)
Example scenario_unknown :
  response_of
    (handleRequest (H := Reference.runtime) Example.index_app
       (Example.request "GET" "/unknown" [] "") [])
  = Some {| sent_headers := []; sent_status := 404;
            sent_body := Some "Not Found" |}.
Proof. by vm_compute. Qed.

(** A step sets a header and calls [next()], the handler sends [ok]:
    the response has the header, the body [ok] and status 200. *)
Example scenario_header_then_handler :
  response_of
    (handleRequest (H := Reference.runtime)
       (App.get "/" Example.ok
          (App.use Example.tag (App.new "views" Example.read_views)))
       (Example.request "GET" "/" [] "") [])
  = Some {| sent_headers := [("X-A", "1")]; sent_status := 200;
            sent_body := Some "ok" |}.
Proof. by vm_compute. Qed.

(** A step answers 401 without calling [next()]: the response is
    401, [no], and the handler is never entered. *)
Example scenario_rejected :
  let out :=
    handleRequest (H := Reference.runtime)
      (App.get "/" Example.ok
         (App.use Example.reject (App.new "views" Example.read_views)))
      (Example.request "GET" "/" [] "") [] in
  response_of out
  = Some {| sent_headers := []; sent_status := 401; sent_body := Some "no" |}
  ∧ (Enter RouteHandler ∉ log_of out).
Proof. intros out. split; [by vm_compute|absent]. Qed.

(** A handler that renders a template that does not exist is answered
    with the 500 response that [render] has made of the failure, and
    returns normally. *)
Example scenario_render_failure :
  let out :=
    handleRequest (H := Reference.runtime)
      (App.get "/" Example.missing_page (App.new "views" Example.read_views))
      (Example.request "GET" "/" [] "") [0] in
  response_of out
  = Some {| sent_headers := [("Content-Type", "text/plain")];
            sent_status := 500;
            sent_body :=
              Some ("Error rendering template: ENOENT: no such file or "
                    +:+ "directory, open 'views/missing.html'") |}
  ∧ ∃ rc, Leave RouteHandler rc ∈ log_of out.
Proof.
  intros out. split; [by vm_compute|]. eexists. present.
Qed.


(* ================================================================== *)
(** * Part III. Further properties of the code                         *)
(* ================================================================== *)

(** ** The route table: methods, literal patterns and parameters *)

Section SegmentFacts.

(** A path is determined by its segments. *)
Lemma split_inj s t : JS.split s = JS.split t → s = t.
Proof.
  revert t. induction s as [|a s IH]; intros [|b t]; simpl; [done| | |].
  - destruct (Ascii.eqb b "/") eqn:Hb.
    + intros [= Ht]. symmetry in Ht. by apply split_nonempty in Ht.
    + destruct (JS.split t) eqn:Ht; [by apply split_nonempty in Ht|done].
  - destruct (Ascii.eqb a "/") eqn:Ha.
    + intros [= Hs]. by apply split_nonempty in Hs.
    + destruct (JS.split s) eqn:Hs; [by apply split_nonempty in Hs|done].
  - destruct (Ascii.eqb_spec a "/") as [->|Ha];
      destruct (Ascii.eqb_spec b "/") as [->|Hb].
    + intros [= Hst]. f_equal. by apply IH.
    + destruct (JS.split t) eqn:Ht; [by apply split_nonempty in Ht|done].
    + destruct (JS.split s) eqn:Hs; [by apply split_nonempty in Hs|done].
    + destruct (JS.split s) as [|x xs] eqn:Hs;
        [by apply split_nonempty in Hs|].
      destruct (JS.split t) as [|y ys] eqn:Ht;
        [by apply split_nonempty in Ht|].
      intros [= -> -> ->]. f_equal. apply IH. by rewrite Ht.
Qed.

(** No segment holds a separator. *)
Lemma split_no_separator s seg :
  seg ∈ JS.split s → JS.includes "/" seg = false.
Proof.
  revert seg. induction s as [|a s IH]; intros seg; simpl.
  - by intros ->%list_elem_of_singleton.
  - destruct (Ascii.eqb_spec a "/") as [->|Ha].
    + intros [->|Hin]%elem_of_cons; [done|by apply IH].
    + destruct (JS.split s) as [|x xs] eqn:Hs;
        [by apply split_nonempty in Hs|].
      intros [->|Hin]%elem_of_cons.
      * cbn -[Ascii.eqb]. rewrite andb_true_r.
        destruct (Ascii.eqb_spec "/" a) as [<-|_]; [done|].
        cbn -[Ascii.eqb]. apply IH. by apply elem_of_cons; left.
      * apply IH. by apply elem_of_cons; right.
Qed.

(** A literal segment list accepts itself only. *)
Lemma literal_segments_equal (segments values : list string) :
  (∀ seg, seg ∈ segments → JS.startsWith_colon seg = false) →
  length segments = length values →
  forallb (fun sv => MatchSpec.segment_matches sv.1 sv.2)
    (zip segments values) = true →
  segments = values.
Proof.
  revert values. induction segments as [|a segments IH];
    intros [|b values] Hlit Hlen; simpl in *; try done.
  intros [Hab Hrest]%andb_true_iff.
  unfold MatchSpec.segment_matches in Hab.
  rewrite is_parameter_colon, (Hlit a) in Hab by (by apply elem_of_cons; left).
  simpl in Hab.
  apply String.eqb_eq in Hab as ->. f_equal.
  apply IH; [|lia|done].
  intros seg Hseg. apply Hlit. by apply elem_of_cons; right.
Qed.

Lemma bind_literal (segments values : list string) (ps : Params) :
  (∀ seg, seg ∈ segments → JS.startsWith_colon seg = false) →
  foldl MatchSpec.bind ps (zip segments values) = ps.
Proof.
  revert values ps. induction segments as [|a segments IH];
    intros [|b values] ps Hlit; simpl; try done.
  rewrite IH by (intros seg Hseg; apply Hlit; by apply elem_of_cons; right).
  unfold MatchSpec.bind. simpl.
  by rewrite is_parameter_colon, (Hlit a) by (by apply elem_of_cons; left).
Qed.

(** A parameter segment is a colon followed by the name. *)
Lemma parameter_segment seg name :
  JS.startsWith_colon seg = true ∧ JS.slice1 seg = name ↔ seg = String ":" name.
Proof.
  split.
  - destruct seg as [|c seg]; simpl; [by intros [? _]|].
    intros [<-%Ascii.eqb_eq <-]. done.
  - by intros ->.
Qed.

(** What the walk over the segments leaves for a name: the value at
    the last parameter segment of that name. *)
Lemma bind_lookup (l : list (string * string)) (ps : Params) name :
  foldl MatchSpec.bind ps l !! name =
  match last (filter (fun sv => sv.1 = String ":" name) l) with
  | Some sv => Some sv.2
  | None => ps !! name
  end.
Proof.
  induction l as [|sv l IH] using rev_ind; [done|].
  rewrite foldl_app, filter_app. simpl.
  destruct (decide (sv.1 = String ":" name)) as [Hsv|Hsv].
  - rewrite filter_cons_True, filter_nil by done. rewrite last_snoc.
    unfold MatchSpec.bind.
    rewrite is_parameter_colon, parameter_name_slice, Hsv. simpl.
    apply lookup_insert_eq.
  - rewrite filter_cons_False, filter_nil, app_nil_r by done.
    rewrite <- IH. unfold MatchSpec.bind.
    destruct (MatchSpec.is_parameter sv.1) eqn:Hparam; [|done].
    apply lookup_insert_ne. intros Hname. apply Hsv.
    rewrite is_parameter_colon in Hparam.
    rewrite parameter_name_slice in Hname.
    by apply parameter_segment.
Qed.

(** The last element of a list that satisfies a decidable property,
    by position. *)
Lemma last_filter_Some {A : Type} (P : A → Prop) `{!∀ x, Decision (P x)}
    (l : list A) x :
  last (filter P l) = Some x
  ↔ ∃ i, l !! i = Some x ∧ P x ∧ ∀ j y, i < j → l !! j = Some y → ¬ P y.
Proof.
  induction l as [|y l IH] using rev_ind.
  - split; [done|]. by intros (i & Hi & _).
  - rewrite filter_app. destruct (decide (P y)) as [Hy|Hy].
    + rewrite filter_cons_True, filter_nil by done. rewrite last_snoc. split.
      * intros [= ->]. exists (length l). split_and!; [|done|].
        -- by rewrite lookup_app_r, Nat.sub_diag by lia.
        -- intros j z Hj Hz. apply lookup_lt_Some in Hz.
           rewrite length_app in Hz. simpl in Hz. lia.
      * intros (i & Hi & Hx & Hlater).
        destruct (decide (i = length l)) as [->|Hne].
        -- rewrite lookup_app_r, Nat.sub_diag in Hi by lia. by simpl in Hi.
        -- apply lookup_lt_Some in Hi as Hlt.
           rewrite length_app in Hlt. simpl in Hlt.
           destruct (Hlater (length l) y); [lia| |done].
           by rewrite lookup_app_r, Nat.sub_diag by lia.
    + rewrite filter_cons_False, filter_nil, app_nil_r by done.
      rewrite IH. split.
      * intros (i & Hi & Hx & Hlater). exists i.
        apply lookup_lt_Some in Hi as Hlt.
        split_and!; [by rewrite lookup_app_l|done|].
        intros j z Hj Hz.
        destruct (decide (j < length l)) as [Hjl|Hjl].
        -- rewrite lookup_app_l in Hz by done. by eapply Hlater.
        -- rewrite lookup_app_r in Hz by lia.
           destruct (j - length l) as [|?]; simpl in Hz; [|done].
           by injection Hz as <-.
      * intros (i & Hi & Hx & Hlater).
        destruct (decide (i < length l)) as [Hil|Hil].
        -- exists i. rewrite lookup_app_l in Hi by done.
           split_and!; [done|done|].
           intros j z Hj Hz. apply (Hlater j z Hj).
           apply lookup_lt_Some in Hz as Hlt. by rewrite lookup_app_l.
        -- rewrite lookup_app_r in Hi by lia.
           destruct (i - length l) as [|?]; simpl in Hi; [|done].
           injection Hi as <-. done.
Qed.

End SegmentFacts.

Section RouterCoverage.

Context {Handler : Type}.
Implicit Types (regs : list (Registration Handler)) (h : Handler).
Implicit Types (method url pattern : string).

(** X1. The constructor creates a table for each of the seven methods and
    nothing creates another: for any other method string, [register]
    leaves the route table as it is and [match] finds no route,
    whatever has been registered. *)
Theorem unsupported_method_never_matches regs method path url h :
  method ∉ @Router.methods →
  Router.register method path h (RouteTable.build regs) = RouteTable.build regs
  ∧ Router.match_ (RouteTable.build regs) method url = Router.no_match.
Proof.
  intros Hmethod. pose proof (build_get regs method) as Hget.
  unfold Router.register, Router.match_.
  destruct (JSMap.get method (RouteTable.build regs)); [|done].
  by destruct Hget as [? _].
Qed.

Lemma registered_again regs method :
  MatchSpec.registered (MatchSpec.registered regs method) method
  = MatchSpec.registered regs method.
Proof.
  unfold MatchSpec.registered. induction regs as [|r regs IH]; [done|].
  rewrite filter_cons. case_decide as Hr; [|done].
  rewrite filter_cons, decide_True by done. by rewrite IH.
Qed.

(** X2. The answer of [match] for a method depends on the registrations
    made for that method only: a registration for another method
    changes neither the match nor the pattern selected, on any route
    table, and the table built from all registrations answers as the
    table built from those of the method alone. A route registered
    with [get] never answers a [POST] or a [HEAD] request. *)
Theorem registration_leaves_other_methods
    (routes : Router.t Handler) (r : Registration Handler) regs method url :
  (verb_name (reg_verb r) ≠ method →
   Router.match_ (RouteTable.add r routes) method url
   = Router.match_ routes method url
   ∧ Router.selected (RouteTable.add r routes) method url
     = Router.selected routes method url)
  ∧ Router.match_ (RouteTable.build regs) method url
    = Router.match_ (RouteTable.build (MatchSpec.registered regs method))
        method url.
Proof.
  split.
  - intros Hne. rewrite add_register.
    unfold Router.register, Router.match_, Router.selected.
    destruct (JSMap.get (verb_name (reg_verb r)) routes); [|done].
    by rewrite jsmap_get_set_ne.
  - destruct (match_refines regs method url) as [-> _].
    destruct (match_refines (MatchSpec.registered regs method) method url)
      as [-> _].
    unfold MatchSpec.match_, MatchSpec.selected, MatchSpec.registration_order,
      MatchSpec.handler_of.
    by rewrite registered_again.
Qed.

(** X3. A pattern without parameter segments is matched by one request
    path only, the pattern itself, character for character: a trailing
    slash, a query string or another letter case is a different path.
    The match then binds no parameter. And a path that is the text of
    a pattern registered for the method always finds a handler. *)
Theorem literal_pattern_matches_only_itself regs method url pattern :
  (∀ seg, seg ∈ JS.split pattern → JS.startsWith_colon seg = false) →
  (Router.selected (RouteTable.build regs) method url = Some pattern →
   url = pattern
   ∧ Router.params (Router.match_ (RouteTable.build regs) method url) = ∅)
  ∧ ((∃ r, r ∈ regs ∧ verb_name (reg_verb r) = method
           ∧ reg_pattern r = pattern) →
     is_Some (Router.handler
                (Router.match_ (RouteTable.build regs) method pattern))).
Proof.
  intros Hliteral. split.
  - rewrite match_params.
    destruct (match_refines regs method url) as [_ ->].
    intros Hsel. pose proof Hsel as Hacc.
    apply selected_has_handler in Hacc as [Hacc _].
    rewrite accepts_split in Hacc.
    apply andb_true_iff in Hacc as [Hlen%Nat.eqb_eq Hall].
    split.
    + symmetry. apply split_inj. by apply literal_segments_equal.
    + unfold MatchSpec.match_. rewrite Hsel. simpl.
      rewrite bindings_split. unfold MatchSpec.bindings_of.
      rewrite bind_literal by done. apply own_empty.
  - intros (r & Hr & Hv & Hp). rewrite match_handler.
    apply match_is_Some. exists r. split_and!; [done|done|].
    rewrite Hp, accepts_split.
    rewrite Nat.eqb_refl. simpl. apply forallb_forall.
    intros [a b] Hab. apply list_elem_of_In, list_elem_of_lookup in Hab as [i Hi].
    apply lookup_zip_with_Some in Hi as (a' & b' & [= <- <-] & Ha & Hb).
    rewrite Ha in Hb. injection Hb as <-. simpl.
    unfold MatchSpec.segment_matches. by rewrite String.eqb_refl, orb_true_r.
Qed.

(** X4. The parameters of a match are read off the request path: a name
    other than [__proto__] is bound exactly when the selected pattern
    has a segment [:name], and its value is the path segment at the
    position of the last such segment; the name [__proto__] is never
    bound, whatever the pattern; and no value holds a slash. *)
Theorem parameters_are_path_segments regs method url pattern name value :
  Router.selected (RouteTable.build regs) method url = Some pattern →
  let ps := Router.params (Router.match_ (RouteTable.build regs) method url) in
  (ps !! name = Some value
   ↔ name ≠ "__proto__"
     ∧ ∃ i, JS.split pattern !! i = Some (String ":" name)
            ∧ JS.split url !! i = Some value
            ∧ ∀ j, i < j → JS.split pattern !! j ≠ Some (String ":" name))
  ∧ ps !! "__proto__" = None
  ∧ (ps !! name = Some value → JS.includes "/" value = false).
Proof.
  rewrite match_params.
  destruct (match_refines regs method url) as [_ ->].
  intros Hsel. pose proof Hsel as Hacc.
  apply selected_has_handler in Hacc as [Hacc _].
  rewrite accepts_split in Hacc.
  apply andb_true_iff in Hacc as [Hlen%Nat.eqb_eq _].
  unfold MatchSpec.match_. rewrite Hsel. simpl.
  rewrite bindings_split. unfold MatchSpec.bindings_of.
  set (segments := JS.split pattern) in *.
  set (values := JS.split url) in *.
  set (bound := foldl MatchSpec.bind ∅ (zip segments values)).
  assert (bound !! name = Some value
          ↔ ∃ i, segments !! i = Some (String ":" name)
                 ∧ values !! i = Some value
                 ∧ ∀ j, i < j → segments !! j ≠ Some (String ":" name))
    as Hiff.
  { unfold bound. rewrite bind_lookup. unfold Params. rewrite lookup_empty.
    split.
    - destruct (last _) as [[a b]|] eqn:Hlast; [|done].
      intros [= <-]. apply last_filter_Some in Hlast as (i & Hi & Ha & Hlater).
      simpl in Ha. subst a.
      apply lookup_zip_with_Some in Hi as (a' & b' & [= <- <-] & Ha & Hb).
      exists i. split_and!; [done|done|].
      intros j Hj Hseg.
      destruct (lookup_lt_is_Some_2 values j) as [v Hv].
      { apply lookup_lt_Some in Hseg. lia. }
      apply (Hlater j (String ":" name, v) Hj); [|done].
      apply lookup_zip_with_Some. by exists (String ":" name), v.
    - intros (i & Hseg & Hval & Hlater).
      assert (last (filter (fun sv => sv.1 = String ":" name)
                      (zip segments values))
              = Some (String ":" name, value)) as ->; [|done].
      apply last_filter_Some. exists i. split_and!; [|done|].
      + apply lookup_zip_with_Some. by exists (String ":" name), value.
      + intros j [a b] Hj Hab Ha. simpl in Ha. subst a.
        apply lookup_zip_with_Some in Hab as (a' & b' & [= <- <-] & Ha & Hb).
        by apply (Hlater j Hj). }
  assert (delete "__proto__" bound !! name = Some value
          ↔ name ≠ "__proto__" ∧ bound !! name = Some value) as Hown.
  { destruct (decide (name = "__proto__")) as [->|Hname].
    - unfold Params. rewrite lookup_delete_eq. split; [done|]. by intros [? _].
    - unfold Params. rewrite lookup_delete_ne by done. tauto. }
  split_and!.
  - rewrite Hown, Hiff. done.
  - apply lookup_delete_eq.
  - intros [_ (i & _ & Hval & _)%Hiff]%Hown.
    apply (split_no_separator url). by eapply list_elem_of_lookup_2.
Qed.

End RouterCoverage.

(** ** The headers as they are sent *)

Section HeaderFacts.

Context `{Runtime}.
Variable viewsDir : string.
Variable templateEngine : TemplateEngine.

Local Abbreviation run := (ResponseContext.run viewsDir templateEngine).
Local Abbreviation apply := (ResponseContext.apply viewsDir templateEngine).
Local Abbreviation header_write :=
  (ResponseSpec.header_write viewsDir templateEngine).

Lemma see_NoDup (seen : list string) x :
  NoDup seen → NoDup (MatchSpec.see seen x).
Proof.
  intros Hseen. unfold MatchSpec.see. case_bool_decide as Hx; [done|].
  apply NoDup_app. split_and!; [done| |apply NoDup_singleton].
  by intros y Hy ->%list_elem_of_singleton.
Qed.

Lemma distinct_NoDup (l : list string) : NoDup (MatchSpec.distinct l).
Proof.
  unfold MatchSpec.distinct.
  induction l as [|x l IH] using rev_ind; [apply NoDup_nil_2|].
  rewrite foldl_app. by apply see_NoDup.
Qed.

Lemma apply_keys op rc :
  (headers (apply op rc)).*1 =
  match header_key op with
  | Some key => MatchSpec.see (headers rc).*1 key
  | None => (headers rc).*1
  end.
Proof.
  destruct op; simpl; try done; try apply jsmap_keys_set.
  unfold ResponseContext.render.
  destruct (templateEngine _ _); simpl; apply jsmap_keys_set.
Qed.

(** With each key once, the entries of a [Map] are what [get]
    returns. *)
Lemma jsmap_elem_of_get {V : Type} (m : JSMap V) key (value : V) :
  NoDup m.*1 → (key, value) ∈ m ↔ JSMap.get key m = Some value.
Proof.
  induction m as [|[k v] m IH]; simpl.
  - intros _. split; [by intros ?%elem_of_nil|done].
  - intros [Hk Hm]%NoDup_cons. cbn [fst] in Hk.
    rewrite elem_of_cons. destruct (String.eqb_spec k key) as [->|Hne].
    + split.
      * intros [[= ->]|Hin]; [done|]. destruct Hk.
        apply list_elem_of_fmap. by exists (key, value).
      * intros [= ->]. by left.
    + rewrite <- IH by done. split; [|by right].
      by intros [[= ? ?]|?].
Qed.

(** X5. The headers handed to the transport: one entry for each key that
    was written, in the order in which the keys were first written by
    [setHeader], [json] or [render], each with the value last written
    for it. Keys are compared as they are spelled, so [content-type]
    and [Content-Type] make two entries. *)
Theorem headers_sent_in_first_write_order (ops : list ResponseContext.Op) :
  let response := flush (run ops ResponseContext.initial) in
  (sent_headers response).*1 = MatchSpec.distinct (omap header_key ops)
  ∧ NoDup (sent_headers response).*1
  ∧ ∀ key value,
      (key, value) ∈ sent_headers response
      ↔ ResponseSpec.last_write (header_write key) ops = Some value.
Proof.
  simpl.
  assert ((headers (run ops ResponseContext.initial)).*1
          = MatchSpec.distinct (omap header_key ops)) as Hkeys.
  { unfold MatchSpec.distinct.
    induction ops as [|op ops IH] using rev_ind; [done|].
    rewrite run_snoc, apply_keys, omap_app, foldl_app, IH. simpl.
    by destruct (header_key op). }
  split_and!; [done|rewrite Hkeys; apply distinct_NoDup|].
  intros key value. rewrite jsmap_elem_of_get
    by (rewrite Hkeys; apply distinct_NoDup).
  assert (JSMap.get key (headers (run ops ResponseContext.initial))
          = ResponseSpec.last_write (header_write key) ops) as ->; [|done].
  clear Hkeys. induction ops as [|op ops IH] using rev_ind; [done|].
  rewrite run_snoc, apply_header, last_write_snoc, IH.
  by destruct (header_write key op).
Qed.

End HeaderFacts.

(** ** Setting an application up *)

Lemma used_snoc calls call :
  used (calls ++ [call]) =
  used calls ++ match call with Use mw => [mw] | Route _ => [] end.
Proof. unfold used. rewrite omap_app. by destruct call. Qed.

Lemma routed_snoc calls call :
  routed (calls ++ [call]) =
  routed calls ++ match call with Route r => [r] | Use _ => [] end.
Proof. unfold routed. rewrite omap_app. by destruct call. Qed.

(** X6. The calls that set an application up act on two separate lists:
    the steps are the arguments of the [use] calls in their order, the
    route table is the one built from the route calls in their order,
    and the views directory and the template engine stay those of the
    constructor. How [use] calls and route calls are interleaved makes
    no difference: a step registered after a route still runs before
    that route's handler. *)
Theorem configure_separates_steps_and_routes dir engine calls :
  configure dir engine calls
  = {| router := RouteTable.build (routed calls);
       middlewares := used calls;
       viewsDir := dir;
       templateEngine := engine |}.
Proof.
  unfold configure.
  induction calls as [|call calls IH] using rev_ind; [done|].
  rewrite foldl_app, IH, used_snoc, routed_snoc. simpl.
  destruct call as [mw|r]; simpl.
  - unfold App.use. simpl. by rewrite app_nil_r.
  - rewrite app_nil_r, build_snoc. unfold RouteTable.add.
    by destruct (reg_verb r).
Qed.

(** ** The dispatcher: chains that run in one turn *)

Section OneTurn.

Context `{Runtime}.
Variable app : Bonfire.
Variable raw : IncomingMessage.

Local Abbreviation url := (JS.or_else (im_url raw) "/").
Local Abbreviation rq0 := (requestContext raw).
Local Abbreviation m0 :=
  (Router.match_ (router app) (JS.or_else (im_method raw) "GET") url).

Lemma writes_request {N : Type} (p : Prog N) rc body :
  ∃ body', (writes app p (rc, RequestContext.set_body body rq0)).2
           = RequestContext.set_body body' rq0.
Proof.
  revert rc body. induction p as [|op k IH|v k IH|x awaited k IH|k IH|];
    intros rc body; simpl; try by exists body.
  - apply IH.
  - apply (IH rc v).
Qed.

Lemma steps_writes_request steps rc body :
  ∃ body', (steps_writes app steps (rc, RequestContext.set_body body rq0)).2
           = RequestContext.set_body body' rq0.
Proof.
  revert rc body. induction steps as [|mw steps IH]; intros rc body; simpl.
  - by exists body.
  - destruct (writes_request (mw (RequestContext.set_body body rq0)) rc body)
      as [body' Hbody'].
    destruct (writes app _ _) as [rc' rq']. simpl in Hbody'. subst rq'.
    apply IH.
Qed.

(** A synchronous handler returns in the turn in which it is called,
    with its writes made. *)
Lemma run_handler_writes (p : Prog Empty_set) st :
  synchronous p →
  ∃ st', run_prog app no_next RouteHandler HandlerFrame p st = (st', Completed)
         ∧ res st' = (writes app p (res st, req st)).1
         ∧ pending st' = pending st.
Proof.
  revert st. induction p as [|op k IH|v k IH|[]|k IH|];
    intros st Hsync; simpl in Hsync; try done.
  - by eexists.
  - destruct Hsync as [Hop Hk]. simpl. rewrite Hop.
    by apply (IH (apply_op app op st)).
  - simpl. by apply (IH (set_req (RequestContext.set_body v (req st)) st)).
Qed.

(** A step that passes the request on calls [next()] with its writes
    made, and returns when [next()] has. *)
Lemma run_passes_on_writes (next : unit → State → State * Status) me frame
    p st :
  passes_on p →
  ∃ st0,
    (res st0, req st0) = writes app p (res st, req st)
    ∧ pending st0 = pending st
    ∧ ∀ st1, next tt st0 = (st1, Completed) →
        run_prog app next me frame p st
        = (record (Leave me (res st1)) st1, Completed).
Proof.
  revert st. induction p as [|op k IH|v k IH|x awaited k IH|k IH|];
    intros st Hpass; simpl in Hpass; try done.
  - destruct Hpass as [Hop Hk]. simpl. rewrite Hop.
    by apply (IH (apply_op app op st)).
  - simpl. by apply (IH (set_req (RequestContext.set_body v (req st)) st)).
  - destruct k; try done. destruct x.
    exists (record (CallNext me) st). split_and!; [done|done|].
    intros st1 Hnext. simpl. rewrite Hnext. by destruct awaited.
Qed.

(** The end of the chain, when the handler is synchronous. *)
Lemma dispatch_writes st body :
  req st = RequestContext.set_body body rq0 →
  handler_synchronous app raw →
  ∃ st', dispatch app url st = (st', Completed)
         ∧ res st' = answer app url (res st, req st)
         ∧ pending st' = pending st.
Proof.
  intros Hreq Hsync. unfold dispatch, answer. cbn [fst snd].
  rewrite Hreq.
  change (RequestContext.method (RequestContext.set_body body rq0))
    with (JS.or_else (im_method raw) "GET").
  rewrite or_else_again.
  destruct (Router.handler m0) as [h|] eqn:Hh.
  - destruct (run_handler_writes
                (h (RequestContext.set_params (Router.params m0)
                      (RequestContext.set_body body rq0)))
                (record (Enter RouteHandler)
                   (set_req (RequestContext.set_params (Router.params m0)
                               (RequestContext.set_body body rq0)) st)))
      as (st' & Hrun & Hres & Hpending); [by apply Hsync|].
    exists st'. by split_and!.
  - by eexists.
Qed.

(** A chain of steps that pass the request on, in front of a
    synchronous handler, runs to its end in one turn. *)
Lemma executeMiddleware_from_writes rest index st body :
  req st = RequestContext.set_body body rq0 →
  steps_pass_on raw rest →
  handler_synchronous app raw →
  ∃ st', executeMiddleware_from app url rest index st = (st', Completed)
         ∧ res st' = answer app url (steps_writes app rest (res st, req st))
         ∧ pending st' = pending st.
Proof.
  revert index st body.
  induction rest as [|mw rest IH]; intros index st body Hreq Hpass Hsync.
  - by eapply dispatch_writes.
  - cbn [executeMiddleware_from steps_writes foldl].
    destruct (run_passes_on_writes
                (fun _ : unit => executeMiddleware_from app url rest (S index))
                (Step index) (StepFrame index) (mw (req st))
                (record (Enter (Step index)) st))
      as (st0 & Hctx & Hpending0 & Hrun).
    { rewrite Hreq. apply Hpass. by apply elem_of_cons; left. }
    cbn [res req record fst snd] in Hctx.
    destruct (writes_request (mw (req st)) (res st) body) as [body' Hbody'].
    rewrite <- Hreq, <- Hctx in Hbody'. cbn [snd] in Hbody'.
    destruct (IH (S index) st0 body' Hbody') as (st1 & Hnext & Hres & Hpending1);
      [|done|].
    { intros mw' b Hin. apply Hpass. by apply elem_of_cons; right. }
    exists (record (Leave (Step index) (res st1)) st1).
    split_and!; [by apply Hrun| |].
    + cbn [res record]. by rewrite Hres, Hctx.
    + cbn [pending record]. by rewrite Hpending1, Hpending0.
Qed.

(** A request to such a chain is answered in the first turn. *)
Lemma handleRequest_one_turn (schedule : list nat) :
  steps_pass_on raw (middlewares app) →
  handler_synchronous app raw →
  ∃ st,
    handleRequest app raw schedule
    = Flushed
        (flush (answer app url
                  (steps_writes app (middlewares app)
                     (ResponseContext.initial, rq0))))
        st
    ∧ pending st = [].
Proof.
  intros Hpass Hsync. unfold handleRequest, executeMiddleware.
  rewrite drop_0.
  match goal with
  | |- context [executeMiddleware_from app url _ 0 ?st] =>
      destruct (executeMiddleware_from_writes (middlewares app) 0 st JNull)
        as (st1 & -> & Hres & Hpending); [done|done|done|]
  end.
  exists st1. split; [|done].
  destruct schedule; cbn [event_loop]; rewrite Hres; reflexivity.
Qed.

(** X7. When every step passes the request on (its call of [next()] is its
    last act) and the selected handler is synchronous, the request is
    answered in the first turn, whatever the event loop does, and the
    response is the composition of the writes from left to right:
    those of the steps in the order of their registration, each step
    seeing the body left by the steps before it, then those of the
    handler called with the parameters of the match, or status 404
    and [Not Found] on top of what the steps wrote when no route
    matches. *)
Theorem synchronous_chain_composes (schedule : list nat) :
  steps_pass_on raw (middlewares app) →
  handler_synchronous app raw →
  ∃ st,
    handleRequest app raw schedule
    = Flushed
        (flush (answer app url
                  (steps_writes app (middlewares app)
                     (ResponseContext.initial, rq0))))
        st
    ∧ pending st = [].
Proof.
  intros Hpass Hsync.
  assert (∀ st events,
            event_loop app url events Completed st
            = Flushed (flush (res st)) st) as Hloop
    by by intros st [|turn events].
  unfold handleRequest, executeMiddleware. rewrite drop_0.
  match goal with
  | |- context [executeMiddleware_from app url _ 0 ?st0] =>
      destruct (executeMiddleware_from_writes (middlewares app) 0 st0 JNull)
        as (st & Hrun & Hres & Hpending); [done|done|done|];
      rewrite Hrun
  end.
  exists st. split; [|done]. rewrite Hloop. by rewrite Hres.
Qed.

(** A body that waits for nothing returns in the turn in which it is
    called, whatever [next()] does. *)
Lemma run_fire_and_forget {N : Type} (next : N → State → State * Status)
    me frame (p : Prog N) st :
  fire_and_forget p →
  ∃ st', run_prog app next me frame p st = (st', Completed).
Proof.
  revert st. induction p as [|op k IH|v k IH|x awaited k IH|k IH|];
    intros st Hp; simpl in Hp; try done.
  - by eexists.
  - destruct Hp as [Hop Hk]. simpl. rewrite Hop. by apply IH.
  - simpl. by apply IH.
  - destruct Hp as [-> Hk]. simpl.
    destruct (next x (record (CallNext me) st)) as [st1 r1]. by apply IH.
Qed.

(** X8. A first step that is synchronous and drops the promise of its
    [next()], as the logger of [src/index.ts] does, settles the
    promise that [handleRequest] awaits in the first turn: the
    response is written then, and it is the same response whatever
    happens in later turns, so nothing that a later step or the
    handler writes after an [await] on I/O reaches the client. *)
Theorem unawaited_chain_is_answered_at_once (mw : Middleware)
    (rest : list Middleware) :
  middlewares app = mw :: rest →
  fire_and_forget (mw (requestContext raw)) →
  ∃ response st,
    ∀ schedule, handleRequest app raw schedule = Flushed response st.
Proof.
  intros Hsteps Hforget. unfold handleRequest, executeMiddleware.
  rewrite Hsteps, drop_0. cbn [executeMiddleware_from].
  match goal with
  | |- context [run_prog app ?next ?me ?frame ?p ?st] =>
      destruct (run_fire_and_forget next me frame p st) as [st1 ->];
        [exact Hforget|]
  end.
  exists (flush (res st1)), st1. by intros [|turn schedule].
Qed.

End OneTurn.

(** ** The dispatcher: chains that wait for a handler that renders *)

Section AwaitedComposition.

Context `{Runtime}.
Variable app : Bonfire.
Variable raw : IncomingMessage.

Local Abbreviation url := (JS.or_else (im_url raw) "/").
Local Abbreviation rq0 := (requestContext raw).
Local Abbreviation m0 :=
  (Router.match_ (router app) (JS.or_else (im_method raw) "GET") url).

(** A handler that comes to its end runs until it returns or until its
    first [render]. *)
Lemma run_handler_stands (p : Prog Empty_set) st st' r :
  returns p →
  run_prog app no_next RouteHandler HandlerFrame p st = (st', r) →
  stands app (writes app p (res st, req st)).1 (renders p) st' r.
Proof.
  revert st. induction p as [|op k IH|v k IH|[]|k IH|];
    intros st Hp; simpl in Hp; try done.
  - intros [= <- <-]. by split.
  - simpl. destruct (is_render op) eqn:Hop.
    + intros [= <- <-]. by split_and!.
    + intros Hrun. by apply (IH (apply_op app op st)).
  - simpl. intros Hrun.
    by apply (IH (set_req (RequestContext.set_body v (req st)) st)).
Qed.

(** A step that passes the request on and waits for [next()] stands
    as the chain behind it does. *)
Lemma run_waits_on_stands (next : unit → State → State * Status) index
    p st :
  passes_on p → awaits_next p →
  ∃ st0,
    (res st0, req st0) = writes app p (res st, req st)
    ∧ ∀ final turns st1 r1 st' r,
        next tt st0 = (st1, r1) →
        stands app final turns st1 r1 →
        run_prog app next (Step index) (StepFrame index) p st = (st', r) →
        stands app final turns st' r.
Proof.
  revert st. induction p as [|op k IH|v k IH|x awaited k IH|k IH|];
    intros st Hpass Hwait; simpl in Hpass, Hwait; try done.
  - destruct Hpass as [Hop Hk]. simpl. rewrite Hop.
    by apply (IH (apply_op app op st)).
  - simpl. by apply (IH (set_req (RequestContext.set_body v (req st)) st)).
  - destruct k; try done. destruct x. destruct Hwait as [-> _].
    exists (record (CallNext (Step index)) st). split; [done|].
    intros final turns st1 r1 st' r Hnext Hstands. simpl. rewrite Hnext.
    destruct r1 as [|[|[index'|[op|] k'] tail]|]; try done.
    + by intros [= <- <-].
    + intros [= <- <-]. destruct Hstands as (Htail & Hk' & Hturns & Hfinal).
      split_and!; [|done|done|done].
      apply Forall_app. split; [done|].
      apply Forall_singleton. by exists index.
Qed.

(** The chain from any step on. *)
Lemma executeMiddleware_from_stands (h : Handler) rest index st body st' r :
  req st = RequestContext.set_body body rq0 →
  steps_wait raw rest →
  Router.handler m0 = Some h →
  let ctx := steps_writes app rest (res st, req st) in
  let rq := RequestContext.set_params (Router.params m0) ctx.2 in
  returns (h rq) →
  executeMiddleware_from app url rest index st = (st', r) →
  stands app (answer app url ctx) (renders (h rq)) st' r.
Proof.
  revert index st body st' r.
  induction rest as [|mw rest IH]; intros index st body st' r Hreq Hwait Hh.
  - cbn [steps_writes foldl executeMiddleware_from].
    unfold dispatch, answer. cbn [fst snd]. rewrite Hreq.
    change (RequestContext.method (RequestContext.set_body body rq0))
      with (JS.or_else (im_method raw) "GET").
    rewrite or_else_again, Hh. intros Hreturns Hrun.
    by apply run_handler_stands in Hrun.
  - cbn [executeMiddleware_from steps_writes foldl fst snd]. intros Hreturns Hrun.
    destruct (Hwait mw body) as [Hpass Hawait]; [by apply elem_of_cons; left|].
    rewrite <- Hreq in Hpass, Hawait.
    destruct (run_waits_on_stands
                (fun _ : unit => executeMiddleware_from app url rest (S index))
                index (mw (req st)) (record (Enter (Step index)) st)
                Hpass Hawait) as (st0 & Hctx & Hstep).
    cbn [res req record] in Hctx.
    destruct (writes_request app raw (mw (req st)) (res st) body)
      as [body' Hbody'].
    rewrite <- Hreq, <- Hctx in Hbody'. cbn [snd] in Hbody'.
    destruct (executeMiddleware_from app url rest (S index) st0)
      as [st1 r1] eqn:Hnext.
    rewrite <- Hctx in Hreturns |- *.
    eapply Hstep; [reflexivity| |exact Hrun].
    eapply IH; [exact Hbody'| |exact Hh|exact Hreturns|exact Hnext].
    intros mw' b Hin. apply Hwait. by apply elem_of_cons; right.
Qed.

(** Steps that have nothing left to do return one after the other. *)
Lemma resume_idle (tail : Stack) st :
  Forall idle tail →
  ∃ st', resume app url tail st = (st', Completed) ∧ res st' = res st.
Proof.
  revert st. induction tail as [|f tail IH]; intros st Htail.
  - by exists st.
  - apply Forall_cons in Htail as [[index ->] Htail].
    cbn [resume resume_frame wake_up run_prog].
    destruct (IH (record (Leave (Step index) (res st)) st) Htail)
      as (st' & -> & Hres).
    by exists st'.
Qed.

(** Each turn of the event loop brings the handler one template
    further. *)
Lemma event_loop_stands turns st r final schedule :
  stands app final turns st r →
  ∃ st',
    event_loop app url (replicate turns 0 ++ schedule) r st
    = Flushed (flush final) st'.
Proof.
  revert st r. induction turns as [|turns IH]; intros st r Hstands.
  - destruct r as [|[|[index|[op|] k] tail]|]; try done.
    + destruct Hstands as [_ <-]. exists st. by destruct schedule.
    + by destruct Hstands as (_ & _ & ? & _).
  - destruct r as [|[|[index|[op|] k] tail]|]; try done.
    + by destruct Hstands as [? _].
    + destruct Hstands as (Htail & Hk & [= ->] & Hfinal).
      cbn [replicate List.app event_loop resume resume_frame wake_up].
      destruct (run_prog app no_next RouteHandler HandlerFrame k
                  (apply_op app op st)) as [st1 r1] eqn:Hrun.
      apply run_handler_stands in Hrun; [|done].
      cbn [res req apply_op set_res] in Hrun. rewrite Hfinal in Hrun.
      destruct r1 as [|[|[index|[op'|] k'] tail']|]; try done.
      * destruct (resume_idle tail st1 Htail) as (st2 & -> & Hres).
        apply IH. destruct Hrun as [Hturns Hres1].
        split; [done|]. by rewrite Hres.
      * apply IH. destruct Hrun as (Htail' & Hk' & Hturns & Hfinal').
        split_and!; [|done|done|done].
        apply Forall_app. by split.
Qed.


End AwaitedComposition.

(** ** [jsonMiddleware]: the requests it lets through and the bodies it parses *)

Lemma jsonMiddleware_skips `{Runtime} req :
  reads_body req = false → jsonMiddleware req = Call tt false Return.
Proof.
  unfold reads_body, jsonMiddleware.
  destruct (String.eqb (RequestContext.method req) "GET"
            || String.eqb (RequestContext.method req) "HEAD"); [done|].
  cbn [negb andb]. by intros ->.
Qed.

Lemma jsonMiddleware_reads `{Runtime} req v :
  reads_body req = true →
  parsed_body (RequestContext.payload req) = Some v →
  jsonMiddleware req = SetBody JNull (AwaitIO (SetBody v (Call tt false Return))).
Proof.
  unfold reads_body, jsonMiddleware, parsed_body.
  destruct (String.eqb (RequestContext.method req) "GET"
            || String.eqb (RequestContext.method req) "HEAD"); [done|].
  cbn [negb andb]. by intros -> ->.
Qed.

(** The writes depend on the application through its views directory
    and its template engine only, the answer through its route table
    as well. *)
Lemma writes_same `{Runtime} (a b : Bonfire) {N : Type} (p : Prog N) ctx :
  viewsDir a = viewsDir b → templateEngine a = templateEngine b →
  writes a p ctx = writes b p ctx.
Proof.
  intros Hdir Hengine. revert ctx.
  induction p as [|op k IH|v k IH|x awaited k IH|k IH|]; intros ctx; simpl;
    try done.
  by rewrite Hdir, Hengine, IH.
Qed.

Lemma steps_writes_same `{Runtime} (a b : Bonfire) steps ctx :
  viewsDir a = viewsDir b → templateEngine a = templateEngine b →
  steps_writes a steps ctx = steps_writes b steps ctx.
Proof.
  intros Hdir Hengine. revert ctx.
  induction steps as [|mw steps IH]; intros ctx; simpl; [done|].
  by rewrite (writes_same a b), IH.
Qed.

Lemma answer_same `{Runtime} (a b : Bonfire) url ctx :
  router a = router b →
  viewsDir a = viewsDir b → templateEngine a = templateEngine b →
  answer a url ctx = answer b url ctx.
Proof.
  intros Hrouter Hdir Hengine. unfold answer. rewrite Hrouter.
  destruct (Router.handler _); [|done].
  by rewrite (writes_same a b).
Qed.

Section JsonCoverage.

Context `{Runtime}.
Variable app : Bonfire.
Variable raw : IncomingMessage.

Local Abbreviation url := (JS.or_else (im_url raw) "/").
Local Abbreviation rq0 := (requestContext raw).

(** X11. For a [GET] or a [HEAD] request, and for a request whose
    [content-type] does not include [application/json], the step does
    not wait for the request stream and does not read the payload,
    malformed or not: it calls [next()] at once. In a chain of steps
    that pass the request on, with a synchronous handler, the response
    is the one the application gives without the step. *)
Theorem jsonMiddleware_leaves_other_requests
    (before after : list Middleware) (schedule : list nat) :
  let without :=
    {| router := router app; middlewares := before ++ after;
       viewsDir := viewsDir app; templateEngine := templateEngine app |} in
  middlewares app = before ++ jsonMiddleware :: after →
  reads_body rq0 = false →
  steps_pass_on raw (before ++ after) →
  handler_synchronous app raw →
  jsonMiddleware rq0 = Call tt false Return
  ∧ ∃ response st st',
      handleRequest app raw schedule = Flushed response st
      ∧ handleRequest without raw schedule = Flushed response st'.
Proof.
  intros without Hsteps Hskip Hpass Hsync.
  split; [by apply jsonMiddleware_skips|].
  destruct (handleRequest_one_turn app raw schedule) as (st & Hrun & _);
    [|done|].
  { rewrite Hsteps. intros mw body Hin.
    rewrite elem_of_app, elem_of_cons in Hin.
    destruct Hin as [Hin|[->|Hin]].
    - apply Hpass, elem_of_app. by left.
    - by rewrite jsonMiddleware_skips.
    - apply Hpass, elem_of_app. by right. }
  destruct (handleRequest_one_turn without raw schedule) as (st' & Hrun' & _);
    [done|done|].
  eexists _, st, st'. split; [exact Hrun|]. rewrite Hrun'. f_equal. f_equal.
  rewrite (answer_same without app), (steps_writes_same without app) by done.
  f_equal. cbn [middlewares without].
  rewrite Hsteps. unfold steps_writes. rewrite !foldl_app. cbn [foldl].
  destruct (steps_writes_request app raw before ResponseContext.initial JNull)
    as [body Hbody].
  unfold steps_writes in Hbody.
  change (RequestContext.set_body JNull rq0) with rq0 in Hbody.
  by rewrite Hbody, jsonMiddleware_skips.
Qed.


End JsonCoverage.

(** ** Requests without a method or a url *)

Lemma or_else_default x d :
  d ≠ "" → JS.or_else (Some (JS.or_else x d)) d = JS.or_else x d.
Proof.
  intros Hd. destruct x as [s|]; simpl.
  - destruct (String.eqb_spec s "") as [->|Hs]; simpl.
    + by destruct (String.eqb_spec d "").
    + by destruct (String.eqb_spec s "").
  - by destruct (String.eqb_spec d "").
Qed.


(** ** [staticMiddleware] *)

(** The url of the Request Context is never empty, so [req.url || ""]
    is that url. *)
Lemma or_else_url x : JS.or_else (Some (JS.or_else x "/")) "" = JS.or_else x "/".
Proof.
  destruct x as [s|]; simpl; [|done].
  destruct (String.eqb_spec s "") as [->|Hs]; [done|].
  simpl. by destruct (String.eqb_spec s "").
Qed.

Section StaticCoverage.

Context `{Runtime} `{FileSystem}.
Variable app : Bonfire.
Variable raw : IncomingMessage.
Variable staticPath : string.
Variable rest : list Middleware.

Local Abbreviation url := (JS.or_else (im_url raw) "/").
Local Abbreviation rq0 := (requestContext raw).
Local Abbreviation filePath := (path_join staticPath url).

Hypothesis first_step : middlewares app = staticMiddleware staticPath :: rest.

(** X13. With [staticMiddleware] as first step, a request whose url, joined
    to the static directory, names a file that can be read is answered
    with that file once the two file operations have completed: status
    200, the content as body, and as only header a [Content-Type] taken
    from the table by the lower-cased extension,
    [application/octet-stream] for an extension that the table does not
    list. [next()] is not called: no later step and no handler is
    entered, whatever routes are registered. *)
Theorem staticMiddleware_serves_file (content : string) (schedule : list nat) :
  fs_stat filePath = Some true →
  fs_readFile filePath = Some content →
  (∃ st, handleRequest app raw [] = Waiting st)
  ∧ (∃ st, handleRequest app raw [0] = Waiting st)
  ∧ ∃ st,
      handleRequest app raw (0 :: 0 :: schedule)
      = Flushed
          {| sent_headers :=
               [("Content-Type",
                 JS.or_else (JSMap.get (toLowerCase (path_extname filePath))
                               mimeTypes)
                   "application/octet-stream")];
             sent_status := 200;
             sent_body := Some content |}
          st
      ∧ (CallNext (Step 0) ∉ log st)
      ∧ ∀ w, Enter w ∈ log st → w = Step 0.
Proof.
  intros Hstat Hread.
  unfold handleRequest, executeMiddleware. rewrite first_step, drop_0.
  cbn [executeMiddleware_from req record]. unfold staticMiddleware.
  cbn [RequestContext.url]. rewrite or_else_url, Hstat, Hread.
  cbn [run_prog]. split; [by eexists|].
  cbn [event_loop resume resume_frame wake_up run_prog List.app].
  split; [by eexists|].
  cbn [is_render]. eexists. split; [by destruct schedule|].
  cbn [log record set_res apply_op]. split.
  - intros [?|[?|?%elem_of_nil]%elem_of_cons]%elem_of_cons; done.
  - intros w [?|[[= ->]|?%elem_of_nil]%elem_of_cons]%elem_of_cons; done.
Qed.

(** X14. With [staticMiddleware] as first step, a request whose url names
    no file (the [stat] fails), a directory, or a file that cannot be
    read is passed on once the file operations have completed, one for
    a failed [stat] or a directory, two for a failed read: the step
    writes nothing and, with steps after it that pass the request on
    and a synchronous handler, the response is theirs. *)
Theorem staticMiddleware_falls_through (schedule : list nat) :
  let response :=
    flush (answer app url
             (steps_writes app rest (ResponseContext.initial, rq0))) in
  steps_pass_on raw rest →
  handler_synchronous app raw →
  (fs_stat filePath ≠ Some true →
   ∃ st, handleRequest app raw (0 :: schedule) = Flushed response st)
  ∧ (fs_stat filePath = Some true →
     fs_readFile filePath = None →
     ∃ st, handleRequest app raw (0 :: 0 :: schedule) = Flushed response st).
Proof.
  intros response Hpass Hsync.
  assert (∀ st, req st = rq0 →
            ∃ st1,
              executeMiddleware app url 1 st = (st1, Completed)
              ∧ res st1
                = answer app url (steps_writes app rest (res st, rq0)))
    as Hnext.
  { intros st Hreq. unfold executeMiddleware.
    rewrite first_step. cbn [drop]. rewrite drop_0.
    destruct (executeMiddleware_from_writes app raw rest 1 st JNull)
      as (st1 & -> & Hres & Hpending); [done|done|done|].
    exists st1. split; [done|]. by rewrite Hres, Hreq. }
  assert (∀ st, req st = rq0 → res st = ResponseContext.initial →
            ∃ st1,
              (let '(st1, r) :=
                 resume app url [StepFrame 0 None (Call tt false Return)] st in
               event_loop app url schedule r st1)
              = Flushed response st1) as Hresume.
  { intros st Hreq Hres0.
    cbn [resume resume_frame wake_up run_prog].
    destruct (Hnext (record (CallNext (Step 0)) st) Hreq) as (st1 & -> & Hres).
    cbn [detach]. eexists.
    destruct schedule; cbn [event_loop res record] in *;
      by rewrite Hres, Hres0. }
  unfold handleRequest, executeMiddleware. rewrite first_step, drop_0.
  cbn [executeMiddleware_from req record]. unfold staticMiddleware.
  cbn [RequestContext.url]. rewrite or_else_url. cbn [run_prog]. split.
  - intros Hstat. cbn [event_loop].
    destruct (fs_stat filePath) as [[|]|]; [done| |]; by apply Hresume.
  - intros Hstat Hread. rewrite Hstat, Hread.
    cbn [event_loop resume resume_frame wake_up run_prog List.app].
    by apply Hresume.
Qed.

End StaticCoverage.

(** ** The two middlewares of the library do not wait for [next()] *)

Section DroppedPromises.

Context `{Runtime} `{FileSystem}.
Variable app : Bonfire.
Variable raw : IncomingMessage.
Variable rest : list Middleware.

Local Abbreviation url := (JS.or_else (im_url raw) "/").
Local Abbreviation rq0 := (requestContext raw).


(** A first step that is suspended with a rest that waits for nothing:
    the turn that wakes it is the turn in which the response is
    written. *)
Lemma woken_step_answers (k : Prog unit) st :
  fire_and_forget k →
  ∃ response st',
    ∀ schedule,
      event_loop app url (0 :: schedule)
        (Suspended [StepFrame 0 None k]) st
      = Flushed response st'.
Proof.
  intros Hk. cbn [event_loop resume resume_frame wake_up].
  destruct (run_fire_and_forget app
              (fun _ : unit => executeMiddleware app url 1)
              (Step 0) (StepFrame 0) k st Hk) as [st1 ->].
  exists (flush (res st1)), st1. by intros [|turn schedule].
Qed.



End DroppedPromises.

(** ** [src/index.ts], request by request *)

Lemma accepts_literal pattern url :
  (∀ seg, seg ∈ JS.split pattern → JS.startsWith_colon seg = false) →
  MatchSpec.accepts pattern url = true ↔ url = pattern.
Proof.
  intros Hliteral. rewrite accepts_split. split.
  - intros [Hlen%Nat.eqb_eq Hall]%andb_true_iff.
    symmetry. apply split_inj. by apply literal_segments_equal.
  - intros ->. rewrite Nat.eqb_refl. simpl. apply forallb_forall.
    intros [a b] Hab.
    apply list_elem_of_In, list_elem_of_lookup in Hab as [i Hi].
    apply lookup_zip_with_Some in Hi as (a' & b' & [= <- <-] & Ha & Hb).
    rewrite Ha in Hb. injection Hb as <-. simpl.
    unfold MatchSpec.segment_matches. by rewrite String.eqb_refl, orb_true_r.
Qed.

Lemma index_routes :
  router Example.index_app
  = [("GET", [("/", Example.hello); ("/users/:id", Example.show_user)]);
     ("POST", [("/users", Example.create_user)]);
     ("PUT", []); ("DELETE", []); ("PATCH", []); ("HEAD", []);
     ("OPTIONS", [])].
Proof. reflexivity. Qed.

Lemma accepts_root url : MatchSpec.accepts "/" url = true ↔ url = "/".
Proof.
  apply accepts_literal. intros seg Hseg. cbn in Hseg.
  by repeat (apply elem_of_cons in Hseg as [->|Hseg]; [done|]);
    apply elem_of_nil in Hseg.
Qed.

Lemma accepts_users url : MatchSpec.accepts "/users" url = true ↔ url = "/users".
Proof.
  apply accepts_literal. intros seg Hseg. cbn in Hseg.
  by repeat (apply elem_of_cons in Hseg as [->|Hseg]; [done|]);
    apply elem_of_nil in Hseg.
Qed.

(** The path of a request that [/users/:id] accepts has three
    segments, and the third is the value bound to [id]. *)
Lemma accepts_user url :
  MatchSpec.accepts "/users/:id" url = true →
  delete "__proto__" (MatchSpec.bindings "/users/:id" url) !! "id"
  = Some (JS.at_ (JS.split url) 2).
Proof.
  rewrite accepts_split, bindings_split. unfold MatchSpec.bindings_of.
  change (JS.split "/users/:id") with [""; "users"; ":id"].
  intros [Hlen%Nat.eqb_eq _]%andb_true_iff.
  by destruct (JS.split url) as [|a [|b [|c [|d values]]]].
Qed.

(** X15. [src/index.ts] answers every request in the first turn: [GET /]
    with the greeting; [GET] on a path of three segments whose first
    is empty and second is [users] with the third segment, whatever it
    holds, as [userId]; [POST /users] with status 201 and
    [created: null], the payload never being read since no step parses
    it; anything else with 404 and [Not Found]. *)
Theorem index_app_answers `{Runtime} (raw : IncomingMessage)
    (schedule : list nat) :
  ∃ st,
    handleRequest Example.index_app raw schedule
    = Flushed (index_answer raw) st.
Proof.
  destruct (handleRequest_one_turn Example.index_app raw schedule)
    as (st & -> & _).
  - intros mw body [->|Hin%elem_of_nil]%elem_of_cons; done.
  - intros h body Hh. unfold Router.match_ in Hh. rewrite index_routes in Hh.
    set (method := JS.or_else (im_method raw) "GET") in *.
    set (url := JS.or_else (im_url raw) "/") in *.
    assert (∀ (routes : JSMap Handler),
              (∀ e, e ∈ routes → ∀ req, synchronous (e.2 req)) →
              match Router.find_route routes url with
              | Some (_, h, _) => ∀ req, synchronous (h req)
              | None => True
              end) as Hsync.
    { intros routes Hroutes. rewrite find_route_spec.
      destruct (list_find _ routes) as [[i [p h']]|] eqn:Hfind; [|done].
      apply list_find_Some in Hfind as (Hi%list_elem_of_lookup_2 & _).
      apply (Hroutes _ Hi). }
    cbn [JSMap.get] in Hh.
    repeat match type of Hh with
      | context [String.eqb ?a method] =>
          destruct (String.eqb a method)
      end;
      match type of Hh with
      | context [Router.find_route ?routes url] =>
          specialize (Hsync routes);
          destruct (Router.find_route routes url) as [[[p h'] ps]|];
          [|done]
      | _ => done
      end;
      injection Hh as <-; apply Hsync;
      intros e He req;
      repeat (apply elem_of_cons in He as [->|He]; [by simpl|]);
      by apply elem_of_nil in He.
  - exists st. f_equal. unfold index_answer.
    cbn [middlewares Example.index_app App.post App.get App.use App.new
         App.with_router steps_writes foldl List.app Example.logger writes].
    unfold answer. cbn [fst snd requestContext RequestContext.method].
    rewrite or_else_again. unfold Router.match_. rewrite index_routes.
    set (method := JS.or_else (im_method raw) "GET").
    set (url := JS.or_else (im_url raw) "/").
    cbn [JSMap.get].
    destruct (String.eqb_spec "GET" method) as [<-|Hget].
    { rewrite String.eqb_refl. cbn [andb]. rewrite find_route_spec.
      cbn [list_find fst].
      destruct (String.eqb_spec url "/") as [Hroot|Hroot].
      - rewrite decide_True by by apply accepts_root.
        rewrite Hroot. reflexivity.
      - rewrite decide_False by by rewrite accepts_root.
        destruct (MatchSpec.accepts "/users/:id" url) eqn:Huser.
        + rewrite decide_True by done.
          cbn [fmap option_fmap option_map prod_map id fst snd
               Router.handler Router.params Example.show_user
               RequestContext.params RequestContext.set_params writes].
          rewrite (accepts_user url Huser). reflexivity.
        + rewrite decide_False by done. reflexivity. }
    assert (String.eqb method "GET" = false) as ->.
    { apply String.eqb_neq. congruence. }
    cbn [andb].
    destruct (String.eqb_spec "POST" method) as [<-|Hpost].
    { rewrite String.eqb_refl. cbn [andb]. rewrite find_route_spec.
      cbn [list_find fst].
      destruct (String.eqb_spec url "/users") as [Husers|Husers].
      - rewrite decide_True by by apply accepts_users. reflexivity.
      - rewrite decide_False by by rewrite accepts_users. reflexivity. }
    assert (String.eqb method "POST" = false) as ->.
    { apply String.eqb_neq. congruence. }
    cbn [andb].
    repeat match goal with
      | |- context [String.eqb ?a method] => destruct (String.eqb a method)
      end; reflexivity.
Qed.

(** ** The further properties at concrete requests *)

(** [TRACE] is not one of the seven methods. *)
Lemma unsupported_method_never_matches_witness :
  Router.register "TRACE" "/users/me" Example.hello
    (RouteTable.build Example.users_routes)
  = RouteTable.build Example.users_routes
  ∧ Router.match_ (RouteTable.build Example.users_routes) "TRACE" "/users/me"
    = Router.no_match.
Proof.
  apply (unsupported_method_never_matches Example.users_routes
           "TRACE" "/users/me" "/users/me" Example.hello).
  absent.
Defined.

(** A [GET /users] registered on top of the routes of [src/index.ts]
    leaves [POST /users] to its handler. *)
Lemma registration_leaves_other_methods_witness :
  Router.handler
    (Router.match_
       (RouteTable.add (MkRegistration GET "/users" Example.hello)
          (RouteTable.build Site.routes))
       "POST" "/users")
  = Some Example.create_user.
Proof.
  destruct (registration_leaves_other_methods
              (RouteTable.build Site.routes)
              (MkRegistration GET "/users" Example.hello) Site.routes
              "POST" "/users")
    as [Hother _].
  destruct Hother as [Hmatch _].
  - discriminate.
  - rewrite Hmatch. reflexivity.
Defined.

(** [POST /users] selects the literal pattern [/users] and binds
    nothing; [GET /] finds a handler. *)
Lemma literal_pattern_matches_only_itself_witness :
  Router.params (Router.match_ (RouteTable.build Site.routes) "POST" "/users")
  = ∅
  ∧ is_Some (Router.handler
               (Router.match_ (RouteTable.build Site.routes) "POST" "/users")).
Proof.
  destruct (literal_pattern_matches_only_itself Site.routes
              "POST" "/users" "/users") as [Honly Hitself].
  - intros seg Hseg. vm_compute in Hseg.
    repeat (apply elem_of_cons in Hseg as [->|Hseg]; [reflexivity|]).
    by apply elem_of_nil in Hseg.
  - split.
    + apply Honly. reflexivity.
    + apply Hitself. exists (MkRegistration POST "/users" Example.create_user).
      split; [|split; reflexivity].
      apply elem_of_cons; right. apply elem_of_cons; right.
      by apply elem_of_cons; left.
Defined.

(** [GET /users/42] against [/users/:id]: [id] is [42], and nothing
    is bound to [__proto__]. *)
Lemma parameters_are_path_segments_witness :
  let ps :=
    Router.params
      (Router.match_ (RouteTable.build Site.routes) "GET" "/users/42") in
  ps !! "id" = Some "42"
  ∧ ps !! "__proto__" = None
  ∧ JS.includes "/" "42" = false.
Proof.
  intros ps.
  destruct (parameters_are_path_segments Site.routes
              "GET" "/users/42" "/users/:id" "id" "42")
    as (Hiff & Hproto & Hslash).
  - reflexivity.
  - assert (ps !! "id" = Some "42") as Hid.
    { apply Hiff. split; [discriminate|].
      exists 2. split; [reflexivity|]. split; [reflexivity|].
      intros [|[|[|j]]] Hj; try lia; discriminate. }
    split; [exact Hid|]. split; [exact Hproto | exact (Hslash Hid)].
Defined.

(** A step that sets a header and passes the request on, and a handler
    that sends [ok]. *)
Lemma synchronous_chain_composes_witness :
  ∃ st,
    handleRequest (H := Reference.runtime) Site.tagged_ok_app
      (Example.request "GET" "/" [] "") [3; 0]
    = Flushed {| sent_headers := [("X-A", "1")]; sent_status := 200;
                 sent_body := Some "ok" |} st
    ∧ pending st = [].
Proof.
  apply (synchronous_chain_composes (H := Reference.runtime)
           Site.tagged_ok_app (Example.request "GET" "/" [] "") [3; 0]).
  - intros mw body Hin. apply elem_of_cons in Hin as [->|Hin]; [by simpl|].
    by apply elem_of_nil in Hin.
  - intros h body Hh. vm_compute in Hh. injection Hh as <-. by simpl.
Defined.

(** [src/index.ts] with [staticMiddleware] after its logger, and a
    request for a file that exists: the logger does not wait for
    [next()], so the response is written before the file is read, and
    it stays the empty response whatever happens afterwards. *)
Lemma unawaited_chain_is_answered_at_once_witness :
  let raw := Example.request "GET" "/index.html" [] "" in
  let empty := {| sent_headers := []; sent_status := 200; sent_body := None |} in
  response_of
    (handleRequest (H := Site.runtime) Site.logged_static_app raw [])
  = Some empty
  ∧ response_of
      (handleRequest (H := Site.runtime) Site.logged_static_app raw
         [1; 1; 0; 2])
    = Some empty.
Proof.
  intros raw empty.
  destruct (unawaited_chain_is_answered_at_once (H := Site.runtime)
              Site.logged_static_app raw Example.logger [Site.files])
    as (response & st & Hall).
  - reflexivity.
  - by simpl.
  - rewrite !Hall. pose proof (Hall []) as Hfirst. vm_compute in Hfirst.
    injection Hfirst as <- _. split; reflexivity.
Defined.

(** A step that waits for [next()] in front of a handler that renders
    a template: when the response is written, both have returned. *)
Lemma awaited_chain_completes_witness :
  ∃ response st,
    handleRequest (H := Reference.runtime) Site.patient_app
      (Example.request "GET" "/" [] "") [0]
    = Flushed response st
    ∧ sent_body response = Some "<h1>Hello</h1>"
    ∧ pending st = []
    ∧ ∀ w, Enter w ∈ log st → ∃ rc, Leave w rc ∈ log st.
Proof.
  eexists _, _. split; [vm_compute; reflexivity|]. split; [reflexivity|].
  eapply (awaited_chain_completes (H := Reference.runtime) Site.patient_app
            (Example.request "GET" "/" [] "") [0]).
  - intros mw req Hin. apply elem_of_cons in Hin as [->|Hin]; [by simpl|].
    by apply elem_of_nil in Hin.
  - vm_compute. reflexivity.
Defined.

(** [src/index.ts] with [jsonMiddleware] after its logger: a
    [GET /users/7] that carries a JSON content type and a malformed
    payload is answered as without the step. *)
Lemma jsonMiddleware_leaves_other_requests_witness :
  let raw :=
    Example.request "GET" "/users/7" [("content-type", "application/json")]
      "{bad" in
  response_of (handleRequest (H := Reference.runtime) Example.api_app raw [0; 1])
  = response_of
      (handleRequest (H := Reference.runtime) Example.index_app raw [0; 1])
  ∧ response_of
      (handleRequest (H := Reference.runtime) Example.api_app raw [0; 1])
    = Some {| sent_headers := [("Content-Type", "application/json")];
              sent_status := 200;
              sent_body := Reference.stringify (JObj [("userId", JStr "7")]) |}.
Proof.
  intros raw.
  destruct (jsonMiddleware_leaves_other_requests (H := Reference.runtime)
              Example.api_app raw [Example.logger] [] [0; 1])
    as (_ & response & st & st' & Hrun & Hrun').
  - reflexivity.
  - reflexivity.
  - intros mw body Hin. apply elem_of_cons in Hin as [->|Hin]; [by simpl|].
    by apply elem_of_nil in Hin.
  - intros h body Hh. vm_compute in Hh. injection Hh as <-. by simpl.
  - split; [|reflexivity].
    rewrite Hrun. symmetry. exact (f_equal response_of Hrun').
Defined.


(** [GET /LOGO.PNG]: the file is sent as [image/png], the extension
    having been lower-cased. *)
Lemma staticMiddleware_serves_file_witness :
  ∃ st,
    handleRequest (H := Site.runtime) Site.static_app
      (Example.request "GET" "/LOGO.PNG" [] "") [0; 0]
    = Flushed {| sent_headers := [("Content-Type", "image/png")];
                 sent_status := 200; sent_body := Some "PNG" |} st
    ∧ (CallNext (Step 0) ∉ log st)
    ∧ ∀ w, Enter w ∈ log st → w = Step 0.
Proof.
  destruct (staticMiddleware_serves_file (H := Site.runtime) (H0 := Site.disk)
              Site.static_app (Example.request "GET" "/LOGO.PNG" [] "")
              "public" [] eq_refl "PNG" [])
    as (_ & _ & Hserved).
  - reflexivity.
  - reflexivity.
  - exact Hserved.
Defined.

(** [GET /] names the directory itself, for which [stat] fails here,
    and is answered by its route; [GET /locked.css] names a file that
    cannot be read and no route, and is answered 404. *)
Lemma staticMiddleware_falls_through_witness :
  (∃ st,
     handleRequest (H := Site.runtime) Site.static_app
       (Example.request "GET" "/" [] "") [0]
     = Flushed
         {| sent_headers := [("Content-Type", "application/json")];
            sent_status := 200;
            sent_body :=
              Reference.stringify (JObj [("message", JStr "Hello World")]) |}
         st)
  ∧ ∃ st,
      handleRequest (H := Site.runtime) Site.static_app
        (Example.request "GET" "/locked.css" [] "") [0; 0]
      = Flushed {| sent_headers := []; sent_status := 404;
                   sent_body := Some "Not Found" |} st.
Proof.
  split.
  - destruct (staticMiddleware_falls_through (H := Site.runtime)
                (H0 := Site.disk) Site.static_app
                (Example.request "GET" "/" [] "") "public" [] eq_refl [])
      as [Hmissing _].
    + intros mw body Hin. by apply elem_of_nil in Hin.
    + intros h body Hh. vm_compute in Hh. injection Hh as <-. by simpl.
    + apply Hmissing. discriminate.
  - destruct (staticMiddleware_falls_through (H := Site.runtime)
                (H0 := Site.disk) Site.static_app
                (Example.request "GET" "/locked.css" [] "") "public" []
                eq_refl [])
      as [_ Hlocked].
    + intros mw body Hin. by apply elem_of_nil in Hin.
    + intros h body Hh. vm_compute in Hh. discriminate Hh.
    + apply Hlocked; reflexivity.
Defined.



